(** * Bounce cloth: a shallow embedding of the implicit cloth solver

    The development follows the sources it embeds:
    - [Math]        : the 3-vector / 3x3-matrix helpers the cloth code calls;
    - [ClothH]      : include/bounce/dynamics/cloth/cloth.h (inline particle API);
    - [Cloth]       : src/bounce/cloth/cloth.cpp (topology, mass, contacts, Step);
    - [ClothSolver] : src/bounce/dynamics/cloth/cloth_solver.cpp (assembly, MPCG).

    Scalars.  The C++ code computes in [float32].  Here a [float32] is an exact
    rational ([Qc]): rounding, overflow, infinities and NaN are outside the
    model.  The only way the exact model can be left is a division by zero;
    code that divides reports it explicitly (see [ClothSolver.result]).
    [B3_ASSERT] is modelled as a fault of the enclosing operation. *)

From Stdlib Require Import QArith Qcanon Ring Field Lia.
From stdpp Require Import base numbers option list.

Local Open Scope Qc_scope.

(* ===================================================================== *)
(** * Vector and matrix helpers *)
(* ===================================================================== *)

Module Math.

Abbreviation float32 := Qc.

(** Modelled from the spec: the math headers (vec3.h, mat33.h) are not among
    the sources; [b3Vec3] is the usual triple, [b3Mat33] stores its three
    columns [x], [y], [z], and every operator has its textbook meaning. *)
Record b3Vec3 : Type := mkVec3 { vx : float32; vy : float32; vz : float32 }.

Record b3Mat33 : Type := mkMat33 { cx : b3Vec3; cy : b3Vec3; cz : b3Vec3 }.

Definition b3Vec3_zero : b3Vec3 := mkVec3 0 0 0.

Definition vadd (a b : b3Vec3) : b3Vec3 :=
  mkVec3 (vx a + vx b) (vy a + vy b) (vz a + vz b).

Definition vsub (a b : b3Vec3) : b3Vec3 :=
  mkVec3 (vx a - vx b) (vy a - vy b) (vz a - vz b).

Definition vneg (a : b3Vec3) : b3Vec3 := mkVec3 (- vx a) (- vy a) (- vz a).

Definition vscale (s : float32) (a : b3Vec3) : b3Vec3 :=
  mkVec3 (s * vx a) (s * vy a) (s * vz a).

Definition b3Dot (a b : b3Vec3) : float32 :=
  vx a * vx b + vy a * vy b + vz a * vz b.

Definition b3Cross (a b : b3Vec3) : b3Vec3 :=
  mkVec3 (vy a * vz b - vz a * vy b)
         (vz a * vx b - vx a * vz b)
         (vx a * vy b - vy a * vx b).

Definition b3Mat33_zero : b3Mat33 := mkMat33 b3Vec3_zero b3Vec3_zero b3Vec3_zero.

Definition b3Mat33_identity : b3Mat33 :=
  mkMat33 (mkVec3 1 0 0) (mkVec3 0 1 0) (mkVec3 0 0 1).

(** [b3Diagonal(s)] and [b3Diagonal(x, y, z)]. *)
Definition b3Diagonal3 (a b c : float32) : b3Mat33 :=
  mkMat33 (mkVec3 a 0 0) (mkVec3 0 b 0) (mkVec3 0 0 c).

Definition b3Diagonal (s : float32) : b3Mat33 := b3Diagonal3 s s s.

Definition madd (A B : b3Mat33) : b3Mat33 :=
  mkMat33 (vadd (cx A) (cx B)) (vadd (cy A) (cy B)) (vadd (cz A) (cz B)).

Definition msub (A B : b3Mat33) : b3Mat33 :=
  mkMat33 (vsub (cx A) (cx B)) (vsub (cy A) (cy B)) (vsub (cz A) (cz B)).

Definition mscale (s : float32) (A : b3Mat33) : b3Mat33 :=
  mkMat33 (vscale s (cx A)) (vscale s (cy A)) (vscale s (cz A)).

(** Matrix times vector: the combination of the columns. *)
Definition mmulv (A : b3Mat33) (v : b3Vec3) : b3Vec3 :=
  vadd (vadd (vscale (vx v) (cx A)) (vscale (vy v) (cy A))) (vscale (vz v) (cz A)).

Definition mmul (A B : b3Mat33) : b3Mat33 :=
  mkMat33 (mmulv A (cx B)) (mmulv A (cy B)) (mmulv A (cz B)).

(** [b3Outer(a, b)] is the matrix [a * b^T]; its j-th column is [b_j * a]. *)
Definition b3Outer (a b : b3Vec3) : b3Mat33 :=
  mkMat33 (vscale (vx b) a) (vscale (vy b) a) (vscale (vz b) a).

Definition b3Transpose (A : b3Mat33) : b3Mat33 :=
  mkMat33 (mkVec3 (vx (cx A)) (vx (cy A)) (vx (cz A)))
          (mkVec3 (vy (cx A)) (vy (cy A)) (vy (cz A)))
          (mkVec3 (vz (cx A)) (vz (cy A)) (vz (cz A))).

(** [b3Det(a, b, c)]: the determinant of the matrix with columns a, b, c. *)
Definition b3Det (a b c : b3Vec3) : float32 := b3Dot a (b3Cross b c).

#[global] Instance b3Vec3_eq_dec : EqDecision b3Vec3.
Proof. solve_decision. Defined.

#[global] Instance b3Mat33_eq_dec : EqDecision b3Mat33.
Proof. solve_decision. Defined.

(** Equalities between vector and matrix expressions reduce to ring
    identities on the coordinates. *)
Ltac coords :=
  repeat match goal with
         | v : b3Vec3 |- _ => destruct v
         | m : b3Mat33 |- _ => destruct m
         end;
  unfold mmul, mmulv, b3Outer, b3Transpose, madd, msub, mscale,
    b3Mat33_identity, b3Mat33_zero, b3Diagonal, b3Diagonal3,
    vadd, vsub, vneg, vscale, b3Dot, b3Cross, b3Vec3_zero in *;
  cbn [vx vy vz cx cy cz] in *.

Ltac vec_ring :=
  coords;
  repeat match goal with
         | |- mkVec3 _ _ _ = mkVec3 _ _ _ => f_equal
         | |- mkMat33 _ _ _ = mkMat33 _ _ _ => f_equal
         end;
  ring.

Lemma vadd_zero_l (a : b3Vec3) : vadd b3Vec3_zero a = a.
Proof. vec_ring. Qed.

Lemma vadd_zero_r (a : b3Vec3) : vadd a b3Vec3_zero = a.
Proof. vec_ring. Qed.

Lemma vscale_zero_r (s : float32) : vscale s b3Vec3_zero = b3Vec3_zero.
Proof. vec_ring. Qed.

Lemma mmulv_zero_l (v : b3Vec3) : mmulv b3Mat33_zero v = b3Vec3_zero.
Proof. vec_ring. Qed.

Lemma mmulv_zero_r (A : b3Mat33) : mmulv A b3Vec3_zero = b3Vec3_zero.
Proof. vec_ring. Qed.

Lemma mmulv_identity (v : b3Vec3) : mmulv b3Mat33_identity v = v.
Proof. vec_ring. Qed.

Lemma mmulv_vadd (A : b3Mat33) (u v : b3Vec3) :
  mmulv A (vadd u v) = vadd (mmulv A u) (mmulv A v).
Proof. vec_ring. Qed.

Lemma mmulv_vscale (A : b3Mat33) (s : float32) (v : b3Vec3) :
  mmulv A (vscale s v) = vscale s (mmulv A v).
Proof. vec_ring. Qed.

Lemma mmulv_msub (A B : b3Mat33) (v : b3Vec3) :
  mmulv (msub A B) v = vsub (mmulv A v) (mmulv B v).
Proof. vec_ring. Qed.

Lemma mmulv_mmul (A B : b3Mat33) (v : b3Vec3) :
  mmulv A (mmulv B v) = mmulv (mmul A B) v.
Proof. vec_ring. Qed.

End Math.

Import Math.

(* ===================================================================== *)
(** * include/bounce/dynamics/cloth/cloth.h : the inline particle API *)
(* ===================================================================== *)

Module ClothH.

Inductive b3ParticleType : Type :=
  | e_staticParticle
  | e_kinematicParticle
  | e_dynamicParticle.

#[global] Instance b3ParticleType_eq_dec : EqDecision b3ParticleType.
Proof. solve_decision. Defined.

(** [struct b3Particle].  The [void* userData] member carries no simulation
    state and is left out. *)
Record b3Particle : Type := mkParticle {
  type : b3ParticleType;
  position : b3Vec3;
  velocity : b3Vec3;
  force : b3Vec3;
  mass : float32;
  invMass : float32;
  radius : float32;
  translation : b3Vec3;
  solverId : nat;
  x : b3Vec3
}.

Inductive b3SpringType : Type := e_strechSpring | e_bendSpring.

(** [struct b3Spring]; the particle pointers [p1], [p2] are indices into
    [m_particles]. *)
Record b3Spring : Type := mkSpring {
  spring_type : b3SpringType;
  spring_p1 : nat;
  spring_p2 : nat;
  L0 : float32;
  ks : float32;
  kd : float32;
  tension : b3Vec3;
  Jx : b3Mat33;
  Jv : b3Mat33
}.

(** [struct b3ParticleContact]; [p1] indexes [m_particles], [s2] names a
    shape of the shape list. *)
Record b3ParticleContact : Type := mkParticleContact {
  p1 : nat;
  s2 : nat;
  s : float32;
  n : b3Vec3;
  t1 : b3Vec3;
  t2 : b3Vec3;
  Fn : float32;
  Ft1 : float32;
  Ft2 : float32;
  n_active : bool;
  t1_active : bool;
  t2_active : bool
}.

(** [class b3Cloth]: the members that hold simulation state.  The arrays
    [m_particles], [m_springs], [m_contacts] are lists; [m_particleCount]
    and [m_springCount] are their lengths; [m_contacts] has one record per
    particle, at the particle's index. *)
Record b3Cloth : Type := mkCloth {
  m_gravity : b3Vec3;
  m_particles : list b3Particle;
  m_springs : list b3Spring;
  m_contacts : list b3ParticleContact;
  m_shapes : list nat;
  m_density : float32
}.

Definition GetParticleCount (c : b3Cloth) : nat := length (m_particles c).

(** The three assignments [m_contacts[ip].n_active = false], ... *)
Definition deactivate (k : b3ParticleContact) : b3ParticleContact :=
  mkParticleContact (p1 k) (s2 k) (s k) (n k) (t1 k) (t2 k)
    (Fn k) (Ft1 k) (Ft2 k) false false false.

(** [b3Cloth::SetType(b3Particle* p, b3ParticleType type)].  The pointer [p]
    is the index [ip = p - m_particles].  A pointer outside the array is
    undefined behaviour in C++; the model leaves the cloth unchanged there. *)
Definition SetType (c : b3Cloth) (ip : nat) (t : b3ParticleType) : b3Cloth :=
  match m_particles c !! ip with
  | None => c
  | Some p =>
    if decide (type p = t) then c
    else
      (* p->type = type; p->force.SetZero(); *)
      let q := mkParticle t (position p) (velocity p) b3Vec3_zero (mass p)
                 (invMass p) (radius p) (translation p) (solverId p) (x p) in
      if decide (t = e_staticParticle) then
        (* p->velocity.SetZero(); p->translation.SetZero(); *)
        let q' := mkParticle t (position p) b3Vec3_zero b3Vec3_zero (mass p)
                    (invMass p) (radius p) b3Vec3_zero (solverId p) (x p) in
        mkCloth (m_gravity c) (<[ip := q']> (m_particles c)) (m_springs c)
          (alter deactivate ip (m_contacts c)) (m_shapes c) (m_density c)
      else
        mkCloth (m_gravity c) (<[ip := q]> (m_particles c)) (m_springs c)
          (m_contacts c) (m_shapes c) (m_density c)
  end.

(** [b3Cloth::Translate], [SetVelocity], [ApplyForce]. *)
Definition Translate (c : b3Cloth) (ip : nat) (d : b3Vec3) : b3Cloth :=
  mkCloth (m_gravity c)
    (alter (fun p => mkParticle (type p) (position p) (velocity p) (force p)
              (mass p) (invMass p) (radius p) (vadd (translation p) d)
              (solverId p) (x p)) ip (m_particles c))
    (m_springs c) (m_contacts c) (m_shapes c) (m_density c).

Definition SetVelocity (c : b3Cloth) (ip : nat) (v : b3Vec3) : b3Cloth :=
  mkCloth (m_gravity c)
    (alter (fun p => if decide (type p = e_staticParticle) then p
                     else mkParticle (type p) (position p) v (force p)
                            (mass p) (invMass p) (radius p) (translation p)
                            (solverId p) (x p)) ip (m_particles c))
    (m_springs c) (m_contacts c) (m_shapes c) (m_density c).

Definition ApplyForce (c : b3Cloth) (ip : nat) (f : b3Vec3) : b3Cloth :=
  mkCloth (m_gravity c)
    (alter (fun p => if decide (type p = e_dynamicParticle)
                     then mkParticle (type p) (position p) (velocity p)
                            (vadd (force p) f) (mass p) (invMass p) (radius p)
                            (translation p) (solverId p) (x p)
                     else p) ip (m_particles c))
    (m_springs c) (m_contacts c) (m_shapes c) (m_density c).

(** ** Examples *)

Definition particle0 : b3Particle :=
  mkParticle e_dynamicParticle (mkVec3 0 1 0) (mkVec3 1 0 0) (mkVec3 0 0 1)
    1 1 (Q2Qc (1 # 20)) (mkVec3 0 0 1) 0 b3Vec3_zero.

Definition contact0 : b3ParticleContact :=
  mkParticleContact 0 0 (- 1) (mkVec3 0 1 0) (mkVec3 1 0 0) (mkVec3 0 0 1)
    0 0 0 true true false.

Definition cloth0 : b3Cloth :=
  mkCloth (mkVec3 0 (- 1) 0) [particle0] [] [contact0] [0%nat] 1.

(** ** Properties of [SetType] *)

(** C10. [SetType(p, t)] with [t] the current type of [p] changes nothing, so
    a second identical call is a no-op; with another [t] it sets the type
    and zeroes the accumulated external force whatever [t] is, touches no
    other particle, and exactly when [t] is static it also zeroes velocity
    and pending translation and clears the three activity flags of the
    particle's contact (for kinematic and dynamic targets velocity,
    translation and contacts stay as they were). *)
Theorem SetType_force_reset (c : b3Cloth) (ip : nat) (p : b3Particle)
    (t : b3ParticleType) :
  m_particles c !! ip = Some p ->
  (t = type p -> SetType c ip t = c) /\
  SetType (SetType c ip t) ip t = SetType c ip t /\
  (t <> type p ->
    exists q, m_particles (SetType c ip t) !! ip = Some q /\
      type q = t /\ force q = b3Vec3_zero /\
      position q = position p /\ mass q = mass p /\
      (forall j, j <> ip ->
         m_particles (SetType c ip t) !! j = m_particles c !! j) /\
      (t = e_staticParticle ->
         velocity q = b3Vec3_zero /\ translation q = b3Vec3_zero /\
         m_contacts (SetType c ip t) = alter deactivate ip (m_contacts c) /\
         forall k, m_contacts c !! ip = Some k ->
           exists k', m_contacts (SetType c ip t) !! ip = Some k' /\
             n_active k' = false /\ t1_active k' = false /\
             t2_active k' = false) /\
      (t <> e_staticParticle ->
         velocity q = velocity p /\ translation q = translation p /\
         m_contacts (SetType c ip t) = m_contacts c)).
Proof.
  intros Hp.
  assert (Hlt : (ip < length (m_particles c))%nat) by (eapply lookup_lt_Some; eauto).
  split; [|split].
  - intros ->. unfold SetType. rewrite Hp. by rewrite decide_True.
  - unfold SetType at 2 3. rewrite Hp.
    destruct (decide (type p = t)) as [Heq|Hne].
    + unfold SetType. rewrite Hp. by rewrite decide_True.
    + destruct (decide (t = e_staticParticle)) as [Hs|Hs];
        unfold SetType; cbn [m_particles];
        rewrite list_lookup_insert_eq by done; cbn [type];
        by rewrite decide_True.
  - intros Hne. unfold SetType. rewrite Hp.
    rewrite decide_False by congruence.
    destruct (decide (t = e_staticParticle)) as [Hs|Hs]; cbn [m_particles m_contacts].
    + eexists. split; [by apply list_lookup_insert_eq|]. cbn.
      repeat split; try done.
      * intros j Hj. by rewrite list_lookup_insert_ne.
      * intros k Hk. exists (deactivate k). split; [|done].
        by rewrite list_lookup_alter_eq, Hk.
    + eexists. split; [by apply list_lookup_insert_eq|]. cbn.
      repeat split; try done.
      intros j Hj. by rewrite list_lookup_insert_ne.
Qed.

Lemma SetType_force_reset_witness :
  m_particles cloth0 !! 0%nat = Some particle0 /\
  exists q, m_particles (SetType cloth0 0 e_kinematicParticle) !! 0%nat = Some q /\
    force q = b3Vec3_zero /\ velocity q = mkVec3 1 0 0.
Proof.
  split; [reflexivity|].
  destruct (SetType_force_reset cloth0 0 particle0 e_kinematicParticle eq_refl)
    as (_ & _ & H).
  destruct H as (q & Hq & _ & Hf & _ & _ & _ & _ & Hk); [discriminate|].
  exists q. destruct Hk as (Hv & _); [discriminate|]. by rewrite Hv.
Defined.

(** ** The other setters, and how they compose with [SetType] *)

Lemma alter_fixed {A : Type} (g : A -> A) (l : list A) (i : nat) (a : A) :
  l !! i = Some a -> g a = a -> alter g i l = l.
Proof.
  intros Hi Ha. rewrite <- (list_alter_id id l i) at 2 by done.
  apply list_alter_ext; [|done]. intros a' Ha'.
  assert (a' = a) as -> by congruence. exact Ha.
Qed.

Lemma insert_after_alter {A : Type} (g : A -> A) (l : list A) (i : nat) (a : A) :
  <[i := a]> (alter g i l) = <[i := a]> l.
Proof. by rewrite !list_insert_alter, list_alter_alter_eq. Qed.

Lemma alter_as_insert {A : Type} (g : A -> A) (l : list A) (i : nat) (a : A) :
  l !! i = Some a -> alter g i l = <[i := g a]> l.
Proof.
  intros Hi. rewrite list_insert_alter. apply list_alter_ext; [|done].
  intros a' Ha'. by assert (a' = a) as -> by congruence.
Qed.

(** What [SetType] leaves at [ip] when it makes a particle static. *)
Lemma SetType_static_lookup (c : b3Cloth) (ip : nat) (p : b3Particle) :
  m_particles c !! ip = Some p ->
  exists q, m_particles (SetType c ip e_staticParticle) !! ip = Some q /\
    type q = e_staticParticle /\
    (type p <> e_staticParticle ->
       velocity q = b3Vec3_zero /\ translation q = b3Vec3_zero /\
       force q = b3Vec3_zero).
Proof.
  intros Hp.
  assert (Hlt : (ip < length (m_particles c))%nat) by (by eapply lookup_lt_Some).
  unfold SetType. rewrite Hp.
  destruct (decide (type p = e_staticParticle)) as [Ht|Ht].
  - exists p. by repeat split.
  - rewrite decide_True by done. cbn [m_particles].
    eexists. split; [by apply list_lookup_insert_eq|]. by repeat split.
Qed.

(** X1. [SetVelocity] does nothing to a static particle; on any other
    particle it replaces the velocity and nothing else, and leaves every
    other particle, the springs and the contacts alone.  Once [SetType] has
    made a particle static, [SetVelocity] on it has no effect, so a particle
    that [SetType] stopped stays at rest. *)
Theorem SetVelocity_guard (c : b3Cloth) (ip : nat) (p : b3Particle) (w : b3Vec3) :
  m_particles c !! ip = Some p ->
  (type p = e_staticParticle -> SetVelocity c ip w = c) /\
  (type p <> e_staticParticle ->
     SetVelocity c ip w =
       mkCloth (m_gravity c)
         (<[ip := mkParticle (type p) (position p) w (force p) (mass p)
                    (invMass p) (radius p) (translation p) (solverId p) (x p)]>
            (m_particles c))
         (m_springs c) (m_contacts c) (m_shapes c) (m_density c)) /\
  SetVelocity (SetType c ip e_staticParticle) ip w = SetType c ip e_staticParticle /\
  (type p <> e_staticParticle ->
     exists q,
       m_particles (SetVelocity (SetType c ip e_staticParticle) ip w) !! ip = Some q /\
       velocity q = b3Vec3_zero).
Proof.
  intros Hp.
  assert (Hstatic : forall c' p', m_particles c' !! ip = Some p' ->
            type p' = e_staticParticle -> SetVelocity c' ip w = c').
  { intros c' p' Hp' Ht. unfold SetVelocity. destruct c'. cbn in *. f_equal.
    eapply alter_fixed; [exact Hp'|]. by rewrite decide_True. }
  destruct (SetType_static_lookup c ip p Hp) as (q & Hq & Htq & Hzero).
  split; [by apply Hstatic|]. split; [|split].
  - intros Ht. unfold SetVelocity. f_equal.
    rewrite (alter_as_insert _ _ _ _ Hp). by rewrite decide_False.
  - by apply (Hstatic _ q).
  - intros Ht. rewrite (Hstatic _ q Hq Htq). exists q. split; [done|].
    by destruct (Hzero Ht).
Qed.

(** X2. [ApplyForce] is ignored by a particle that is not dynamic; on a
    dynamic particle it adds to the pending force and changes nothing else.
    A later [SetType] to another type discards whatever was applied: the
    result is the one of [SetType] alone. *)
Theorem ApplyForce_guard (c : b3Cloth) (ip : nat) (p : b3Particle) (f0 : b3Vec3) :
  m_particles c !! ip = Some p ->
  (type p <> e_dynamicParticle -> ApplyForce c ip f0 = c) /\
  (type p = e_dynamicParticle ->
     ApplyForce c ip f0 =
       mkCloth (m_gravity c)
         (<[ip := mkParticle (type p) (position p) (velocity p)
                    (vadd (force p) f0) (mass p) (invMass p) (radius p)
                    (translation p) (solverId p) (x p)]> (m_particles c))
         (m_springs c) (m_contacts c) (m_shapes c) (m_density c)) /\
  (forall t, t <> type p -> SetType (ApplyForce c ip f0) ip t = SetType c ip t).
Proof.
  intros Hp.
  assert (Hlt : (ip < length (m_particles c))%nat) by (by eapply lookup_lt_Some).
  split; [|split].
  - intros Ht. unfold ApplyForce. destruct c. cbn in *. f_equal.
    eapply alter_fixed; [exact Hp|]. by rewrite decide_False.
  - intros Ht. unfold ApplyForce. f_equal.
    rewrite (alter_as_insert _ _ _ _ Hp). by rewrite decide_True.
  - intros t Ht. unfold SetType, ApplyForce. cbn [m_particles m_contacts m_gravity
      m_springs m_shapes m_density].
    rewrite list_lookup_alter_eq, Hp. cbn [fmap option_fmap option_map].
    destruct (decide (type p = e_dynamicParticle)) as [Hd|Hd]; cbn [type position
      velocity mass invMass radius translation solverId x];
      rewrite !(decide_False (P := type p = t)) by congruence;
      destruct (decide (t = e_staticParticle)); by rewrite insert_after_alter.
Qed.

(** X3. [Translate] has no guard on the type: it adds to the pending
    translation of a static, kinematic or dynamic particle alike and changes
    nothing else.  [SetType] to static discards a pending translation,
    [SetType] to kinematic or dynamic keeps it. *)
Theorem Translate_any_type (c : b3Cloth) (ip : nat) (p : b3Particle) (d : b3Vec3) :
  m_particles c !! ip = Some p ->
  Translate c ip d =
    mkCloth (m_gravity c)
      (<[ip := mkParticle (type p) (position p) (velocity p) (force p) (mass p)
                 (invMass p) (radius p) (vadd (translation p) d) (solverId p)
                 (x p)]> (m_particles c))
      (m_springs c) (m_contacts c) (m_shapes c) (m_density c) /\
  (type p <> e_staticParticle ->
     SetType (Translate c ip d) ip e_staticParticle = SetType c ip e_staticParticle) /\
  (forall t, t <> type p -> t <> e_staticParticle ->
     exists q, m_particles (SetType (Translate c ip d) ip t) !! ip = Some q /\
       translation q = vadd (translation p) d).
Proof.
  intros Hp.
  assert (Hlt : (ip < length (m_particles c))%nat) by (by eapply lookup_lt_Some).
  assert (HT : Translate c ip d =
    mkCloth (m_gravity c)
      (<[ip := mkParticle (type p) (position p) (velocity p) (force p) (mass p)
                 (invMass p) (radius p) (vadd (translation p) d) (solverId p)
                 (x p)]> (m_particles c))
      (m_springs c) (m_contacts c) (m_shapes c) (m_density c)).
  { unfold Translate. f_equal. by rewrite (alter_as_insert _ _ _ _ Hp). }
  split; [exact HT|]. rewrite HT. split.
  - intros Ht. unfold SetType. cbn [m_particles m_contacts m_gravity m_springs
      m_shapes m_density].
    rewrite list_lookup_insert_eq, Hp by done.
    cbn [type position velocity mass invMass radius translation solverId x].
    rewrite !(decide_False (P := type p = e_staticParticle)) by done.
    rewrite !decide_True by done. by rewrite list_insert_insert_eq.
  - intros t Ht Hs. unfold SetType. cbn [m_particles].
    rewrite list_lookup_insert_eq by done. cbn [type].
    rewrite decide_False by congruence. rewrite decide_False by done.
    cbn [m_particles]. eexists. split.
    + apply list_lookup_insert_eq. by rewrite length_insert.
    + done.
Qed.

Lemma SetVelocity_guard_witness :
  m_particles cloth0 !! 0%nat = Some particle0 /\
  exists q,
    m_particles (SetVelocity (SetType cloth0 0 e_staticParticle) 0
                   (mkVec3 0 0 1)) !! 0%nat = Some q /\
    velocity q = b3Vec3_zero.
Proof.
  split; [reflexivity|].
  destruct (SetVelocity_guard cloth0 0 particle0 (mkVec3 0 0 1) eq_refl)
    as (_ & _ & _ & H).
  apply H. discriminate.
Defined.

Lemma ApplyForce_guard_witness :
  m_particles cloth0 !! 0%nat = Some particle0 /\
  SetType (ApplyForce cloth0 0 (mkVec3 1 1 1)) 0 e_kinematicParticle
  = SetType cloth0 0 e_kinematicParticle.
Proof.
  split; [reflexivity|].
  destruct (ApplyForce_guard cloth0 0 particle0 (mkVec3 1 1 1) eq_refl)
    as (_ & _ & H).
  apply H. discriminate.
Defined.

Lemma Translate_any_type_witness :
  m_particles cloth0 !! 0%nat = Some particle0 /\
  SetType (Translate cloth0 0 (mkVec3 1 0 0)) 0 e_staticParticle
  = SetType cloth0 0 e_staticParticle.
Proof.
  split; [reflexivity|].
  destruct (Translate_any_type cloth0 0 particle0 (mkVec3 1 0 0) eq_refl)
    as (_ & H & _).
  apply H. discriminate.
Defined.

End ClothH.

(* ===================================================================== *)
(** * src/bounce/cloth/cloth.cpp *)
(* ===================================================================== *)

Module Cloth.

Import ClothH (b3ParticleType, e_staticParticle, e_kinematicParticle,
  e_dynamicParticle).

(** ** Mesh topology *)

(** Vertex indices are [u32] in the source; the code only compares them and
    uses them as array subscripts, so they are natural numbers here. *)
Record b3ClothMeshTriangle : Type := mkTriangle { v1 : nat; v2 : nat; v3 : nat }.

Record b3ClothMeshSewingLine : Type := mkSewingLine { s_v1 : nat; s_v2 : nat }.

(** [struct b3ClothMesh] (declared in cloth_mesh.h, used through its
    fields): [vertexCount], [triangleCount] and [sewingLineCount] are the
    lengths of the three arrays. *)
Record b3ClothMesh : Type := mkMesh {
  vertices : list b3Vec3;
  triangles : list b3ClothMeshTriangle;
  sewingLines : list b3ClothMeshSewingLine
}.

Definition vertexCount (m : b3ClothMesh) : nat := length (vertices m).
Definition triangleCount (m : b3ClothMesh) : nat := length (triangles m).

Definition b3NextIndex (i : nat) : nat :=
  if decide (i + 1 < 3)%nat then (i + 1)%nat else 0%nat.

Record b3UniqueEdge : Type := mkUniqueEdge { ue_v1 : nat; ue_v2 : nat }.

(** [u32 i1s[3] = { t1->v1, t1->v2, t1->v3 }], read at an index below 3. *)
Definition i1s (t : b3ClothMeshTriangle) (j : nat) : nat :=
  match j with
  | 0%nat => v1 t
  | 1%nat => v2 t
  | _ => v3 t
  end.

(** The search loop over [uniqueEdges[0 .. uniqueCount)]: the final value
    of the flag [unique]. *)
Fixpoint unique (uniqueEdges : list b3UniqueEdge) (t1v1 t1v2 : nat) : bool :=
  match uniqueEdges with
  | [] => true
  | ue :: rest =>
    if bool_decide (ue_v1 ue = t1v1) && bool_decide (ue_v2 ue = t1v2) then false
    else if bool_decide (ue_v2 ue = t1v1) && bool_decide (ue_v1 ue = t1v2) then false
    else unique rest t1v1 t1v2
  end.

(** One pass of the [j1] loop body: [uniqueEdges[uniqueCount++] = ue] when
    the edge is new. *)
Definition scan_edge (t : b3ClothMeshTriangle) (uniqueEdges : list b3UniqueEdge)
    (j1 : nat) : list b3UniqueEdge :=
  let t1v1 := i1s t j1 in
  let t1v2 := i1s t (b3NextIndex j1) in
  if unique uniqueEdges t1v1 t1v2
  then uniqueEdges ++ [mkUniqueEdge t1v1 t1v2]
  else uniqueEdges.

Definition scan_triangle (uniqueEdges : list b3UniqueEdge)
    (t : b3ClothMeshTriangle) : list b3UniqueEdge :=
  foldl (scan_edge t) uniqueEdges (seq 0 3).

Definition scan_triangles (ts : list b3ClothMeshTriangle) : list b3UniqueEdge :=
  foldl scan_triangle [] ts.

(** [b3FindUniqueEdges]: the filled prefix of the output array; the returned
    [uniqueCount] is its length. *)
Definition b3FindUniqueEdges (m : b3ClothMesh) : list b3UniqueEdge :=
  scan_triangles (triangles m).

Record b3SharedEdge : Type := mkSharedEdge {
  se_v1 : nat; se_v2 : nat; nsv1 : nat; nsv2 : nat
}.

(** The [j2] loop of [b3FindSharedEdges]: the first edge of [t2] that runs
    opposite to (t1v1, t1v2), if any ([break] after the first). *)
Fixpoint match_edge (t2 : b3ClothMeshTriangle) (t1v1 t1v2 : nat)
    (j2s : list nat) : option nat :=
  match j2s with
  | [] => None
  | j2 :: rest =>
    let k2 := b3NextIndex j2 in
    if bool_decide (t1v1 = i1s t2 k2) && bool_decide (t1v2 = i1s t2 j2)
    then Some (i1s t2 (b3NextIndex k2))
    else match_edge t2 t1v1 t1v2 rest
  end.

Definition shared_with (t1 : b3ClothMeshTriangle) (j1 : nat)
    (sharedEdges : list b3SharedEdge) (t2 : b3ClothMeshTriangle)
    : list b3SharedEdge :=
  let k1 := b3NextIndex j1 in
  let t1v1 := i1s t1 j1 in
  let t1v2 := i1s t1 k1 in
  match match_edge t2 t1v1 t1v2 (seq 0 3) with
  | Some t2v3 =>
    sharedEdges ++ [mkSharedEdge t1v1 t1v2 (i1s t1 (b3NextIndex k1)) t2v3]
  | None => sharedEdges
  end.

(** The outer loops of [b3FindSharedEdges]: triangle [t1] against every
    later triangle. *)
Fixpoint shared_from (ts : list b3ClothMeshTriangle)
    (sharedEdges : list b3SharedEdge) : list b3SharedEdge :=
  match ts with
  | [] => sharedEdges
  | t1 :: later =>
    shared_from later
      (foldl (fun acc j1 => foldl (shared_with t1 j1) acc later)
         sharedEdges (seq 0 3))
  end.

Definition b3FindSharedEdges (m : b3ClothMesh) : list b3SharedEdge :=
  shared_from (triangles m) [].

(** ** What the extraction is compared with *)

(** The three directed edges of a triangle in scan order, and the whole
    scan. *)
Definition triangle_edges (t : b3ClothMeshTriangle) : list (nat * nat) :=
  [(v1 t, v2 t); (v2 t, v3 t); (v3 t, v1 t)].

Definition mesh_edges (ts : list b3ClothMeshTriangle) : list (nat * nat) :=
  concat (map triangle_edges ts).

(** Undirected equality of a stored edge and a pair of end points. *)
Definition same_edge (ue : b3UniqueEdge) (a b : nat) : Prop :=
  (ue_v1 ue = a /\ ue_v2 ue = b) \/ (ue_v2 ue = a /\ ue_v1 ue = b).

Definition edge_pair (ue : b3UniqueEdge) : nat * nat := (ue_v1 ue, ue_v2 ue).

Lemma unique_false (ues : list b3UniqueEdge) (a b : nat) :
  unique ues a b = false <-> exists ue, ue ∈ ues /\ same_edge ue a b.
Proof.
  induction ues as [|ue ues IH]; cbn [unique].
  - split; [done|]. intros (ue & Hin & _). inversion Hin.
  - destruct (bool_decide (ue_v1 ue = a) && bool_decide (ue_v2 ue = b)) eqn:E1.
    { apply andb_prop in E1 as [?%bool_decide_eq_true ?%bool_decide_eq_true].
      split; [|done]. intros _. exists ue. split; [left|left]; done. }
    destruct (bool_decide (ue_v2 ue = a) && bool_decide (ue_v1 ue = b)) eqn:E2.
    { apply andb_prop in E2 as [?%bool_decide_eq_true ?%bool_decide_eq_true].
      split; [|done]. intros _. exists ue. split; [left|right]; done. }
    rewrite IH. split.
    + intros (u & Hin & Hs). exists u. split; [by right|done].
    + intros (u & Hin & Hs). apply elem_of_cons in Hin as [->|Hin]; [|by exists u].
      exfalso. destruct Hs as [[? ?]|[? ?]].
      * rewrite !bool_decide_eq_true_2 in E1 by done. done.
      * rewrite !bool_decide_eq_true_2 in E2 by done. done.
Qed.

Lemma unique_true (ues : list b3UniqueEdge) (a b : nat) :
  unique ues a b = true <-> forall ue, ue ∈ ues -> ~ same_edge ue a b.
Proof.
  rewrite <- not_false_iff_true, unique_false. split.
  - intros H ue Hin Hs. apply H. by exists ue.
  - intros H (ue & Hin & Hs). by apply (H ue).
Qed.

Lemma same_edge_sym (ue : b3UniqueEdge) (a b : nat) :
  same_edge ue a b <-> same_edge ue b a.
Proof. unfold same_edge. tauto. Qed.

Lemma unique_sym (ues : list b3UniqueEdge) (a b : nat) :
  unique ues a b = unique ues b a.
Proof.
  destruct (unique ues b a) eqn:E.
  - apply unique_true. intros ue Hin Hs. apply same_edge_sym in Hs.
    revert ue Hin Hs. by apply unique_true.
  - apply unique_false. apply unique_false in E as (ue & Hin & Hs).
    exists ue. split; [done|]. by apply same_edge_sym.
Qed.

(** ** Particles, contacts and the cloth *)

Record b3Vec2 : Type := mkVec2 { v2x : float32; v2y : float32 }.

Definition b3Vec2_zero : b3Vec2 := mkVec2 0 0.

Inductive b3BodyType : Type := e_staticBody | e_kinematicBody | e_dynamicBody.

#[global] Instance b3BodyType_eq_dec : EqDecision b3BodyType.
Proof. solve_decision. Defined.

Record b3Sphere : Type := mkSphere { vertex : b3Vec3; radius : float32 }.

Record b3TestSphereOutput : Type := mkTestSphereOutput {
  separation : float32;
  point : b3Vec3;
  normal : b3Vec3
}.

(** [struct b3SpringForceDef] after [Initialize(p1, p2, structural, damping)]:
    the two particle pointers and the two coefficients.  (The rest length
    that [Initialize] derives lives in spring_force.h, which is not among the
    sources, and is left out.) *)
Record b3SpringForceDef : Type := mkSpringForceDef {
  fd_p1 : nat;
  fd_p2 : nat;
  fd_structural : float32;
  fd_damping : float32
}.

Section WithWorld.

(** The rigid world is consumed through an interface only: shapes and
    transforms are opaque, [TestSphere] answers [Some output] where the C++
    returns true and fills [output], [GetBody] is [shape->GetBody()],
    [GetLocalPoint] is [body->GetLocalPoint(point)].  [b3Perp] and [b3Area]
    come from the math headers. *)
Variable b3Shape : Type.
Variable b3Transform : Type.
Variable TestSphere : b3Shape -> b3Sphere -> b3Transform -> option b3TestSphereOutput.
Variable b3Perp : b3Vec3 -> b3Vec3.
Variable b3Area : b3Vec3 -> b3Vec3 -> b3Vec3 -> float32.

Record b3Body : Type := mkBody {
  GetType : b3BodyType;
  GetTransform : b3Transform;
  GetShapeList : list b3Shape
}.

Variable GetBody : b3Shape -> b3Body.
Variable GetLocalPoint : b3Body -> b3Vec3 -> b3Vec3.

Record b3World : Type := mkWorld { GetBodyList : list b3Body }.

(** [struct b3ParticleBodyContact]; [p1] is the owning particle's pointer. *)
Record b3ParticleBodyContact : Type := mkBodyContact {
  active : bool;
  p1 : nat;
  s2 : option b3Shape;
  normal1 : b3Vec3;
  localPoint1 : b3Vec3;
  localPoint2 : b3Vec3;
  t1 : b3Vec3;
  t2 : b3Vec3;
  normalImpulse : float32;
  tangentImpulse : b3Vec2
}.

(** [class b3Particle] as cloth.cpp uses it.  [m_vertex] is [None] for the
    C++ value [~0]. *)
Record b3Particle : Type := mkParticle {
  m_type : b3ParticleType;
  m_position : b3Vec3;
  m_velocity : b3Vec3;
  m_force : b3Vec3;
  m_translation : b3Vec3;
  m_mass : float32;
  m_invMass : float32;
  m_radius : float32;
  m_vertex : option nat;
  m_solverId : nat;
  m_x : b3Vec3;
  m_bodyContact : b3ParticleBodyContact
}.

Record b3ParticleDef : Type := mkParticleDef {
  pd_type : b3ParticleType;
  pd_position : b3Vec3
}.

Record b3ClothDef : Type := mkClothDef {
  mesh : option b3ClothMesh;
  density : float32;
  structural : float32;
  bending : float32;
  damping : float32
}.

(** [class b3Cloth].  Particles live in the block allocator
    [m_particleBlocks]; a [b3Particle*] is the index of its block.  The
    intrusive list [m_particleList] is the list of those pointers, head
    first, and [m_vertexParticles] maps a mesh vertex to its particle.
    [m_forceList] is the force list, head first. *)
Record b3Cloth : Type := mkCloth {
  m_mesh : b3ClothMesh;
  m_density : float32;
  m_particleBlocks : list b3Particle;
  m_particleList : list nat;
  m_vertexParticles : list nat;
  m_forceList : list b3SpringForceDef;
  m_gravity : b3Vec3;
  m_world : option b3World
}.

Definition set_blocks (c : b3Cloth) (blocks : list b3Particle) : b3Cloth :=
  mkCloth (m_mesh c) (m_density c) blocks (m_particleList c)
    (m_vertexParticles c) (m_forceList c) (m_gravity c) (m_world c).

(** A loop over the particle list whose body updates the visited particle
    in place. *)
Definition for_each_particle (body : nat -> b3Particle -> b3Particle)
    (c : b3Cloth) : b3Cloth :=
  set_blocks c
    (foldl (fun blocks p => alter (body p) p blocks)
       (m_particleBlocks c) (m_particleList c)).

(** A loop whose body can fail (an assertion, or a read through a pointer
    that is not there). *)
Fixpoint for_each {S A : Type} (body : S -> A -> option S) (s : S)
    (l : list A) : option S :=
  match l with
  | [] => Some s
  | a :: l' => s' ← body s a; for_each body s' l'
  end.

(** Modelled from the spec: the [b3Particle] constructor (particle.cpp) is
    not among the sources.  A particle is created with the type and position of
    its definition; velocity, pending force and translation, mass, cached
    solution are zero and its contact is inactive. *)
Definition b3Particle_new (def : b3ParticleDef) (self : nat) : b3Particle :=
  mkParticle (pd_type def) (pd_position def) b3Vec3_zero b3Vec3_zero
    b3Vec3_zero 0 0 0 None 0 b3Vec3_zero
    (mkBodyContact false self None b3Vec3_zero b3Vec3_zero b3Vec3_zero
       b3Vec3_zero b3Vec3_zero 0 b3Vec2_zero).

(** [b3Cloth::CreateParticle]: allocate a block, construct, [PushFront]. *)
Definition CreateParticle (c : b3Cloth) (def : b3ParticleDef) : b3Cloth * nat :=
  let p := length (m_particleBlocks c) in
  (mkCloth (m_mesh c) (m_density c)
     (m_particleBlocks c ++ [b3Particle_new def p]) (p :: m_particleList c)
     (m_vertexParticles c) (m_forceList c) (m_gravity c) (m_world c), p).

(** [b3Cloth::CreateForce]: create, [PushFront]. *)
Definition CreateForce (c : b3Cloth) (def : b3SpringForceDef) : b3Cloth :=
  mkCloth (m_mesh c) (m_density c) (m_particleBlocks c) (m_particleList c)
    (m_vertexParticles c) (def :: m_forceList c) (m_gravity c) (m_world c).

Definition set_mass (mass invMass : float32) (p : b3Particle) : b3Particle :=
  mkParticle (m_type p) (m_position p) (m_velocity p) (m_force p)
    (m_translation p) mass invMass (m_radius p) (m_vertex p) (m_solverId p)
    (m_x p) (m_bodyContact p).

Definition set_vertex (i : nat) (p : b3Particle) : b3Particle :=
  mkParticle (m_type p) (m_position p) (m_velocity p) (m_force p)
    (m_translation p) (m_mass p) (m_invMass p) (m_radius p) (Some i)
    (m_solverId p) (m_x p) (m_bodyContact p).

(** [p->m_mass += dm] through a particle pointer. *)
Definition add_mass (blocks : list b3Particle) (p : nat) (dm : float32)
    : option (list b3Particle) :=
  q ← blocks !! p;
  Some (<[p := set_mass (m_mass q + dm) (m_invMass q) q]> blocks).

(** The triangle loop body of [ComputeMass].  A vertex index without a
    vertex or without a particle is undefined behaviour in C++; here it is a
    fault, like the failed [B3_ASSERT(area > 0.0f)]. *)
Definition mass_of_triangle (c : b3Cloth) (blocks : list b3Particle)
    (triangle : b3ClothMeshTriangle) : option (list b3Particle) :=
  let inv3 : float32 := 1 / Q2Qc 3%Q in
  let rho := m_density c in
  x1 ← vertices (m_mesh c) !! v1 triangle;
  x2 ← vertices (m_mesh c) !! v2 triangle;
  x3 ← vertices (m_mesh c) !! v3 triangle;
  let area := b3Area x1 x2 x3 in
  if decide (0 < area) then
    let mass := rho * area in
    q1 ← m_vertexParticles c !! v1 triangle;
    q2 ← m_vertexParticles c !! v2 triangle;
    q3 ← m_vertexParticles c !! v3 triangle;
    b1 ← add_mass blocks q1 (inv3 * mass);
    b2 ← add_mass b1 q2 (inv3 * mass);
    add_mass b2 q3 (inv3 * mass)
  else None.

(** The last loop of [ComputeMass]: [B3_ASSERT(p->m_mass > 0.0f)], then
    invert. *)
Definition invert_mass (blocks : list b3Particle) (p : nat)
    : option (list b3Particle) :=
  q ← blocks !! p;
  if decide (0 < m_mass q)
  then Some (<[p := set_mass (m_mass q) (1 / m_mass q) q]> blocks)
  else None.

(** [b3Cloth::ComputeMass]. *)
Definition ComputeMass (c : b3Cloth) : option b3Cloth :=
  let c0 := for_each_particle (fun _ => set_mass 0 0) c in
  b1 ← for_each (mass_of_triangle c0) (m_particleBlocks c0) (triangles (m_mesh c0));
  b2 ← for_each invert_mass b1 (m_particleList c0);
  Some (set_blocks c0 b2).

(** The particle creation loop of the constructor. *)
Definition create_vertex_particle (c : b3Cloth) (iv : nat * b3Vec3) : b3Cloth :=
  let '(i, position) := iv in
  let '(c', p) := CreateParticle c (mkParticleDef e_dynamicParticle position) in
  mkCloth (m_mesh c') (m_density c')
    (alter (set_vertex i) p (m_particleBlocks c')) (m_particleList c')
    (m_vertexParticles c' ++ [p]) (m_forceList c') (m_gravity c') (m_world c').

(** The three force creation loops of the constructor. *)
Definition create_structural (def : b3ClothDef) (c : b3Cloth)
    (e : b3UniqueEdge) : option b3Cloth :=
  q1 ← m_vertexParticles c !! ue_v1 e;
  q2 ← m_vertexParticles c !! ue_v2 e;
  Some (CreateForce c (mkSpringForceDef q1 q2 (structural def) (damping def))).

Definition create_bending (def : b3ClothDef) (c : b3Cloth)
    (e : b3SharedEdge) : option b3Cloth :=
  _ ← m_vertexParticles c !! se_v1 e;
  _ ← m_vertexParticles c !! se_v2 e;
  q3 ← m_vertexParticles c !! nsv1 e;
  q4 ← m_vertexParticles c !! nsv2 e;
  Some (CreateForce c (mkSpringForceDef q3 q4 (bending def) (damping def))).

Definition create_sewing (def : b3ClothDef) (c : b3Cloth)
    (line : b3ClothMeshSewingLine) : option b3Cloth :=
  q1 ← m_vertexParticles c !! s_v1 line;
  q2 ← m_vertexParticles c !! s_v2 line;
  Some (CreateForce c (mkSpringForceDef q1 q2 (structural def) (damping def))).

(** [b3Cloth::b3Cloth(const b3ClothDef& def)].  [None] is a construction
    fault.  The scratch arrays for the edges are lists here. *)
Definition b3Cloth_new (def : b3ClothDef) : option b3Cloth :=
  m ← mesh def;
  if decide (0 < density def) then
    let c0 := mkCloth m (density def) [] [] [] [] b3Vec3_zero None in
    let c1 := foldl create_vertex_particle c0 (imap pair (vertices m)) in
    c2 ← ComputeMass c1;
    let uniqueEdges := b3FindUniqueEdges m in
    let sharedEdges := b3FindSharedEdges m in
    c3 ← for_each (create_structural def) c2 uniqueEdges;
    c4 ← for_each (create_bending def) c3 sharedEdges;
    c5 ← for_each (create_sewing def) c4 (sewingLines m);
    Some (mkCloth (m_mesh c5) (m_density c5) (m_particleBlocks c5)
            (m_particleList c5) (m_vertexParticles c5) (m_forceList c5)
            b3Vec3_zero None)
  else None.

(** ** Body contacts *)

Record best_contact : Type := mkBest {
  bestShape : option b3Shape;
  bestSeparation : float32;
  bestPoint : b3Vec3;
  bestNormal : b3Vec3
}.

Definition test_shape (s1 : b3Sphere) (xf : b3Transform) (best : best_contact)
    (shape : b3Shape) : best_contact :=
  match TestSphere shape s1 xf with
  | Some output =>
    if decide (separation output < bestSeparation best)
    then mkBest (Some shape) (separation output) (point output) (normal output)
    else best
  | None => best
  end.

Definition test_body (p : b3Particle) (s1 : b3Sphere) (best : best_contact)
    (body : b3Body) : best_contact :=
  if decide (m_type p <> e_dynamicParticle) then best
  else if decide (GetType body <> e_staticBody) then best
  else foldl (test_shape s1 (GetTransform body)) best (GetShapeList body).

(** "Find the deepest penetration". *)
Definition find_deepest (w : b3World) (p : b3Particle) : best_contact :=
  foldl (test_body p (mkSphere (m_position p) (m_radius p)))
    (mkBest None 0 b3Vec3_zero b3Vec3_zero) (GetBodyList w).

Definition set_bodyContact (c : b3ParticleBodyContact) (p : b3Particle)
    : b3Particle :=
  mkParticle (m_type p) (m_position p) (m_velocity p) (m_force p)
    (m_translation p) (m_mass p) (m_invMass p) (m_radius p) (m_vertex p)
    (m_solverId p) (m_x p) c.

(** The body of the particle loop of [UpdateBodyContacts]; [self] is the
    pointer [p]. *)
Definition refresh_contact (w : b3World) (self : nat) (p : b3Particle)
    : b3Particle :=
  let best := find_deepest w p in
  let c0 := m_bodyContact p in
  match bestShape best with
  | None =>
    set_bodyContact
      (mkBodyContact false (p1 c0) (s2 c0) (normal1 c0) (localPoint1 c0)
         (localPoint2 c0) (t1 c0) (t2 c0) (normalImpulse c0)
         (tangentImpulse c0)) p
  | Some shape =>
    let body := GetBody shape in
    let normal := vneg (bestNormal best) in
    let t1' := b3Perp normal in
    set_bodyContact
      (mkBodyContact true self (Some shape) normal b3Vec3_zero
         (GetLocalPoint body (bestPoint best)) t1' (b3Cross t1' normal)
         (if active c0 then normalImpulse c0 else 0)
         (if active c0 then tangentImpulse c0 else b3Vec2_zero)) p
  end.

(** [b3Cloth::UpdateBodyContacts] and [UpdateContacts]. *)
Definition UpdateBodyContacts (c : b3Cloth) : b3Cloth :=
  match m_world c with
  | None => c
  | Some w => for_each_particle (refresh_contact w) c
  end.

Definition UpdateContacts (c : b3Cloth) : b3Cloth := UpdateBodyContacts c.

(** ** Step *)

(** What [b3Cloth::Solve] hands to the solver: the particle pointers, the
    forces, and the particles whose [m_bodyContact] is active, each in list
    order. *)
Record b3ClothSolver : Type := mkClothSolver {
  solver_particles : list nat;
  solver_forces : list b3SpringForceDef;
  solver_bodyContacts : list nat
}.

(** The solver this file drives (bounce/cloth/cloth_solver.h) is not among
    the sources: it is an argument.  It reads and writes particles through the
    pointers it was given, so it maps the particle blocks to new blocks. *)
Definition solver_Solve_t : Type :=
  b3ClothSolver -> float32 -> b3Vec3 -> nat -> nat ->
  list b3Particle -> list b3Particle.

Definition is_active (blocks : list b3Particle) (p : nat) : bool :=
  match blocks !! p with
  | Some q => active (m_bodyContact q)
  | None => false
  end.

(** [b3Cloth::Solve]. *)
Definition Solve (solver_Solve : solver_Solve_t) (c : b3Cloth) (dt : float32)
    (gravity : b3Vec3) (velocityIterations positionIterations : nat) : b3Cloth :=
  let solver :=
    mkClothSolver (m_particleList c) (m_forceList c)
      (filter (fun p => is_active (m_particleBlocks c) p = true) (m_particleList c)) in
  set_blocks c
    (solver_Solve solver dt gravity velocityIterations positionIterations
       (m_particleBlocks c)).

Definition clear_inputs (p : b3Particle) : b3Particle :=
  mkParticle (m_type p) (m_position p) (m_velocity p) b3Vec3_zero
    b3Vec3_zero (m_mass p) (m_invMass p) (m_radius p) (m_vertex p)
    (m_solverId p) (m_x p) (m_bodyContact p).

(** [b3Cloth::Step]. *)
Definition Step (solver_Solve : solver_Solve_t) (c : b3Cloth) (dt : float32)
    (velocityIterations positionIterations : nat) : b3Cloth :=
  let c1 := UpdateContacts c in
  let c2 :=
    if decide (0 < dt)
    then Solve solver_Solve c1 dt (m_gravity c1) velocityIterations positionIterations
    else c1 in
  for_each_particle (fun _ => clear_inputs) c2.

(** [b3Cloth::GetEnergy]. *)
Definition GetEnergy (c : b3Cloth) : float32 :=
  (1 / 2) *
  foldl (fun E p =>
           match m_particleBlocks c !! p with
           | Some q => E + m_mass q * b3Dot (m_velocity q) (m_velocity q)
           | None => E
           end) 0 (m_particleList c).

(** ** Unique edges: the scan as a fold over directed edges *)

Definition scan_pair (ues : list b3UniqueEdge) (e : nat * nat) : list b3UniqueEdge :=
  if unique ues e.1 e.2 then ues ++ [mkUniqueEdge e.1 e.2] else ues.

Definition scan_edges (ues : list b3UniqueEdge) (es : list (nat * nat))
    : list b3UniqueEdge :=
  foldl scan_pair ues es.

(** No two stored edges are equal as undirected edges. *)
Definition distinct (ues : list b3UniqueEdge) : Prop :=
  forall i j u w, ues !! i = Some u -> ues !! j = Some w ->
    same_edge u (ue_v1 w) (ue_v2 w) -> i = j.

Lemma scan_triangle_edges (ues : list b3UniqueEdge) (t : b3ClothMeshTriangle) :
  scan_triangle ues t = scan_edges ues (triangle_edges t).
Proof. reflexivity. Qed.

Lemma scan_triangles_from (ts : list b3ClothMeshTriangle) (ues : list b3UniqueEdge) :
  foldl scan_triangle ues ts = scan_edges ues (mesh_edges ts).
Proof.
  revert ues. induction ts as [|t ts IH]; intros ues; [done|].
  cbn [foldl]. rewrite IH, scan_triangle_edges.
  unfold mesh_edges, scan_edges. cbn [map concat]. by rewrite foldl_app.
Qed.

Lemma length_mesh_edges (ts : list b3ClothMeshTriangle) :
  length (mesh_edges ts) = (3 * length ts)%nat.
Proof.
  induction ts as [|t ts IH]; [done|].
  unfold mesh_edges in *. cbn [map concat]. rewrite length_app, IH.
  cbn [triangle_edges length]. lia.
Qed.

Lemma distinct_snoc (ues : list b3UniqueEdge) (a b : nat) :
  distinct ues -> unique ues a b = true -> distinct (ues ++ [mkUniqueEdge a b]).
Proof.
  intros Hd Hu i j u w Hi Hj Hs.
  rewrite unique_true in Hu.
  apply lookup_app_Some in Hi as [Hi|[Hil Hi]];
    apply lookup_app_Some in Hj as [Hj|[Hjl Hj]].
  - by eapply Hd.
  - apply list_lookup_singleton_Some in Hj as [_ <-]. cbn in Hs.
    exfalso. eapply Hu; [|exact Hs]. by eapply list_elem_of_lookup_2.
  - apply list_lookup_singleton_Some in Hi as [_ <-].
    exfalso. eapply (Hu w); [by eapply list_elem_of_lookup_2|].
    destruct Hs as [[? ?]|[? ?]]; cbn in *; [left|right]; done.
  - apply list_lookup_singleton_Some in Hi as [Hi _].
    apply list_lookup_singleton_Some in Hj as [Hj _]. lia.
Qed.

Lemma scan_edges_spec (es : list (nat * nat)) (ues : list b3UniqueEdge) :
  exists new : list b3UniqueEdge, scan_edges ues es = ues ++ new /\
    (map edge_pair new) `sublist_of` es /\
    (distinct ues -> distinct (ues ++ new)) /\
    (forall a b, (a, b) ∈ es -> exists u, u ∈ ues ++ new /\ same_edge u a b).
Proof.
  revert ues. induction es as [|[a b] es IH]; intros ues.
  - exists []. rewrite app_nil_r. repeat split; try done.
    intros a b Hin. inversion Hin.
  - unfold scan_edges. cbn [foldl]. unfold scan_pair at 2. cbn [fst snd].
    destruct (unique ues a b) eqn:Hu.
    + destruct (IH (ues ++ [mkUniqueEdge a b])) as (new & Heq & Hsub & Hd & Hc).
      exists (mkUniqueEdge a b :: new).
      fold (scan_edges (ues ++ [mkUniqueEdge a b]) es).
      rewrite Heq, <- app_assoc. cbn [app]. repeat split.
      * cbn [map]. by apply sublist_skip.
      * intros Hdu. rewrite cons_middle, app_assoc.
        apply Hd. by apply distinct_snoc.
      * intros a' b' Hin. rewrite cons_middle, app_assoc.
        apply elem_of_cons in Hin as [Heq'|Hin]; [|by apply Hc].
        injection Heq' as -> ->. exists (mkUniqueEdge a b). split.
        -- apply elem_of_app. left. apply elem_of_app. right. by left.
        -- by left.
    + destruct (IH ues) as (new & Heq & Hsub & Hd & Hc).
      exists new. fold (scan_edges ues es). rewrite Heq. repeat split; try done.
      * by apply sublist_cons.
      * intros a' b' Hin.
        apply elem_of_cons in Hin as [Heq'|Hin]; [|by apply Hc].
        injection Heq' as -> ->.
        apply unique_false in Hu as (u & Hin & Hs).
        exists u. split; [|done]. apply elem_of_app. by left.
Qed.

(** ** The constructor's force loops *)

Lemma for_each_app {S A : Type} (body : S -> A -> option S) (s : S)
    (l1 l2 : list A) :
  for_each body s (l1 ++ l2) = s' ← for_each body s l1; for_each body s' l2.
Proof.
  revert s. induction l1 as [|a l1 IH]; intros s; [done|].
  cbn [app for_each]. destruct (body s a) as [s'|]; cbn; [apply IH|done].
Qed.

(** Everything of a cloth but its force list. *)
Definition same_particles (c c' : b3Cloth) : Prop :=
  m_mesh c' = m_mesh c /\ m_density c' = m_density c /\
  m_particleBlocks c' = m_particleBlocks c /\
  m_particleList c' = m_particleList c /\
  m_vertexParticles c' = m_vertexParticles c.

Lemma for_each_CreateForce {A : Type} (body : b3Cloth -> A -> option b3Cloth)
    (R : list nat -> A -> b3SpringForceDef -> Prop) :
  (forall c a c', body c a = Some c' ->
     exists fd, c' = CreateForce c fd /\ R (m_vertexParticles c) a fd) ->
  forall l c c', for_each body c l = Some c' ->
    same_particles c c' /\
    exists fds, m_forceList c' = reverse fds ++ m_forceList c /\
      Forall2 (R (m_vertexParticles c)) l fds.
Proof.
  intros Hbody l. induction l as [|a l IH]; intros c c' Hrun.
  - injection Hrun as <-. split; [done|]. exists []. by split.
  - cbn [for_each] in Hrun. destruct (body c a) as [c1|] eqn:Hb; [|done].
    cbn in Hrun. apply Hbody in Hb as (fd & -> & HR).
    apply IH in Hrun as (Hsame & fds & Hf & HF).
    split; [exact Hsame|].
    exists (fd :: fds). split.
    + rewrite Hf, reverse_cons. cbn [m_forceList CreateForce]. by rewrite <- app_assoc.
    + by constructor.
Qed.

(** The structural spring made for a unique edge, given the vertex to
    particle table. *)
Definition structural_spring (def : b3ClothDef) (vertexParticles : list nat)
    (e : b3UniqueEdge) (fd : b3SpringForceDef) : Prop :=
  vertexParticles !! ue_v1 e = Some (fd_p1 fd) /\
  vertexParticles !! ue_v2 e = Some (fd_p2 fd) /\
  fd_structural fd = structural def /\ fd_damping fd = damping def.

Definition bending_spring (vertexParticles : list nat)
    (e : b3SharedEdge) (fd : b3SpringForceDef) : Prop :=
  vertexParticles !! nsv1 e = Some (fd_p1 fd) /\
  vertexParticles !! nsv2 e = Some (fd_p2 fd).

Definition sewing_spring (vertexParticles : list nat)
    (line : b3ClothMeshSewingLine) (fd : b3SpringForceDef) : Prop :=
  vertexParticles !! s_v1 line = Some (fd_p1 fd) /\
  vertexParticles !! s_v2 line = Some (fd_p2 fd).

Lemma create_structural_spec (def : b3ClothDef) (c : b3Cloth)
    (e : b3UniqueEdge) (c' : b3Cloth) :
  create_structural def c e = Some c' ->
  exists fd, c' = CreateForce c fd /\
    structural_spring def (m_vertexParticles c) e fd.
Proof.
  unfold create_structural. intros H.
  destruct (m_vertexParticles c !! ue_v1 e) as [q1|] eqn:E1; [|done].
  destruct (m_vertexParticles c !! ue_v2 e) as [q2|] eqn:E2; [|done].
  cbn in H. injection H as <-. eexists. split; [reflexivity|]. by repeat split.
Qed.

Lemma create_bending_spec (def : b3ClothDef) (c : b3Cloth)
    (e : b3SharedEdge) (c' : b3Cloth) :
  create_bending def c e = Some c' ->
  exists fd, c' = CreateForce c fd /\ bending_spring (m_vertexParticles c) e fd.
Proof.
  unfold create_bending. intros H.
  destruct (m_vertexParticles c !! se_v1 e) as [q1|] eqn:E1; [|done].
  destruct (m_vertexParticles c !! se_v2 e) as [q2|] eqn:E2; [|done].
  destruct (m_vertexParticles c !! nsv1 e) as [q3|] eqn:E3; [|done].
  destruct (m_vertexParticles c !! nsv2 e) as [q4|] eqn:E4; [|done].
  cbn in H. injection H as <-. eexists. split; [reflexivity|]. by split.
Qed.

Lemma create_sewing_spec (def : b3ClothDef) (c : b3Cloth)
    (line : b3ClothMeshSewingLine) (c' : b3Cloth) :
  create_sewing def c line = Some c' ->
  exists fd, c' = CreateForce c fd /\ sewing_spring (m_vertexParticles c) line fd.
Proof.
  unfold create_sewing. intros H.
  destruct (m_vertexParticles c !! s_v1 line) as [q1|] eqn:E1; [|done].
  destruct (m_vertexParticles c !! s_v2 line) as [q2|] eqn:E2; [|done].
  cbn in H. injection H as <-. eexists. split; [reflexivity|]. by split.
Qed.

(** ** Loops over the particle list *)

Lemma foldl_alter_lookup (body : nat -> b3Particle -> b3Particle)
    (l : list nat) (blocks : list b3Particle) (p : nat) :
  NoDup l ->
  foldl (fun b i => alter (body i) i b) blocks l !! p =
  if decide (p ∈ l) then body p <$> blocks !! p else blocks !! p.
Proof.
  revert blocks. induction l as [|i l IH]; intros blocks Hnd.
  - cbn [foldl]. rewrite decide_False; [done|]. intros H. inversion H.
  - apply NoDup_cons in Hnd as [Hi Hnd]. cbn [foldl]. rewrite IH by done.
    destruct (decide (p = i)) as [->|Hne].
    + rewrite (decide_False (P := i ∈ l)) by done.
      rewrite (decide_True (P := i ∈ i :: l)) by (by left).
      by rewrite list_lookup_alter_eq.
    + rewrite list_lookup_alter_ne by done.
      destruct (decide (p ∈ l)) as [Hin|Hin].
      * rewrite decide_True; [done|by right].
      * rewrite decide_False; [done|].
        intros [?|?]%elem_of_cons; done.
Qed.

Lemma for_each_particle_lookup (body : nat -> b3Particle -> b3Particle)
    (c : b3Cloth) (p : nat) :
  NoDup (m_particleList c) ->
  m_particleBlocks (for_each_particle body c) !! p =
  if decide (p ∈ m_particleList c) then body p <$> m_particleBlocks c !! p
  else m_particleBlocks c !! p.
Proof. intros Hnd. unfold for_each_particle. cbn. by apply foldl_alter_lookup. Qed.

(** ** Mass *)

Definition Qc_sum (l : list Qc) : Qc := foldr Qcplus 0 l.

Definition mass_at (blocks : list b3Particle) (p : nat) : float32 :=
  match blocks !! p with
  | Some q => m_mass q
  | None => 0
  end.

(** "Total cloth mass": the sum of [m_mass] over the particle list. *)
Definition total_mass (c : b3Cloth) : float32 :=
  Qc_sum (map (mass_at (m_particleBlocks c)) (m_particleList c)).

Definition triangle_area (m : b3ClothMesh) (t : b3ClothMeshTriangle)
    : option float32 :=
  x1 ← vertices m !! v1 t;
  x2 ← vertices m !! v2 t;
  x3 ← vertices m !! v3 t;
  Some (b3Area x1 x2 x3).

Definition area_or_zero (m : b3ClothMesh) (t : b3ClothMeshTriangle) : float32 :=
  default 0 (triangle_area m t).

(** "Total surface area of the mesh". *)
Definition surface_area (m : b3ClothMesh) : float32 :=
  Qc_sum (map (area_or_zero m) (triangles m)).

(** A third of a triangle's mass for each corner of the triangle that is
    vertex [v]. *)
Definition corner_share (rho : float32) (m : b3ClothMesh) (v : nat)
    (t : b3ClothMeshTriangle) : float32 :=
  let third := 1 / Q2Qc 3%Q * (rho * area_or_zero m t) in
  (if decide (v1 t = v) then third else 0) +
  (if decide (v2 t = v) then third else 0) +
  (if decide (v3 t = v) then third else 0).

Definition vertex_mass (rho : float32) (m : b3ClothMesh) (v : nat) : float32 :=
  Qc_sum (map (corner_share rho m v) (triangles m)).

Lemma three_thirds (a : Qc) :
  1 / Q2Qc 3%Q * a + 1 / Q2Qc 3%Q * a + 1 / Q2Qc 3%Q * a = a.
Proof.
  assert (H3 : Q2Qc 3%Q = 1 + 1 + 1) by (by apply Qc_is_canon).
  rewrite H3. field. intros H. discriminate H.
Qed.

Lemma Qc_sum_map_plus {A : Type} (f g : A -> Qc) (l : list A) :
  Qc_sum (map (fun a => f a + g a) l) = Qc_sum (map f l) + Qc_sum (map g l).
Proof.
  induction l as [|a l IH]; cbn [map Qc_sum foldr].
  - ring.
  - fold (Qc_sum (map (fun a => f a + g a) l)). fold (Qc_sum (map f l)).
    fold (Qc_sum (map g l)). rewrite IH. ring.
Qed.

Lemma Qc_sum_map_ext {A : Type} (f g : A -> Qc) (l : list A) :
  (forall a, a ∈ l -> f a = g a) -> Qc_sum (map f l) = Qc_sum (map g l).
Proof.
  induction l as [|a l IH]; intros H; [done|].
  cbn [map Qc_sum foldr]. fold (Qc_sum (map f l)). fold (Qc_sum (map g l)).
  rewrite IH, (H a); [done|by left|]. intros b Hb. apply H. by right.
Qed.

Lemma Qc_sum_map_zero {A : Type} (l : list A) :
  Qc_sum (map (fun _ => 0) l) = 0.
Proof.
  induction l as [|a l IH]; [done|].
  cbn [map Qc_sum foldr]. fold (Qc_sum (map (fun _ : A => 0) l)).
  rewrite IH. ring.
Qed.

Lemma Qc_sum_indicator (l : list nat) (x : nat) (d : Qc) :
  NoDup l -> x ∈ l ->
  Qc_sum (map (fun p => if decide (x = p) then d else 0) l) = d.
Proof.
  induction l as [|i l IH]; intros Hnd Hin; [inversion Hin|].
  apply NoDup_cons in Hnd as [Hi Hnd].
  cbn [map Qc_sum foldr].
  fold (Qc_sum (map (fun p => if decide (x = p) then d else 0) l)).
  destruct (decide (x = i)) as [->|Hne].
  - rewrite (Qc_sum_map_ext _ (fun _ => 0)).
    + rewrite Qc_sum_map_zero. ring.
    + intros a Ha. rewrite decide_False; [done|]. by intros <-.
  - rewrite IH; [ring|done|]. apply elem_of_cons in Hin as [?|?]; done.
Qed.

Lemma Qc_sum_pos (l : list Qc) :
  (forall a, a ∈ l -> 0 < a) -> l <> [] -> 0 < Qc_sum l.
Proof.
  induction l as [|a l IH]; intros Hpos Hne; [done|].
  cbn [Qc_sum foldr]. fold (Qc_sum l).
  destruct l as [|b l].
  - cbn. rewrite Qcplus_0_r. apply Hpos. by left.
  - apply Qclt_trans with (0 + Qc_sum (b :: l)).
    + rewrite Qcplus_0_l. apply IH; [|done]. intros x Hx. apply Hpos. by right.
    + apply Qcplus_lt_mono_r. apply Hpos. by left.
Qed.

Lemma add_mass_at (blocks blocks' : list b3Particle) (q : nat) (dm : float32) :
  add_mass blocks q dm = Some blocks' ->
  (q < length blocks)%nat /\ length blocks' = length blocks /\
  forall p, mass_at blocks' p = mass_at blocks p + (if decide (q = p) then dm else 0).
Proof.
  unfold add_mass. intros H.
  destruct (blocks !! q) as [r|] eqn:Hq; [|done]. cbn in H. injection H as <-.
  split; [by eapply lookup_lt_Some|]. split; [by rewrite length_insert|].
  intros p. unfold mass_at. destruct (decide (q = p)) as [<-|Hne].
  - rewrite list_lookup_insert_eq by (by eapply lookup_lt_Some).
    by rewrite Hq.
  - rewrite list_lookup_insert_ne by done. destruct (blocks !! p); ring.
Qed.

(** The particle list visits every particle once, and the vertex table
    names distinct particles of the list. *)
Definition wf_particles (c : b3Cloth) : Prop :=
  NoDup (m_particleList c) /\ NoDup (m_vertexParticles c) /\
  forall v q, m_vertexParticles c !! v = Some q -> q ∈ m_particleList c.

Definition indicator (q p : nat) (d : Qc) : Qc := if decide (q = p) then d else 0.

Lemma mass_of_triangle_at (c : b3Cloth) (blocks blocks' : list b3Particle)
    (t : b3ClothMeshTriangle) :
  mass_of_triangle c blocks t = Some blocks' ->
  exists area q1 q2 q3,
    triangle_area (m_mesh c) t = Some area /\ 0 < area /\
    m_vertexParticles c !! v1 t = Some q1 /\
    m_vertexParticles c !! v2 t = Some q2 /\
    m_vertexParticles c !! v3 t = Some q3 /\
    length blocks' = length blocks /\
    forall p, mass_at blocks' p =
      mass_at blocks p +
      (indicator q1 p (1 / Q2Qc 3%Q * (m_density c * area)) +
       indicator q2 p (1 / Q2Qc 3%Q * (m_density c * area)) +
       indicator q3 p (1 / Q2Qc 3%Q * (m_density c * area))).
Proof.
  unfold mass_of_triangle, triangle_area. intros H.
  destruct (vertices (m_mesh c) !! v1 t) as [x1|]; [|done].
  destruct (vertices (m_mesh c) !! v2 t) as [x2|]; [|done].
  destruct (vertices (m_mesh c) !! v3 t) as [x3|]; [|done].
  cbn in H |- *. destruct (decide (0 < b3Area x1 x2 x3)) as [Hpos|]; [|done].
  destruct (m_vertexParticles c !! v1 t) as [q1|]; [|done].
  destruct (m_vertexParticles c !! v2 t) as [q2|]; [|done].
  destruct (m_vertexParticles c !! v3 t) as [q3|]; [|done].
  cbn in H.
  destruct (add_mass blocks q1 _) as [b1|] eqn:H1; [|done]. cbn in H.
  destruct (add_mass b1 q2 _) as [b2|] eqn:H2; [|done]. cbn in H.
  apply add_mass_at in H1 as (_ & Hl1 & Hm1).
  apply add_mass_at in H2 as (_ & Hl2 & Hm2).
  apply add_mass_at in H as (_ & Hl3 & Hm3).
  exists (b3Area x1 x2 x3), q1, q2, q3. repeat split; try done.
  - congruence.
  - intros p. rewrite Hm3, Hm2, Hm1. unfold indicator. ring.
Qed.

Lemma indicator_corner (c : b3Cloth) (v q corner qc : nat) (d : Qc) :
  NoDup (m_vertexParticles c) ->
  m_vertexParticles c !! v = Some q ->
  m_vertexParticles c !! corner = Some qc ->
  indicator qc q d = if decide (corner = v) then d else 0.
Proof.
  intros Hnd Hv Hc. unfold indicator.
  destruct (decide (qc = q)) as [->|Hne]; destruct (decide (corner = v)) as [->|Hne'];
    try done.
  - exfalso. apply Hne'. by eapply NoDup_lookup.
  - congruence.
Qed.

Lemma mass_loop (c : b3Cloth) (ts : list b3ClothMeshTriangle)
    (blocks blocks' : list b3Particle) :
  wf_particles c ->
  for_each (mass_of_triangle c) blocks ts = Some blocks' ->
  (forall t, t ∈ ts -> exists area, triangle_area (m_mesh c) t = Some area /\ 0 < area) /\
  length blocks' = length blocks /\
  (forall v q, m_vertexParticles c !! v = Some q ->
     mass_at blocks' q =
     mass_at blocks q + Qc_sum (map (corner_share (m_density c) (m_mesh c) v) ts)) /\
  Qc_sum (map (mass_at blocks') (m_particleList c)) =
  Qc_sum (map (mass_at blocks) (m_particleList c)) +
  m_density c * Qc_sum (map (area_or_zero (m_mesh c)) ts).
Proof.
  intros (HndL & HndV & Hin). revert blocks.
  induction ts as [|t ts IH]; intros blocks Hrun.
  - injection Hrun as <-. repeat split; try done.
    + intros t Ht. inversion Ht.
    + intros v q _. cbn. ring.
    + cbn. ring.
  - cbn [for_each] in Hrun.
    destruct (mass_of_triangle c blocks t) as [b1|] eqn:Ht; [|done]. cbn in Hrun.
    apply mass_of_triangle_at in Ht
      as (area & q1 & q2 & q3 & Ha & Hpos & Hq1 & Hq2 & Hq3 & Hlen & Hm).
    apply IH in Hrun as (Hall & Hlen' & Hv & Htot).
    assert (Haz : area_or_zero (m_mesh c) t = area)
      by (unfold area_or_zero; by rewrite Ha).
    repeat split.
    + intros t' [->|Ht']%elem_of_cons; [by exists area|by apply Hall].
    + congruence.
    + intros v q Hvq. rewrite (Hv v q Hvq), Hm.
      cbn [map Qc_sum foldr].
      fold (Qc_sum (map (corner_share (m_density c) (m_mesh c) v) ts)).
      unfold corner_share at 2. cbn zeta. rewrite Haz.
      rewrite (indicator_corner c v q (v1 t) q1) by done.
      rewrite (indicator_corner c v q (v2 t) q2) by done.
      rewrite (indicator_corner c v q (v3 t) q3) by done.
      ring.
    + rewrite Htot. cbn [map Qc_sum foldr].
      fold (Qc_sum (map (area_or_zero (m_mesh c)) ts)). rewrite Haz.
      rewrite (Qc_sum_map_ext (mass_at b1) _ _ (fun p _ => Hm p)).
      rewrite Qc_sum_map_plus, Qc_sum_map_plus, Qc_sum_map_plus.
      unfold indicator.
      rewrite !Qc_sum_indicator by eauto.
      pose proof (three_thirds (m_density c * area)) as H3.
      set (d := 1 / Q2Qc 3%Q * (m_density c * area)) in *.
      transitivity (Qc_sum (map (mass_at blocks) (m_particleList c)) + (d + d + d)
                    + m_density c * Qc_sum (map (area_or_zero (m_mesh c)) ts));
        [ring|rewrite H3; ring].
Qed.

Lemma invert_mass_Some (blocks blocks' : list b3Particle) (i : nat) :
  invert_mass blocks i = Some blocks' ->
  exists q, blocks !! i = Some q /\ 0 < m_mass q /\
    blocks' = <[i := set_mass (m_mass q) (1 / m_mass q) q]> blocks.
Proof.
  unfold invert_mass. intros H.
  destruct (blocks !! i) as [q|]; cbn in H; [|done].
  destruct (decide (0 < m_mass q)); [|done].
  injection H as <-. by exists q.
Qed.

Lemma invert_loop (l : list nat) (blocks blocks' : list b3Particle) :
  for_each invert_mass blocks l = Some blocks' ->
  (forall p, mass_at blocks' p = mass_at blocks p) /\
  (forall p, p ∉ l -> blocks' !! p = blocks !! p) /\
  (forall p, p ∈ l -> exists q, blocks' !! p = Some q /\ 0 < m_mass q /\
     m_invMass q = 1 / m_mass q).
Proof.
  revert blocks. induction l as [|i l IH]; intros blocks Hrun.
  - injection Hrun as <-. repeat split; try done. intros p Hp. inversion Hp.
  - cbn [for_each] in Hrun.
    destruct (invert_mass blocks i) as [b1|] eqn:Hinv; cbn in Hrun; [|done].
    apply invert_mass_Some in Hinv as (q & Hq & Hpos & ->).
    assert (Hi : (i < length blocks)%nat) by (by eapply lookup_lt_Some).
    apply IH in Hrun as (Hm & Hkeep & Hall). repeat split.
    + intros p. rewrite Hm. unfold mass_at.
      destruct (decide (i = p)) as [<-|Hne].
      * rewrite list_lookup_insert_eq by done. by rewrite Hq.
      * by rewrite list_lookup_insert_ne.
    + intros p [Hne Hp]%not_elem_of_cons.
      rewrite Hkeep by done. by rewrite list_lookup_insert_ne.
    + intros p [->|Hp]%elem_of_cons; [|by apply Hall].
      destruct (decide (i ∈ l)) as [Hil|Hil]; [by apply Hall|].
      exists (set_mass (m_mass q) (1 / m_mass q) q).
      rewrite Hkeep by done. rewrite list_lookup_insert_eq by done. done.
Qed.

Lemma ComputeMass_spec (c c' : b3Cloth) :
  wf_particles c ->
  ComputeMass c = Some c' ->
  m_mesh c' = m_mesh c /\ m_density c' = m_density c /\
  m_particleList c' = m_particleList c /\
  m_vertexParticles c' = m_vertexParticles c /\
  m_forceList c' = m_forceList c /\
  (forall t, t ∈ triangles (m_mesh c) ->
     exists area, triangle_area (m_mesh c) t = Some area /\ 0 < area) /\
  (forall v q, m_vertexParticles c !! v = Some q ->
     mass_at (m_particleBlocks c') q = vertex_mass (m_density c) (m_mesh c) v) /\
  total_mass c' = m_density c * surface_area (m_mesh c) /\
  (forall p, p ∈ m_particleList c ->
     exists q, m_particleBlocks c' !! p = Some q /\ 0 < m_mass q /\
       m_invMass q = 1 / m_mass q).
Proof.
  intros Hwf. unfold ComputeMass.
  set (c0 := for_each_particle (fun _ => set_mass 0 0) c).
  intros H.
  destruct (for_each (mass_of_triangle c0) _ _) as [b1|] eqn:H1; cbn in H; [|done].
  destruct (for_each invert_mass b1 _) as [b2|] eqn:H2; cbn in H; [|done].
  injection H as <-.
  assert (Hwf0 : wf_particles c0) by exact Hwf.
  assert (Hzero : forall p, p ∈ m_particleList c ->
            mass_at (m_particleBlocks c0) p = 0).
  { intros p Hp. unfold mass_at, c0.
    rewrite for_each_particle_lookup by apply Hwf.
    rewrite decide_True by done.
    by destruct (m_particleBlocks c !! p). }
  apply (mass_loop c0 _ _ _ Hwf0) in H1 as (Hall & _ & Hv & Htot).
  apply invert_loop in H2 as (Hm & _ & Hpos).
  unfold total_mass. subst c0.
  cbn [m_mesh m_density m_particleList m_vertexParticles m_forceList
       m_particleBlocks set_blocks for_each_particle] in *.
  repeat split; try done.
  - intros v q Hvq. rewrite Hm, (Hv v q Hvq), Hzero.
    + unfold vertex_mass. ring.
    + destruct Hwf as (_ & _ & Hin). by eapply Hin.
  - rewrite (Qc_sum_map_ext _ _ _ (fun p _ => Hm p)), Htot.
    rewrite (Qc_sum_map_ext _ (fun _ => 0)) by exact Hzero.
    rewrite Qc_sum_map_zero. unfold surface_area. ring.
Qed.

(** The particle creation loop. *)
Lemma create_particles_spec (ivs : list (nat * b3Vec3)) (c : b3Cloth) :
  let c' := foldl create_vertex_particle c ivs in
  let k := length (m_particleBlocks c) in
  m_mesh c' = m_mesh c /\ m_density c' = m_density c /\
  m_forceList c' = m_forceList c /\
  length (m_particleBlocks c') = (k + length ivs)%nat /\
  m_particleList c' = reverse (seq k (length ivs)) ++ m_particleList c /\
  m_vertexParticles c' = m_vertexParticles c ++ seq k (length ivs).
Proof.
  revert c. induction ivs as [|[i x] ivs IH]; intros c; cbn zeta.
  - cbn. rewrite app_nil_r. repeat split; try done; lia.
  - cbn [foldl].
    destruct (IH (create_vertex_particle c (i, x))) as (Hm & Hd & Hf & Hl & Hp & Hv).
    cbn in Hm, Hd, Hf.
    assert (Hk : length (m_particleBlocks (create_vertex_particle c (i, x)))
                 = S (length (m_particleBlocks c))).
    { cbn. rewrite length_alter, length_app. cbn. lia. }
    rewrite Hk in Hl, Hp, Hv. repeat split; try done.
    + rewrite Hl. cbn [length]. lia.
    + rewrite Hp. cbn [length seq m_particleList create_vertex_particle
        CreateParticle]. by rewrite reverse_cons, <- app_assoc.
    + rewrite Hv. cbn [length seq m_vertexParticles create_vertex_particle
        CreateParticle]. by rewrite <- app_assoc.
Qed.

(** ** Properties of the constructor *)

(** C6. A cloth that [b3Cloth_new] returns has a mesh, a positive density
    and only triangles of positive area; particle [v] is the particle of
    vertex [v]; its mass is the sum, over the triangles, of a third of
    [density * area] for each corner of the triangle that is [v]; the sum of
    the particle masses is [density] times the summed triangle areas; every
    particle's mass is positive and [m_invMass] is its inverse.  Conversely
    a triangle whose area is zero or negative makes the constructor fail. *)
Theorem b3Cloth_new_mass (def : b3ClothDef) :
  (forall c, b3Cloth_new def = Some c ->
     mesh def = Some (m_mesh c) /\ 0 < density def /\
     (forall t, t ∈ triangles (m_mesh c) ->
        exists area, triangle_area (m_mesh c) t = Some area /\ 0 < area) /\
     m_vertexParticles c = seq 0 (vertexCount (m_mesh c)) /\
     m_particleList c = reverse (seq 0 (vertexCount (m_mesh c))) /\
     (forall v, (v < vertexCount (m_mesh c))%nat ->
        mass_at (m_particleBlocks c) v = vertex_mass (density def) (m_mesh c) v) /\
     total_mass c = density def * surface_area (m_mesh c) /\
     (forall p, p ∈ m_particleList c ->
        exists q, m_particleBlocks c !! p = Some q /\ 0 < m_mass q /\
          m_invMass q = 1 / m_mass q)) /\
  (forall m t area, mesh def = Some m -> t ∈ triangles m ->
     triangle_area m t = Some area -> area <= 0 -> b3Cloth_new def = None).
Proof.
  assert (Hmain : forall c, b3Cloth_new def = Some c ->
     mesh def = Some (m_mesh c) /\ 0 < density def /\
     (forall t, t ∈ triangles (m_mesh c) ->
        exists area, triangle_area (m_mesh c) t = Some area /\ 0 < area) /\
     m_vertexParticles c = seq 0 (vertexCount (m_mesh c)) /\
     m_particleList c = reverse (seq 0 (vertexCount (m_mesh c))) /\
     (forall v, (v < vertexCount (m_mesh c))%nat ->
        mass_at (m_particleBlocks c) v = vertex_mass (density def) (m_mesh c) v) /\
     total_mass c = density def * surface_area (m_mesh c) /\
     (forall p, p ∈ m_particleList c ->
        exists q, m_particleBlocks c !! p = Some q /\ 0 < m_mass q /\
          m_invMass q = 1 / m_mass q)).
  { intros c. unfold b3Cloth_new.
    destruct (mesh def) as [m|]; cbn; [|done].
    destruct (decide (0 < density def)) as [Hrho|]; [|done].
    set (c0 := mkCloth m (density def) [] [] [] [] b3Vec3_zero None).
    destruct (create_particles_spec (imap pair (vertices m)) c0)
      as (Hm1 & Hd1 & Hf1 & Hl1 & Hp1 & Hv1).
    set (c1 := foldl create_vertex_particle c0 (imap pair (vertices m))) in *.
    cbn in Hm1, Hd1, Hf1, Hl1, Hp1, Hv1.
    rewrite length_imap in Hl1, Hp1, Hv1. rewrite app_nil_r in Hp1.
    assert (Hwf : wf_particles c1).
    { unfold wf_particles. rewrite Hp1, Hv1. repeat split.
      - rewrite reverse_Permutation. apply NoDup_seq.
      - apply NoDup_seq.
      - intros v q Hq. apply elem_of_reverse. by eapply list_elem_of_lookup_2. }
    destruct (ComputeMass c1) as [c2|] eqn:H2; cbn; [|done].
    apply (ComputeMass_spec _ _ Hwf) in H2
      as (Hm2 & Hd2 & Hp2 & Hv2 & Hf2 & Hall & Hvm & Htot & Hpos).
    destruct (for_each (create_structural def) c2 _) as [c3|] eqn:H3; cbn; [|done].
    destruct (for_each (create_bending def) c3 _) as [c4|] eqn:H4; cbn; [|done].
    destruct (for_each (create_sewing def) c4 _) as [c5|] eqn:H5; cbn; [|done].
    intros [= <-]. cbn.
    apply (for_each_CreateForce _ _ (create_structural_spec def)) in H3
      as ((Hm3 & Hd3 & Hb3 & Hp3 & Hv3) & _).
    apply (for_each_CreateForce _ _ (create_bending_spec def)) in H4
      as ((Hm4 & Hd4 & Hb4 & Hp4 & Hv4) & _).
    apply (for_each_CreateForce _ _ (create_sewing_spec def)) in H5
      as ((Hm5 & Hd5 & Hb5 & Hp5 & Hv5) & _).
    assert (Em : m_mesh c5 = m) by congruence.
    assert (Eb : m_particleBlocks c5 = m_particleBlocks c2) by congruence.
    assert (Ep : m_particleList c5 = m_particleList c1) by congruence.
    assert (Ev : m_vertexParticles c5 = m_vertexParticles c1) by congruence.
    unfold total_mass in *. cbn. rewrite Em, Eb, Ep, Ev.
    rewrite Hm1, Hd1 in *. rewrite Hp2 in Htot.
    repeat split; try done.
    intros v Hv. apply Hvm. rewrite Hv1. apply lookup_seq. unfold vertexCount in Hv. lia. }
  split; [exact Hmain|].
  intros m t area Hmesh Ht Harea Hle.
  destruct (b3Cloth_new def) as [c|] eqn:Hnew; [|done].
  exfalso. destruct (Hmain c eq_refl) as (Hm & _ & Hall & _).
  assert (Em : m_mesh c = m) by congruence. rewrite Em in Hall.
  destruct (Hall t Ht) as (a & Ha & Hpos).
  assert (a = area) as -> by congruence.
  by apply (Qcle_not_lt _ _ Hle).
Qed.

(** C7. The edge test ignores direction; the edges [b3FindUniqueEdges]
    returns cover every triangle edge, no two of them are equal as
    undirected edges, they are triangle edges listed in scan order, the
    result for a prefix of the triangle list is a prefix of the result (an
    edge is stored when it is first met), there are at most [3 * T] of them,
    and the constructor pushes one structural spring per returned edge, in
    order, before any other force. *)
Theorem b3FindUniqueEdges_once (m : b3ClothMesh) :
  (forall l a b, unique l a b = unique l b a) /\
  (forall l a b, unique l a b = false <-> exists ue, ue ∈ l /\ same_edge ue a b) /\
  (forall a b, (a, b) ∈ mesh_edges (triangles m) ->
     exists ue, ue ∈ b3FindUniqueEdges m /\ same_edge ue a b) /\
  distinct (b3FindUniqueEdges m) /\
  (map edge_pair (b3FindUniqueEdges m)) `sublist_of` (mesh_edges (triangles m)) /\
  (forall ts1 ts2, triangles m = ts1 ++ ts2 ->
     exists new : list b3UniqueEdge,
       b3FindUniqueEdges m = scan_triangles ts1 ++ new /\
       (map edge_pair new) `sublist_of` (mesh_edges ts2)) /\
  (length (b3FindUniqueEdges m) <= 3 * triangleCount m)%nat /\
  (forall def c, mesh def = Some m -> b3Cloth_new def = Some c ->
     exists fds others : list b3SpringForceDef,
       m_forceList c = others ++ reverse fds /\
       length fds = length (b3FindUniqueEdges m) /\
       Forall2 (structural_spring def (seq 0 (vertexCount m)))
         (b3FindUniqueEdges m) fds).
Proof.
  unfold b3FindUniqueEdges, scan_triangles.
  destruct (scan_edges_spec (mesh_edges (triangles m)) [])
    as (new & Heq & Hsub & Hd & Hc).
  rewrite scan_triangles_from. cbn [app] in *. rewrite Heq.
  split; [exact unique_sym|]. split; [exact unique_false|].
  split; [exact Hc|]. split.
  { apply Hd. intros i j u w Hi. by rewrite lookup_nil in Hi. }
  split; [exact Hsub|]. split.
  { intros ts1 ts2 Hts. rewrite <- Heq, Hts, <- scan_triangles_from, foldl_app.
    rewrite scan_triangles_from.
    destruct (scan_edges_spec (mesh_edges ts2) (foldl scan_triangle [] ts1))
      as (new' & Heq' & Hsub' & _). exists new'. by split. }
  split.
  { apply sublist_length in Hsub.
    rewrite length_map, length_mesh_edges in Hsub. exact Hsub. }
  intros def c Hmesh. unfold b3Cloth_new. rewrite Hmesh. cbn.
  destruct (decide (0 < density def)) as [Hrho|]; [|done].
  set (c0 := mkCloth m (density def) [] [] [] [] b3Vec3_zero None).
  destruct (create_particles_spec (imap pair (vertices m)) c0)
    as (_ & _ & Hf1 & _ & Hp1 & Hv1).
  set (c1 := foldl create_vertex_particle c0 (imap pair (vertices m))) in *.
  cbn in Hf1, Hp1, Hv1. rewrite length_imap in Hp1, Hv1. rewrite app_nil_r in Hp1.
  assert (Hwf : wf_particles c1).
  { unfold wf_particles. rewrite Hp1, Hv1. repeat split.
    - rewrite reverse_Permutation. apply NoDup_seq.
    - apply NoDup_seq.
    - intros v q Hq. apply elem_of_reverse. by eapply list_elem_of_lookup_2. }
  destruct (ComputeMass c1) as [c2|] eqn:H2; cbn; [|done].
  apply (ComputeMass_spec _ _ Hwf) in H2 as (_ & _ & _ & Hv2 & Hf2 & _).
  unfold b3FindUniqueEdges, scan_triangles. rewrite scan_triangles_from, Heq.
  destruct (for_each (create_structural def) c2 _) as [c3|] eqn:H3; cbn; [|done].
  destruct (for_each (create_bending def) c3 _) as [c4|] eqn:H4; cbn; [|done].
  destruct (for_each (create_sewing def) c4 _) as [c5|] eqn:H5; cbn; [|done].
  intros [= <-]. cbn.
  apply (for_each_CreateForce _ _ (create_structural_spec def)) in H3
    as (_ & fds & Hfl3 & HF3).
  apply (for_each_CreateForce _ _ (create_bending_spec def)) in H4
    as (_ & fds4 & Hfl4 & _).
  apply (for_each_CreateForce _ _ (create_sewing_spec def)) in H5
    as (_ & fds5 & Hfl5 & _).
  exists fds, (reverse fds5 ++ reverse fds4). repeat split.
  - rewrite Hfl5, Hfl4, Hfl3, Hf2, Hf1, app_nil_r. by rewrite <- app_assoc.
  - symmetry. by eapply Forall2_length.
  - rewrite Hv2, Hv1 in HF3. exact HF3.
Qed.

(** ** Body contacts: what the refresh is compared with *)

(** The reports of the rigid world for a sphere: every shape of every
    static body for which [TestSphere] answers, in traversal order. *)
Definition body_reports (s1 : b3Sphere) (body : b3Body)
    : list (b3Shape * b3TestSphereOutput) :=
  if decide (GetType body = e_staticBody)
  then omap (fun shape => pair shape <$> TestSphere shape s1 (GetTransform body))
         (GetShapeList body)
  else [].

Definition reports (w : b3World) (p : b3Particle)
    : list (b3Shape * b3TestSphereOutput) :=
  flat_map (body_reports (mkSphere (m_position p) (m_radius p))) (GetBodyList w).

Definition best0 : best_contact := mkBest None 0 b3Vec3_zero b3Vec3_zero.

Definition pick (best : best_contact) (e : b3Shape * b3TestSphereOutput)
    : best_contact :=
  if decide (separation e.2 < bestSeparation best)
  then mkBest (Some e.1) (separation e.2) (point e.2) (normal e.2)
  else best.

Lemma test_shapes_pick (s1 : b3Sphere) (xf : b3Transform)
    (shapes : list b3Shape) (best : best_contact) :
  foldl (test_shape s1 xf) best shapes =
  foldl pick best (omap (fun shape => pair shape <$> TestSphere shape s1 xf) shapes).
Proof.
  revert best. induction shapes as [|sh shapes IH]; intros best; [done|].
  cbn [foldl omap list_omap]. rewrite IH. unfold test_shape at 1.
  destruct (TestSphere sh s1 xf) as [out|]; reflexivity.
Qed.

Lemma find_deepest_dynamic (w : b3World) (p : b3Particle) :
  m_type p = e_dynamicParticle ->
  find_deepest w p = foldl pick best0 (reports w p).
Proof.
  intros Hdyn. unfold find_deepest, reports. fold best0.
  generalize best0. generalize (mkSphere (m_position p) (m_radius p)). intros s1.
  induction (GetBodyList w) as [|body bodies IH]; intros best; [done|].
  cbn [foldl flat_map]. rewrite foldl_app, IH. f_equal.
  unfold test_body, body_reports.
  rewrite decide_False by (by intros H; apply H).
  destruct (decide (GetType body = e_staticBody)) as [Hs|Hs].
  - rewrite decide_False by (by intros H; apply H). apply test_shapes_pick.
  - by rewrite decide_True.
Qed.

Lemma find_deepest_not_dynamic (w : b3World) (p : b3Particle) :
  m_type p <> e_dynamicParticle -> find_deepest w p = best0.
Proof.
  intros Hdyn. unfold find_deepest. fold best0. generalize best0.
  induction (GetBodyList w) as [|body bodies IH]; intros best; [done|].
  cbn [foldl]. rewrite IH. unfold test_body. by rewrite decide_True.
Qed.

(** The state of the search after a list of reports: nothing found and no
    report below zero, or the first report of least separation, which is
    below zero. *)
Definition deepest_of (l : list (b3Shape * b3TestSphereOutput))
    (best : best_contact) : Prop :=
  (best = best0 /\ forall e, e ∈ l -> 0 <= separation e.2) \/
  (exists k sh out, l !! k = Some (sh, out) /\
     best = mkBest (Some sh) (separation out) (point out) (normal out) /\
     separation out < 0 /\
     forall j e, l !! j = Some e ->
       separation out <= separation e.2 /\
       ((j < k)%nat -> separation out < separation e.2)).

Lemma pick_deepest (l : list (b3Shape * b3TestSphereOutput)) :
  deepest_of l (foldl pick best0 l).
Proof.
  induction l as [|e l IH] using rev_ind.
  - left. split; [done|]. intros e He. inversion He.
  - rewrite foldl_app. cbn [foldl]. destruct e as [sh' out'].
    destruct IH as [[-> Hall]|(k & sh & out & Hk & -> & Hneg & Hmin)];
      unfold pick; cbn [fst snd bestSeparation best0].
    + destruct (decide (separation out' < 0)) as [Hlt|Hge].
      * right. exists (length l), sh', out'. repeat split; try done.
        -- by apply list_lookup_middle.
        -- apply lookup_app_Some in H as [H|[_ H]].
           ++ apply Qclt_le_weak. eapply Qclt_le_trans; [exact Hlt|].
              apply Hall. by eapply list_elem_of_lookup_2.
           ++ apply list_lookup_singleton_Some in H as [_ <-]. apply Qcle_refl.
        -- intros Hj. apply lookup_app_Some in H as [H|[Hge _]]; [|lia].
           eapply Qclt_le_trans; [exact Hlt|].
           apply Hall. by eapply list_elem_of_lookup_2.
      * left. split; [done|]. intros e [He|He]%elem_of_app; [by apply Hall|].
        apply list_elem_of_singleton in He as ->. by apply Qcnot_lt_le.
    + destruct (decide (separation out' < separation out)) as [Hlt|Hge].
      * right. exists (length l), sh', out'. repeat split; try done.
        -- by apply list_lookup_middle.
        -- by eapply Qclt_trans.
        -- apply lookup_app_Some in H as [H|[_ H]].
           ++ apply Qclt_le_weak. eapply Qclt_le_trans; [exact Hlt|].
              by apply (Hmin j e).
           ++ apply list_lookup_singleton_Some in H as [_ <-]. apply Qcle_refl.
        -- intros Hj. apply lookup_app_Some in H as [H|[Hge _]]; [|lia].
           eapply Qclt_le_trans; [exact Hlt|]. by apply (Hmin j e).
      * right. exists k, sh, out. repeat split; try done.
        -- by apply lookup_app_l_Some.
        -- apply lookup_app_Some in H as [H|[_ H]]; [by apply (Hmin j e)|].
           apply list_lookup_singleton_Some in H as [_ <-]. by apply Qcnot_lt_le.
        -- intros Hj. apply lookup_app_Some in H as [H|[Hge' _]].
           ++ by apply (Hmin j e).
           ++ apply lookup_lt_Some in Hk. lia.
Qed.

Lemma UpdateBodyContacts_lookup (c : b3Cloth) (w : b3World) (id : nat)
    (p : b3Particle) :
  m_world c = Some w -> NoDup (m_particleList c) ->
  id ∈ m_particleList c -> m_particleBlocks c !! id = Some p ->
  m_particleBlocks (UpdateBodyContacts c) !! id = Some (refresh_contact w id p).
Proof.
  intros Hw Hnd Hin Hp. unfold UpdateBodyContacts. rewrite Hw.
  rewrite for_each_particle_lookup by done. rewrite decide_True by done.
  by rewrite Hp.
Qed.

Lemma refresh_contact_fields (w : b3World) (self : nat) (p : b3Particle) :
  m_type (refresh_contact w self p) = m_type p /\
  m_position (refresh_contact w self p) = m_position p /\
  m_velocity (refresh_contact w self p) = m_velocity p /\
  m_force (refresh_contact w self p) = m_force p /\
  m_translation (refresh_contact w self p) = m_translation p /\
  m_mass (refresh_contact w self p) = m_mass p.
Proof. unfold refresh_contact. by destruct (bestShape (find_deepest w p)). Qed.

(** The search of a refresh, for any particle. *)
Lemma find_deepest_cases (w : b3World) (p : b3Particle) :
  (find_deepest w p = best0 /\
   (m_type p <> e_dynamicParticle \/
    forall e, e ∈ reports w p -> 0 <= separation e.2)) \/
  (m_type p = e_dynamicParticle /\
   exists k sh out, reports w p !! k = Some (sh, out) /\
     find_deepest w p = mkBest (Some sh) (separation out) (point out) (normal out) /\
     separation out < 0 /\
     forall j e, reports w p !! j = Some e ->
       separation out <= separation e.2 /\
       ((j < k)%nat -> separation out < separation e.2)).
Proof.
  destruct (decide (m_type p = e_dynamicParticle)) as [Hdyn|Hdyn].
  - rewrite (find_deepest_dynamic w p Hdyn).
    destruct (pick_deepest (reports w p)) as [[-> Hall]|H].
    + left. split; [done|]. by right.
    + right. by split.
  - left. split; [by apply find_deepest_not_dynamic|]. by left.
Qed.

(** ** Properties of the contact refresh *)

(** C9, as the code has it.  Without a world attached [UpdateBodyContacts]
    returns at once and the cloth is as it was: a record that was active
    stays active, whatever the type of its particle.  With a world
    attached, after the refresh the contact of a listed particle is active
    exactly when the particle is dynamic and some shape of a static body
    reports a separation below zero; it is inactive when the particle is
    not dynamic and when every report is zero or more (touching at
    separation zero included).  An active contact is on the shape whose
    report has the least separation, the first such report in traversal
    order when several tie, with the normal negated. *)
Theorem UpdateBodyContacts_deepest (c : b3Cloth) (id : nat) (p : b3Particle) :
  NoDup (m_particleList c) ->
  id ∈ m_particleList c -> m_particleBlocks c !! id = Some p ->
  (m_world c = None -> UpdateBodyContacts c = c) /\
  (forall w, m_world c = Some w ->
   exists p', m_particleBlocks (UpdateBodyContacts c) !! id = Some p' /\
    (active (m_bodyContact p') = true <->
       m_type p = e_dynamicParticle /\
       exists e, e ∈ reports w p /\ separation e.2 < 0) /\
    (m_type p <> e_dynamicParticle -> active (m_bodyContact p') = false) /\
    ((forall e, e ∈ reports w p -> 0 <= separation e.2) ->
       active (m_bodyContact p') = false) /\
    (active (m_bodyContact p') = true ->
       exists k sh out, reports w p !! k = Some (sh, out) /\
         separation out < 0 /\
         s2 (m_bodyContact p') = Some sh /\
         p1 (m_bodyContact p') = id /\
         normal1 (m_bodyContact p') = vneg (normal out) /\
         localPoint2 (m_bodyContact p') = GetLocalPoint (GetBody sh) (point out) /\
         forall j e, reports w p !! j = Some e ->
           separation out <= separation e.2 /\
           ((j < k)%nat -> separation out < separation e.2))).
Proof.
  intros Hnd Hin Hp. split.
  { intros Hw. unfold UpdateBodyContacts. by rewrite Hw. }
  intros w Hw. exists (refresh_contact w id p).
  split; [by apply UpdateBodyContacts_lookup|].
  unfold refresh_contact.
  destruct (find_deepest_cases w p)
    as [[-> Hnone]|(Hdyn & k & sh & out & Hk & -> & Hneg & Hmin)];
    cbn [bestShape bestPoint bestNormal best0 m_bodyContact set_bodyContact
         active s2 p1 normal1 localPoint2].
  - assert (Hno : ~ (m_type p = e_dynamicParticle /\
                     exists e, e ∈ reports w p /\ separation e.2 < 0)).
    { intros (Hdyn & e & He & Hlt). destruct Hnone as [Hnd'|Hall]; [done|].
      by apply (Qclt_not_le _ _ Hlt), Hall. }
    repeat split; try done.
  - repeat split; try done.
    + exists (sh, out). split; [exact (list_elem_of_lookup_2 _ _ _ Hk)|exact Hneg].
    + intros Hall. exfalso. apply (Qclt_not_le _ _ Hneg).
      apply (Hall (sh, out)). exact (list_elem_of_lookup_2 _ _ _ Hk).
    + intros _. exists k, sh, out.
      split; [exact Hk|]. split; [exact Hneg|].
      repeat (split; [reflexivity|]). exact Hmin.
Qed.

(** C9 as stated: after a refresh the record of a particle that is not
    dynamic is marked inactive. *)
Definition not_dynamic_is_inactive : Prop :=
  forall (c : b3Cloth) (id : nat) (p p' : b3Particle),
    NoDup (m_particleList c) -> id ∈ m_particleList c ->
    m_particleBlocks c !! id = Some p ->
    m_particleBlocks (UpdateBodyContacts c) !! id = Some p' ->
    m_type p <> e_dynamicParticle -> active (m_bodyContact p') = false.

(** C5, as the code has it.  Without a world attached the refresh
    returns at once and leaves the record of every particle as it was,
    active flag and impulses included.  With a world attached, a refresh
    that finds no penetrating shape for a listed particle (none is looked
    for when the particle is not dynamic) marks the record inactive and
    leaves the stored impulses in place; a contact that a refresh activates
    from an inactive record starts with zero normal and tangent impulse,
    whatever the record still stored; a contact refreshed from an active
    record keeps the previous normal and tangent impulse, also when its
    shape is not the previous one. *)
Theorem UpdateBodyContacts_impulse (c : b3Cloth) (id : nat) (p : b3Particle) :
  NoDup (m_particleList c) ->
  id ∈ m_particleList c -> m_particleBlocks c !! id = Some p ->
  (m_world c = None ->
   m_particleBlocks (UpdateBodyContacts c) !! id = Some p) /\
  (forall w, m_world c = Some w ->
   exists p', m_particleBlocks (UpdateBodyContacts c) !! id = Some p' /\
    (m_type p <> e_dynamicParticle \/
     (forall e, e ∈ reports w p -> 0 <= separation e.2) ->
       active (m_bodyContact p') = false /\
       normalImpulse (m_bodyContact p') = normalImpulse (m_bodyContact p) /\
       tangentImpulse (m_bodyContact p') = tangentImpulse (m_bodyContact p)) /\
    (active (m_bodyContact p') = true -> active (m_bodyContact p) = false ->
       normalImpulse (m_bodyContact p') = 0 /\
       tangentImpulse (m_bodyContact p') = b3Vec2_zero) /\
    (active (m_bodyContact p') = true -> active (m_bodyContact p) = true ->
       normalImpulse (m_bodyContact p') = normalImpulse (m_bodyContact p) /\
       tangentImpulse (m_bodyContact p') = tangentImpulse (m_bodyContact p))).
Proof.
  intros Hnd Hin Hp. split.
  { intros Hw. unfold UpdateBodyContacts. by rewrite Hw. }
  intros w Hw. exists (refresh_contact w id p).
  split; [by apply UpdateBodyContacts_lookup|].
  unfold refresh_contact.
  destruct (find_deepest_cases w p)
    as [[-> Hnone]|(Hdyn & k & sh & out & Hk & -> & Hneg & Hmin)];
    cbn [bestShape bestPoint bestNormal best0 m_bodyContact set_bodyContact
         active normalImpulse tangentImpulse].
  - repeat split; done.
  - assert (Hsome : ~ (m_type p <> e_dynamicParticle \/
                       forall e, e ∈ reports w p -> 0 <= separation e.2)).
    { intros [Hnot|Hall]; [done|]. apply (Qclt_not_le _ _ Hneg).
      apply (Hall (sh, out)). exact (list_elem_of_lookup_2 _ _ _ Hk). }
    split; [by intros H|]. split.
    + intros _ H0. by rewrite H0.
    + intros _ H0. by rewrite H0.
Qed.

(** C5 as stated: a refreshed contact never starts from the impulses of a
    previous contact on another shape. *)
Definition never_warm_starts_across_shapes : Prop :=
  forall (c : b3Cloth) (w : b3World) (id : nat) (p p' : b3Particle),
    m_world c = Some w -> NoDup (m_particleList c) ->
    id ∈ m_particleList c -> m_particleBlocks c !! id = Some p ->
    m_particleBlocks (UpdateBodyContacts c) !! id = Some p' ->
    active (m_bodyContact p') = true ->
    s2 (m_bodyContact p') <> s2 (m_bodyContact p) ->
    normalImpulse (m_bodyContact p') = 0 /\
    tangentImpulse (m_bodyContact p') = b3Vec2_zero.

(** ** Properties of [Step] *)





(** ** Shared edges *)

(** [a -> b] is an edge of [t] in its winding, and [c] is the corner that
    follows. *)
Definition directed_edge (t : b3ClothMeshTriangle) (a b c : nat) : Prop :=
  exists k, (k < 3)%nat /\ i1s t k = a /\ i1s t (b3NextIndex k) = b /\
    i1s t (b3NextIndex (b3NextIndex k)) = c.

(** The record the [j2] loop stores for edge [j1] of [t1] against [t2], if
    it stores one. *)
Definition shared_of (t1 : b3ClothMeshTriangle) (j1 : nat)
    (t2 : b3ClothMeshTriangle) : option b3SharedEdge :=
  mkSharedEdge (i1s t1 j1) (i1s t1 (b3NextIndex j1))
    (i1s t1 (b3NextIndex (b3NextIndex j1)))
  <$> match_edge t2 (i1s t1 j1) (i1s t1 (b3NextIndex j1)) (seq 0 3).

(** The records stored for [t1] against the triangles after it, and for a
    whole triangle list. *)
Definition shared_at (t1 : b3ClothMeshTriangle)
    (later : list b3ClothMeshTriangle) : list b3SharedEdge :=
  omap (shared_of t1 0) later ++ omap (shared_of t1 1) later
  ++ omap (shared_of t1 2) later.

Fixpoint shared_list (ts : list b3ClothMeshTriangle) : list b3SharedEdge :=
  match ts with
  | [] => []
  | t1 :: later => shared_at t1 later ++ shared_list later
  end.

(** No edge is walked in the same direction by two triangles. *)
Definition consistently_wound (ts : list b3ClothMeshTriangle) : Prop :=
  forall i j t t' a b c c', ts !! i = Some t -> ts !! j = Some t' ->
    directed_edge t a b c -> directed_edge t' a b c' -> i = j.

Lemma match_edge_spec (t2 : b3ClothMeshTriangle) (a b : nat) (js : list nat) :
  match match_edge t2 a b js with
  | Some c => exists k, k ∈ js /\ a = i1s t2 (b3NextIndex k) /\ b = i1s t2 k /\
                c = i1s t2 (b3NextIndex (b3NextIndex k))
  | None => forall k, k ∈ js -> ~ (a = i1s t2 (b3NextIndex k) /\ b = i1s t2 k)
  end.
Proof.
  induction js as [|j js IH]; cbn [match_edge].
  - intros k Hk. inversion Hk.
  - destruct (bool_decide (a = i1s t2 (b3NextIndex j))
              && bool_decide (b = i1s t2 j)) eqn:E.
    + apply andb_prop in E as [?%bool_decide_eq_true ?%bool_decide_eq_true].
      exists j. split; [by left|done].
    + destruct (match_edge t2 a b js) as [c|].
      * destruct IH as (k & Hk & H). exists k. split; [by right|done].
      * intros k [->|Hk]%elem_of_cons; [|by apply IH].
        intros [Ha Hb]. rewrite !bool_decide_eq_true_2 in E by done. done.
Qed.

Lemma shared_of_Some (t1 t2 : b3ClothMeshTriangle) (j1 : nat) (se : b3SharedEdge) :
  (j1 < 3)%nat -> shared_of t1 j1 t2 = Some se ->
  se_v1 se = i1s t1 j1 /\ se_v2 se = i1s t1 (b3NextIndex j1) /\
  nsv1 se = i1s t1 (b3NextIndex (b3NextIndex j1)) /\
  directed_edge t1 (se_v1 se) (se_v2 se) (nsv1 se) /\
  directed_edge t2 (se_v2 se) (se_v1 se) (nsv2 se).
Proof.
  intros Hj1. unfold shared_of.
  pose proof (match_edge_spec t2 (i1s t1 j1) (i1s t1 (b3NextIndex j1)) (seq 0 3)) as H.
  destruct (match_edge _ _ _ _) as [c|]; [|done].
  intros [= <-]. cbn. repeat split.
  - by exists j1.
  - destruct H as (k & Hk & Ha & Hb & ->). apply elem_of_seq in Hk.
    exists k. split; [lia|done].
Qed.

Lemma shared_of_is_Some (t1 t2 : b3ClothMeshTriangle) (j1 d : nat) :
  directed_edge t2 (i1s t1 (b3NextIndex j1)) (i1s t1 j1) d ->
  is_Some (shared_of t1 j1 t2).
Proof.
  intros (k & Hk & Hb & Ha & _). unfold shared_of.
  pose proof (match_edge_spec t2 (i1s t1 j1) (i1s t1 (b3NextIndex j1)) (seq 0 3)) as H.
  destruct (match_edge _ _ _ _) as [c|]; [by eexists|].
  exfalso. apply (H k); [apply elem_of_seq; lia|done].
Qed.

Lemma shared_with_omap (t1 : b3ClothMeshTriangle) (j1 : nat)
    (later : list b3ClothMeshTriangle) (acc : list b3SharedEdge) :
  foldl (shared_with t1 j1) acc later = acc ++ omap (shared_of t1 j1) later.
Proof.
  revert acc. induction later as [|t2 later IH]; intros acc.
  - by rewrite app_nil_r.
  - cbn [foldl omap list_omap]. rewrite IH. unfold shared_with, shared_of.
    destruct (match_edge _ _ _ _); cbn; [by rewrite <- app_assoc|done].
Qed.

Lemma shared_from_list (ts : list b3ClothMeshTriangle) (acc : list b3SharedEdge) :
  shared_from ts acc = acc ++ shared_list ts.
Proof.
  revert acc. induction ts as [|t1 later IH]; intros acc; cbn [shared_from shared_list].
  - by rewrite app_nil_r.
  - rewrite IH. cbn [seq foldl]. rewrite !shared_with_omap.
    unfold shared_at. by rewrite <- !app_assoc.
Qed.

Lemma elem_of_shared_list (se : b3SharedEdge) (ts : list b3ClothMeshTriangle) :
  se ∈ shared_list ts <->
  exists i j t1 t2 j1, (i < j)%nat /\ ts !! i = Some t1 /\ ts !! j = Some t2 /\
    (j1 < 3)%nat /\ shared_of t1 j1 t2 = Some se.
Proof.
  induction ts as [|t1 later IH]; cbn [shared_list].
  - split; [intros H; inversion H|].
    intros (i & j & t1 & t2 & j1 & _ & H & _). by rewrite lookup_nil in H.
  - rewrite elem_of_app, IH. unfold shared_at.
    rewrite !elem_of_app, !list_elem_of_omap. split.
    + assert (Hhead : forall j1, (j1 < 3)%nat ->
                (exists t2, t2 ∈ later /\ shared_of t1 j1 t2 = Some se) ->
                exists i j t1' t2 j1', (i < j)%nat /\ (t1 :: later) !! i = Some t1' /\
                  (t1 :: later) !! j = Some t2 /\ (j1' < 3)%nat /\
                  shared_of t1' j1' t2 = Some se).
      { intros j1 Hj1 (t2 & [j Hj]%list_elem_of_lookup_1 & Hse).
        exists 0%nat, (S j), t1, t2, j1. repeat split; try done. lia. }
      intros [[H|[H|H]]|(i & j & t1' & t2 & j1 & Hij & Hi & Hj & Hj1 & Hse)].
      * apply (Hhead 0%nat); [lia|done].
      * apply (Hhead 1%nat); [lia|done].
      * apply (Hhead 2%nat); [lia|done].
      * exists (S i), (S j), t1', t2, j1. repeat split; try done. lia.
    + intros (i & j & t1' & t2 & j1 & Hij & Hi & Hj & Hj1 & Hse).
      destruct j as [|j]; [lia|]. cbn in Hj. destruct i as [|i].
      * injection Hi as ->. left.
        assert (Hin : t2 ∈ later) by (by eapply list_elem_of_lookup_2).
        destruct j1 as [|[|[|?]]]; [left|right; left|right; right|lia];
          by exists t2.
      * right. exists i, j, t1', t2, j1. cbn in Hi. repeat split; try done. lia.
Qed.

Lemma length_omap_le {A B : Type} (g : A -> option B) (l : list A) :
  (length (omap g l) <= length l)%nat.
Proof.
  induction l as [|a l IH]; [done|]. cbn [omap list_omap].
  destruct (g a); cbn [length]; lia.
Qed.

Lemma omap_at_most_one {A B : Type} (g : A -> option B) (l : list A) :
  (forall j j' a a', l !! j = Some a -> l !! j' = Some a' ->
     is_Some (g a) -> is_Some (g a') -> j = j') ->
  (length (omap g l) <= 1)%nat.
Proof.
  induction l as [|a l IH]; intros H; [cbn; lia|]. cbn [omap list_omap].
  destruct (g a) as [b|] eqn:Ea.
  - assert (Hnone : omap g l = []).
    { clear IH. induction l as [|a' l IH']; [done|]. cbn [omap list_omap].
      destruct (g a') as [b'|] eqn:Ea'.
      - exfalso. assert (0 = 1)%nat; [|lia].
        apply (H 0%nat 1%nat a a'); by rewrite ?Ea, ?Ea'.
      - apply IH'. intros j j' x x' Hj Hj' Hx Hx'.
        destruct j as [|j], j' as [|j']; try done.
        + by specialize (H 0%nat (S (S j')) x x' Hj Hj' Hx Hx').
        + by specialize (H (S (S j)) 0%nat x x' Hj Hj' Hx Hx').
        + specialize (H (S (S j)) (S (S j')) x x' Hj Hj' Hx Hx'). lia. }
    rewrite Hnone. cbn. lia.
  - apply IH. intros j j' x x' Hj Hj' Hx Hx'.
    specialize (H (S j) (S j') x x' Hj Hj' Hx Hx'). lia.
Qed.

Lemma shared_list_length (ts : list b3ClothMeshTriangle) :
  (2 * length (shared_list ts) <= 3 * length ts * (length ts - 1))%nat.
Proof.
  induction ts as [|t1 later IH]; [cbn; lia|].
  cbn [shared_list length]. unfold shared_at. rewrite !length_app.
  pose proof (length_omap_le (shared_of t1 0) later).
  pose proof (length_omap_le (shared_of t1 1) later).
  pose proof (length_omap_le (shared_of t1 2) later).
  destruct (length later) as [|n]; [cbn in *; lia|].
  replace (S n - 1)%nat with n in IH by lia.
  replace (S (S n) - 1)%nat with (S n) by lia. nia.
Qed.

Lemma shared_list_wound (ts : list b3ClothMeshTriangle) :
  consistently_wound ts -> (length (shared_list ts) <= 3 * length ts)%nat.
Proof.
  induction ts as [|t1 later IH]; intros Hw; [cbn; lia|].
  cbn [shared_list length]. unfold shared_at. rewrite !length_app.
  assert (Hlater : consistently_wound later).
  { intros i j t t' a b c c' Hi Hj Ht Ht'.
    specialize (Hw (S i) (S j) t t' a b c c' Hi Hj Ht Ht'). lia. }
  assert (Hone : forall j1, (j1 < 3)%nat ->
            (length (omap (shared_of t1 j1) later) <= 1)%nat).
  { intros j1 Hj1. apply omap_at_most_one.
    intros j j' t2 t2' Hj Hj' [se Hse] [se' Hse'].
    apply (shared_of_Some _ _ _ _ Hj1) in Hse as (E1 & E2 & _ & _ & Hd).
    apply (shared_of_Some _ _ _ _ Hj1) in Hse' as (E1' & E2' & _ & _ & Hd').
    rewrite E1, E2 in Hd. rewrite E1', E2' in Hd'.
    specialize (Hw (S j) (S j') t2 t2' _ _ _ _ Hj Hj' Hd Hd'). lia. }
  pose proof (Hone 0%nat). pose proof (Hone 1%nat). pose proof (Hone 2%nat).
  specialize (IH Hlater). lia.
Qed.

(** X4. [b3FindSharedEdges] records an edge exactly for the adjacent pairs:
    every record comes from a triangle and a later triangle that walks the
    same edge in the opposite direction, with [nsv1] and [nsv2] the corners
    of the two triangles off that edge; and every edge of a triangle that a
    later triangle walks in the opposite direction has a record. *)
Theorem b3FindSharedEdges_adjacent (m : b3ClothMesh) :
  (forall se, se ∈ b3FindSharedEdges m ->
     exists i j t1 t2, (i < j)%nat /\
       triangles m !! i = Some t1 /\ triangles m !! j = Some t2 /\
       directed_edge t1 (se_v1 se) (se_v2 se) (nsv1 se) /\
       directed_edge t2 (se_v2 se) (se_v1 se) (nsv2 se)) /\
  (forall i j t1 t2 a b c d, (i < j)%nat ->
     triangles m !! i = Some t1 -> triangles m !! j = Some t2 ->
     directed_edge t1 a b c -> directed_edge t2 b a d ->
     exists se, se ∈ b3FindSharedEdges m /\
       se_v1 se = a /\ se_v2 se = b /\ nsv1 se = c /\
       directed_edge t2 b a (nsv2 se)).
Proof.
  unfold b3FindSharedEdges. rewrite shared_from_list. cbn [app]. split.
  - intros se (i & j & t1 & t2 & j1 & Hij & Hi & Hj & Hj1 & Hse)%elem_of_shared_list.
    apply (shared_of_Some _ _ _ _ Hj1) in Hse as (_ & _ & _ & H1 & H2).
    by exists i, j, t1, t2.
  - intros i j t1 t2 a b c d Hij Hi Hj (k & Hk & <- & <- & <-) Hd.
    destruct (shared_of_is_Some t1 t2 k d Hd) as [se Hse].
    exists se. split.
    + apply elem_of_shared_list. by exists i, j, t1, t2, k.
    + apply (shared_of_Some _ _ _ _ Hk) in Hse as (E1 & E2 & E3 & _ & H2).
      rewrite E1, E2 in H2. done.
Qed.

(** X5. [b3FindSharedEdges] stores at most one record per edge of a
    triangle and later triangle, [3 * T * (T - 1) / 2] in all; when no edge
    is walked in the same direction by two triangles it stores at most one
    record per triangle edge, so at most [3 * T], the size of the scratch
    array the constructor allocates. *)
Theorem b3FindSharedEdges_count (m : b3ClothMesh) :
  (2 * length (b3FindSharedEdges m) <= 3 * triangleCount m * (triangleCount m - 1))%nat /\
  (consistently_wound (triangles m) ->
     (length (b3FindSharedEdges m) <= 3 * triangleCount m)%nat).
Proof.
  unfold b3FindSharedEdges, triangleCount. rewrite shared_from_list. cbn [app].
  split; [apply shared_list_length|apply shared_list_wound].
Qed.

(** ** The constructor, step by step *)

(** [b3Cloth::GetVertexParticle]. *)
Definition GetVertexParticle (c : b3Cloth) (i : nat) : option nat :=
  if decide (i < vertexCount (m_mesh c))%nat then m_vertexParticles c !! i else None.

(** The particle the constructor makes for vertex [v] at position [x],
    before its mass is computed. *)
Definition vertex_particle (v : nat) (x : b3Vec3) : b3Particle :=
  set_vertex v (b3Particle_new (mkParticleDef e_dynamicParticle x) v).

(** [q'] is [q] with another mass and inverse mass. *)
Definition same_but_mass (q q' : b3Particle) : Prop :=
  q' = set_mass (m_mass q') (m_invMass q') q.

(** The springs made for a shared edge and for a sewing line, given the
    vertex to particle table. *)
Definition bending_between (def : b3ClothDef) (vertexParticles : list nat)
    (e : b3SharedEdge) (fd : b3SpringForceDef) : Prop :=
  vertexParticles !! nsv1 e = Some (fd_p1 fd) /\
  vertexParticles !! nsv2 e = Some (fd_p2 fd) /\
  fd_structural fd = bending def /\ fd_damping fd = damping def.

Definition sewing_between (def : b3ClothDef) (vertexParticles : list nat)
    (line : b3ClothMeshSewingLine) (fd : b3SpringForceDef) : Prop :=
  vertexParticles !! s_v1 line = Some (fd_p1 fd) /\
  vertexParticles !! s_v2 line = Some (fd_p2 fd) /\
  fd_structural fd = structural def /\ fd_damping fd = damping def.

Lemma same_but_mass_refl (q : b3Particle) : same_but_mass q q.
Proof. by destruct q. Qed.

Lemma same_but_mass_set (q q' : b3Particle) (a b : float32) :
  same_but_mass q q' -> same_but_mass q (set_mass a b q').
Proof. unfold same_but_mass. intros ->. reflexivity. Qed.

Lemma zero_loop_keeps (l : list nat) (blocks acc : list b3Particle) :
  Forall2 same_but_mass blocks acc ->
  Forall2 same_but_mass blocks
    (foldl (fun b p => alter (set_mass 0 0) p b) acc l).
Proof.
  revert acc. induction l as [|p l IH]; intros acc H; [done|].
  cbn [foldl]. apply IH. apply Forall2_alter_r; [done|].
  intros q q' _ _ Hq. by apply same_but_mass_set.
Qed.

Lemma insert_keeps (blocks acc : list b3Particle) (p : nat) (q : b3Particle)
    (a b : float32) :
  Forall2 same_but_mass blocks acc -> acc !! p = Some q ->
  Forall2 same_but_mass blocks (<[p := set_mass a b q]> acc).
Proof.
  intros H Hq. rewrite list_insert_alter. apply Forall2_alter_r; [done|].
  intros x y _ Hy Hxy. assert (y = q) as -> by congruence.
  by apply same_but_mass_set.
Qed.

Lemma add_mass_keeps (blocks acc acc' : list b3Particle) (p : nat) (dm : float32) :
  Forall2 same_but_mass blocks acc -> add_mass acc p dm = Some acc' ->
  Forall2 same_but_mass blocks acc'.
Proof.
  intros H. unfold add_mass.
  destruct (acc !! p) as [q|] eqn:Hq; cbn; [|done].
  intros [= <-]. by apply insert_keeps.
Qed.

Lemma mass_loop_keeps (c : b3Cloth) (ts : list b3ClothMeshTriangle)
    (blocks acc acc' : list b3Particle) :
  Forall2 same_but_mass blocks acc ->
  for_each (mass_of_triangle c) acc ts = Some acc' ->
  Forall2 same_but_mass blocks acc'.
Proof.
  revert acc. induction ts as [|t ts IH]; intros acc H; cbn [for_each].
  - by intros [= <-].
  - destruct (mass_of_triangle c acc t) as [b1|] eqn:Ht; cbn; [|done].
    apply IH. unfold mass_of_triangle in Ht.
    destruct (vertices (m_mesh c) !! v1 t); [|done].
    destruct (vertices (m_mesh c) !! v2 t); [|done].
    destruct (vertices (m_mesh c) !! v3 t); [|done].
    cbn in Ht. destruct (decide _); [|done].
    destruct (m_vertexParticles c !! v1 t); [|done].
    destruct (m_vertexParticles c !! v2 t); [|done].
    destruct (m_vertexParticles c !! v3 t); [|done].
    cbn in Ht.
    destruct (add_mass acc _ _) as [a1|] eqn:H1; [|done]. cbn in Ht.
    destruct (add_mass a1 _ _) as [a2|] eqn:H2; [|done]. cbn in Ht.
    eapply add_mass_keeps; [|exact Ht].
    eapply add_mass_keeps; [|exact H2].
    eapply add_mass_keeps; [|exact H1]. done.
Qed.

Lemma invert_loop_keeps (l : list nat) (blocks acc acc' : list b3Particle) :
  Forall2 same_but_mass blocks acc ->
  for_each invert_mass acc l = Some acc' ->
  Forall2 same_but_mass blocks acc'.
Proof.
  revert acc. induction l as [|p l IH]; intros acc H; cbn [for_each].
  - by intros [= <-].
  - destruct (invert_mass acc p) as [b1|] eqn:Hp; cbn; [|done].
    apply IH. apply invert_mass_Some in Hp as (q & Hq & _ & ->).
    by apply insert_keeps.
Qed.

Lemma ComputeMass_keeps (c c' : b3Cloth) :
  ComputeMass c = Some c' ->
  Forall2 same_but_mass (m_particleBlocks c) (m_particleBlocks c').
Proof.
  unfold ComputeMass. intros H.
  destruct (for_each (mass_of_triangle _) _ _) as [b1|] eqn:H1; cbn in H; [|done].
  destruct (for_each invert_mass b1 _) as [b2|] eqn:H2; cbn in H; [|done].
  injection H as <-. cbn [m_particleBlocks set_blocks].
  eapply invert_loop_keeps; [|exact H2].
  eapply mass_loop_keeps; [|exact H1].
  unfold for_each_particle. cbn [m_particleBlocks set_blocks].
  apply zero_loop_keeps. apply Forall2_lookup. intros i.
  destruct (m_particleBlocks c !! i); constructor. apply same_but_mass_refl.
Qed.

Lemma create_particles_blocks (ivs : list (nat * b3Vec3)) (c : b3Cloth) :
  m_particleBlocks (foldl create_vertex_particle c ivs) =
  m_particleBlocks c ++
  imap (fun k iv =>
          set_vertex iv.1
            (b3Particle_new (mkParticleDef e_dynamicParticle iv.2)
               (length (m_particleBlocks c) + k))) ivs.
Proof.
  revert c. induction ivs as [|[i x0] ivs IH]; intros c.
  - cbn. by rewrite app_nil_r.
  - cbn [foldl]. rewrite IH. rewrite imap_cons.
    cbn [create_vertex_particle CreateParticle m_particleBlocks fst snd].
    rewrite alter_app_r_alt by lia. rewrite Nat.sub_diag. cbn [alter list_alter].
    rewrite <- app_assoc. cbn [app]. rewrite Nat.add_0_r. do 2 f_equal.
    apply imap_ext. intros k [j y] _. cbn [compose fst snd].
    rewrite length_app. cbn [length]. do 2 f_equal. lia.
Qed.

(** The steps of a construction that succeeds. *)
Lemma b3Cloth_new_steps (def : b3ClothDef) (c : b3Cloth) :
  b3Cloth_new def = Some c ->
  exists m c2 c3 c4 c5,
    mesh def = Some m /\ 0 < density def /\
    ComputeMass (foldl create_vertex_particle
                   (mkCloth m (density def) [] [] [] [] b3Vec3_zero None)
                   (imap pair (vertices m))) = Some c2 /\
    for_each (create_structural def) c2 (b3FindUniqueEdges m) = Some c3 /\
    for_each (create_bending def) c3 (b3FindSharedEdges m) = Some c4 /\
    for_each (create_sewing def) c4 (sewingLines m) = Some c5 /\
    c = mkCloth (m_mesh c5) (m_density c5) (m_particleBlocks c5)
          (m_particleList c5) (m_vertexParticles c5) (m_forceList c5)
          b3Vec3_zero None.
Proof.
  unfold b3Cloth_new.
  destruct (mesh def) as [m|]; cbn; [|done].
  destruct (decide (0 < density def)) as [Hrho|]; [|done].
  destruct (ComputeMass _) as [c2|] eqn:H2; cbn; [|done].
  destruct (for_each (create_structural def) c2 _) as [c3|] eqn:H3; cbn; [|done].
  destruct (for_each (create_bending def) c3 _) as [c4|] eqn:H4; cbn; [|done].
  destruct (for_each (create_sewing def) c4 _) as [c5|] eqn:H5; cbn; [|done].
  intros [= <-]. by exists m, c2, c3, c4, c5.
Qed.

(** The particles, the list and the vertex table after the creation loop. *)
Lemma created_particles (m : b3ClothMesh) (rho : float32) :
  let c1 := foldl create_vertex_particle
              (mkCloth m rho [] [] [] [] b3Vec3_zero None)
              (imap pair (vertices m)) in
  m_mesh c1 = m /\ m_density c1 = rho /\ m_forceList c1 = [] /\
  m_particleList c1 = reverse (seq 0 (vertexCount m)) /\
  m_vertexParticles c1 = seq 0 (vertexCount m) /\
  m_particleBlocks c1 = imap vertex_particle (vertices m) /\
  wf_particles c1.
Proof.
  cbn zeta.
  destruct (create_particles_spec (imap pair (vertices m))
              (mkCloth m rho [] [] [] [] b3Vec3_zero None))
    as (Hm & Hd & Hf & _ & Hp & Hv).
  cbn in Hm, Hd, Hf, Hp, Hv. rewrite length_imap in Hp, Hv.
  rewrite app_nil_r in Hp. fold (vertexCount m) in Hp, Hv.
  repeat split; try done.
  - rewrite create_particles_blocks. cbn [m_particleBlocks app length].
    apply list_eq. intros i. rewrite !list_lookup_imap.
    by destruct (vertices m !! i).
  - rewrite Hp. rewrite reverse_Permutation. apply NoDup_seq.
  - rewrite Hv. apply NoDup_seq.
  - intros v q Hq. rewrite Hp, Hv in *. apply elem_of_reverse.
    by eapply list_elem_of_lookup_2.
Qed.

Lemma create_bending_between (def : b3ClothDef) (c : b3Cloth)
    (e : b3SharedEdge) (c' : b3Cloth) :
  create_bending def c e = Some c' ->
  exists fd, c' = CreateForce c fd /\ bending_between def (m_vertexParticles c) e fd.
Proof.
  unfold create_bending. intros H.
  destruct (m_vertexParticles c !! se_v1 e) as [q1|] eqn:E1; [|done].
  destruct (m_vertexParticles c !! se_v2 e) as [q2|] eqn:E2; [|done].
  destruct (m_vertexParticles c !! nsv1 e) as [q3|] eqn:E3; [|done].
  destruct (m_vertexParticles c !! nsv2 e) as [q4|] eqn:E4; [|done].
  cbn in H. injection H as <-. eexists. split; [reflexivity|]. by repeat split.
Qed.

Lemma create_sewing_between (def : b3ClothDef) (c : b3Cloth)
    (line : b3ClothMeshSewingLine) (c' : b3Cloth) :
  create_sewing def c line = Some c' ->
  exists fd, c' = CreateForce c fd /\ sewing_between def (m_vertexParticles c) line fd.
Proof.
  unfold create_sewing. intros H.
  destruct (m_vertexParticles c !! s_v1 line) as [q1|] eqn:E1; [|done].
  destruct (m_vertexParticles c !! s_v2 line) as [q2|] eqn:E2; [|done].
  cbn in H. injection H as <-. eexists. split; [reflexivity|]. by repeat split.
Qed.

(** X6. A constructed cloth holds, from the head of its force list: one
    spring per sewing line between the particles of the two named vertices,
    with the structural stiffness; one spring per shared edge between the
    particles of the two corners off the edge (not its end points), with the
    bending stiffness; one spring per unique edge.  Each group is in reverse
    order of creation, and there is no other force. *)
Theorem b3Cloth_new_springs (def : b3ClothDef) (c : b3Cloth) :
  b3Cloth_new def = Some c ->
  exists structurals bendings sewings : list b3SpringForceDef,
    m_forceList c = reverse sewings ++ reverse bendings ++ reverse structurals /\
    Forall2 (structural_spring def (m_vertexParticles c))
      (b3FindUniqueEdges (m_mesh c)) structurals /\
    Forall2 (bending_between def (m_vertexParticles c))
      (b3FindSharedEdges (m_mesh c)) bendings /\
    Forall2 (sewing_between def (m_vertexParticles c))
      (sewingLines (m_mesh c)) sewings /\
    length (m_forceList c) =
      (length (b3FindUniqueEdges (m_mesh c)) + length (b3FindSharedEdges (m_mesh c))
       + length (sewingLines (m_mesh c)))%nat.
Proof.
  intros (m & c2 & c3 & c4 & c5 & Hmesh & Hrho & H2 & H3 & H4 & H5 & ->)%b3Cloth_new_steps.
  destruct (created_particles m (density def)) as (Hm1 & _ & Hf1 & _ & _ & _ & Hwf).
  apply (ComputeMass_spec _ _ Hwf) in H2 as (Hm2 & _ & _ & Hv2 & Hf2 & _).
  apply (for_each_CreateForce _ _ (create_structural_spec def)) in H3
    as ((Hm3 & _ & _ & _ & Hv3) & fds3 & Hfl3 & HF3).
  apply (for_each_CreateForce _ _ (create_bending_between def)) in H4
    as ((Hm4 & _ & _ & _ & Hv4) & fds4 & Hfl4 & HF4).
  apply (for_each_CreateForce _ _ (create_sewing_between def)) in H5
    as ((Hm5 & _ & _ & _ & Hv5) & fds5 & Hfl5 & HF5).
  cbn [m_forceList m_mesh m_vertexParticles].
  assert (Em : m_mesh c5 = m) by congruence.
  rewrite Em, Hv5, Hv4, Hv3. rewrite Hv4, Hv3 in HF5. rewrite Hv3 in HF4.
  exists fds3, fds4, fds5.
  assert (Hfl : m_forceList c5 = reverse fds5 ++ reverse fds4 ++ reverse fds3).
  { rewrite Hfl5, Hfl4, Hfl3, Hf2, Hf1. by rewrite app_nil_r. }
  repeat split; try done.
  rewrite Hfl, !length_app, !length_reverse.
  apply Forall2_length in HF3, HF4, HF5. lia.
Qed.

Lemma vertex_mass_unused (rho : float32) (m : b3ClothMesh) (v : nat) :
  (forall t, t ∈ triangles m -> v1 t <> v /\ v2 t <> v /\ v3 t <> v) ->
  vertex_mass rho m v = 0.
Proof.
  intros H. unfold vertex_mass.
  rewrite (Qc_sum_map_ext _ (fun _ => 0)); [apply Qc_sum_map_zero|].
  intros t Ht. destruct (H t Ht) as (H1 & H2 & H3). unfold corner_share.
  rewrite !decide_False by done. ring.
Qed.

(** X7. The constructor fails without a mesh and with a density that is
    not positive.  It also fails on a mesh with a vertex that no triangle
    uses: the particle of that vertex keeps mass zero, and the assertion on
    the particle masses fails.  The empty mesh builds the empty cloth. *)
Theorem b3Cloth_new_faults (def : b3ClothDef) :
  (mesh def = None -> b3Cloth_new def = None) /\
  (~ 0 < density def -> b3Cloth_new def = None) /\
  (forall m v, mesh def = Some m -> (v < vertexCount m)%nat ->
     (forall t, t ∈ triangles m -> v1 t <> v /\ v2 t <> v /\ v3 t <> v) ->
     b3Cloth_new def = None) /\
  (mesh def = Some (mkMesh [] [] []) -> 0 < density def ->
     b3Cloth_new def =
       Some (mkCloth (mkMesh [] [] []) (density def) [] [] [] [] b3Vec3_zero None)).
Proof.
  split; [|split; [|split]].
  - intros H. unfold b3Cloth_new. by rewrite H.
  - intros H. unfold b3Cloth_new. destruct (mesh def); cbn; [|done].
    by rewrite decide_False.
  - intros m v Hmesh Hv Hunused.
    destruct (b3Cloth_new def) as [c|] eqn:Hnew; [|done]. exfalso.
    apply b3Cloth_new_steps in Hnew
      as (m' & c2 & c3 & c4 & c5 & Hmesh' & Hrho & H2 & _).
    assert (m' = m) as -> by congruence.
    destruct (created_particles m (density def))
      as (Hm1 & Hd1 & _ & Hp1 & Hv1 & _ & Hwf).
    apply (ComputeMass_spec _ _ Hwf) in H2
      as (_ & _ & _ & _ & _ & _ & Hvm & _ & Hpos).
    rewrite Hm1, Hd1, Hv1 in Hvm. rewrite Hp1 in Hpos.
    assert (Hlook : seq 0 (vertexCount m) !! v = Some v)
      by (by apply lookup_seq_lt).
    specialize (Hvm v v Hlook). rewrite vertex_mass_unused in Hvm by done.
    destruct (Hpos v) as (q & Hq & Hmass & _).
    { apply elem_of_reverse. by eapply list_elem_of_lookup_2. }
    unfold mass_at in Hvm. rewrite Hq in Hvm. rewrite Hvm in Hmass.
    by apply (Qclt_not_le _ _ Hmass), Qcle_refl.
  - intros Hmesh Hrho. unfold b3Cloth_new. rewrite Hmesh. cbn.
    by rewrite decide_True.
Qed.

(** X8. After construction [GetVertexParticle] maps every vertex of the
    mesh to a particle of the particle list that carries that vertex as
    [m_vertex], is dynamic and sits at the vertex position; different
    vertices have different particles, there are as many particles as
    vertices, and an index that is not a vertex fails the assertion. *)
Theorem GetVertexParticle_vertex (def : b3ClothDef) (c : b3Cloth) :
  b3Cloth_new def = Some c ->
  length (m_particleList c) = vertexCount (m_mesh c) /\
  (forall i, (i < vertexCount (m_mesh c))%nat ->
     exists p q x, GetVertexParticle c i = Some p /\ p ∈ m_particleList c /\
       m_particleBlocks c !! p = Some q /\ m_vertex q = Some i /\
       vertices (m_mesh c) !! i = Some x /\ m_position q = x /\
       m_type q = e_dynamicParticle) /\
  (forall i, (vertexCount (m_mesh c) <= i)%nat -> GetVertexParticle c i = None) /\
  (forall i j p, GetVertexParticle c i = Some p -> GetVertexParticle c j = Some p ->
     i = j).
Proof.
  intros (m & c2 & c3 & c4 & c5 & Hmesh & Hrho & H2 & H3 & H4 & H5 & ->)%b3Cloth_new_steps.
  destruct (created_particles m (density def))
    as (Hm1 & _ & _ & Hp1 & Hv1 & Hb1 & Hwf).
  pose proof (ComputeMass_keeps _ _ H2) as Hkeep.
  apply (ComputeMass_spec _ _ Hwf) in H2 as (Hm2 & _ & Hp2 & Hv2 & _).
  apply (for_each_CreateForce _ _ (create_structural_spec def)) in H3
    as ((Hm3 & _ & Hb3 & Hp3 & Hv3) & _).
  apply (for_each_CreateForce _ _ (create_bending_spec def)) in H4
    as ((Hm4 & _ & Hb4 & Hp4 & Hv4) & _).
  apply (for_each_CreateForce _ _ (create_sewing_spec def)) in H5
    as ((Hm5 & _ & Hb5 & Hp5 & Hv5) & _).
  assert (Em : m_mesh c5 = m) by congruence.
  assert (Eb : m_particleBlocks c5 = m_particleBlocks c2) by congruence.
  assert (Ep : m_particleList c5 = reverse (seq 0 (vertexCount m))) by congruence.
  assert (Ev : m_vertexParticles c5 = seq 0 (vertexCount m)) by congruence.
  unfold GetVertexParticle. cbn [m_mesh m_particleList m_vertexParticles m_particleBlocks].
  rewrite Em, Eb, Ep, Ev. rewrite Hb1 in Hkeep.
  split; [by rewrite length_reverse, length_seq|]. split; [|split].
  - intros i Hi. rewrite decide_True by done.
    destruct (lookup_lt_is_Some_2 (vertices m) i Hi) as [x Hx].
    assert (Hb : imap vertex_particle (vertices m) !! i = Some (vertex_particle i x))
      by (by rewrite list_lookup_imap, Hx).
    destruct (Forall2_lookup_l _ _ _ _ _ Hkeep Hb) as (q & Hq & Hsame).
    exists i, q, x. split; [by apply lookup_seq_lt|]. split.
    { apply elem_of_reverse, elem_of_seq. lia. }
    split; [exact Hq|]. rewrite Hsame. by repeat split.
  - intros i Hi. by rewrite decide_False by lia.
  - intros i j p Hi Hj.
    destruct (decide (i < vertexCount m)%nat); [|done].
    destruct (decide (j < vertexCount m)%nat); [|done].
    apply lookup_seq in Hi as [-> _]. apply lookup_seq in Hj as [Hj _]. lia.
Qed.

(** ** Ray casts *)

Record b3RayCastInput : Type := mkRayCastInput {
  rc_p1 : b3Vec3;
  rc_p2 : b3Vec3;
  maxFraction : float32
}.

Record b3RayCastOutput : Type := mkRayCastOutput {
  fraction : float32;
  rc_normal : b3Vec3
}.

Record b3ClothRayCastSingleOutput : Type := mkRayCastSingleOutput {
  triangle : nat;
  rs_fraction : float32;
  rs_normal : b3Vec3
}.

(** The ray against a triangle ([b3RayCast] of the collision headers, which
    answers [Some output] where the C++ returns true and fills [output]) and
    the constant [B3_MAX_FLOAT] are not among the sources. *)
Variable b3RayCast :
  b3RayCastInput -> b3Vec3 -> b3Vec3 -> b3Vec3 -> option b3RayCastOutput.
Variable B3_MAX_FLOAT : float32.

(** [m_vertexParticles[v]->m_position]. *)
Definition vertex_position (c : b3Cloth) (v : nat) : option b3Vec3 :=
  p ← m_vertexParticles c !! v;
  q ← m_particleBlocks c !! p;
  Some (m_position q).

(** [b3Cloth::RayCast].  The outer [None] is a fault: the failed assertion
    on the index, or a vertex without a particle. *)
Definition RayCast (c : b3Cloth) (input : b3RayCastInput) (triangleIndex : nat)
    : option (option b3RayCastOutput) :=
  if decide (triangleIndex < triangleCount (m_mesh c))%nat then
    t ← triangles (m_mesh c) !! triangleIndex;
    x1 ← vertex_position c (v1 t);
    x2 ← vertex_position c (v2 t);
    x3 ← vertex_position c (v3 t);
    Some (b3RayCast input x1 x2 x3)
  else None.

(** [triangle0] and [output0]; [None] is the value [~0]. *)
Record ray_best : Type := mkRayBest {
  triangle0 : option nat;
  output0_fraction : float32;
  output0_normal : b3Vec3
}.

Definition ray_step (c : b3Cloth) (input : b3RayCastInput) (best : ray_best)
    (i : nat) : option ray_best :=
  sub ← RayCast c input i;
  Some match sub with
       | Some subOutput =>
         if decide (fraction subOutput < output0_fraction best)
         then mkRayBest (Some i) (fraction subOutput) (rc_normal subOutput)
         else best
       | None => best
       end.

(** [b3Cloth::RayCastSingle]: [Some (Some output)] for true, [Some None]
    for false. *)
Definition RayCastSingle (c : b3Cloth) (p1 p2 : b3Vec3)
    : option (option b3ClothRayCastSingleOutput) :=
  let input := mkRayCastInput p1 p2 1 in
  best ← for_each (ray_step c input) (mkRayBest None B3_MAX_FLOAT b3Vec3_zero)
           (seq 0 (triangleCount (m_mesh c)));
  Some match triangle0 best with
       | Some t => Some (mkRayCastSingleOutput t (output0_fraction best)
                           (output0_normal best))
       | None => None
       end.

(** The state of the search after the triangles below [n]. *)
Definition nearest_below (c : b3Cloth) (input : b3RayCastInput) (n : nat)
    (best : ray_best) : Prop :=
  (triangle0 best = None /\ output0_fraction best = B3_MAX_FLOAT /\
   forall j sub, (j < n)%nat -> RayCast c input j = Some (Some sub) ->
     B3_MAX_FLOAT <= fraction sub) \/
  (exists k sub, (k < n)%nat /\ triangle0 best = Some k /\
     RayCast c input k = Some (Some sub) /\
     output0_fraction best = fraction sub /\ output0_normal best = rc_normal sub /\
     fraction sub < B3_MAX_FLOAT /\
     forall j subj, (j < n)%nat -> RayCast c input j = Some (Some subj) ->
       fraction sub <= fraction subj /\ ((j < k)%nat -> fraction sub < fraction subj)).

Lemma ray_loop_nearest (c : b3Cloth) (input : b3RayCastInput) (n : nat)
    (best : ray_best) :
  for_each (ray_step c input) (mkRayBest None B3_MAX_FLOAT b3Vec3_zero) (seq 0 n)
    = Some best ->
  nearest_below c input n best /\
  forall j, (j < n)%nat -> is_Some (RayCast c input j).
Proof.
  revert best. induction n as [|n IH]; intros best.
  - intros [= <-]. split; [|intros j Hj; lia].
    left. repeat split. intros j sub Hj. lia.
  - rewrite seq_S, for_each_app. cbn [plus].
    destruct (for_each _ _ (seq 0 n)) as [b0|]; cbn; [|done].
    destruct (IH b0 eq_refl) as (Hinv & Hall). clear IH.
    unfold ray_step at 1.
    destruct (RayCast c input n) as [sub|] eqn:Hn; cbn; [|done].
    intros [= <-]. split.
    2:{ intros j Hj. destruct (decide (j = n)) as [->|Hne]; [by rewrite Hn|].
        apply Hall. lia. }
    destruct sub as [subOutput|].
    + destruct Hinv as [(Ht & Hf & Hmax)|(k & sub & Hk & Ht & Hsub & Hf & Hnorm & Hlt & Hmin)].
      * rewrite Hf. destruct (decide (fraction subOutput < B3_MAX_FLOAT)) as [Hc|Hc].
        -- right. exists n, subOutput. repeat split; try done; try lia.
           ++ destruct (decide (j = n)) as [->|Hne].
              ** assert (subj = subOutput) as -> by congruence. apply Qcle_refl.
              ** apply Qclt_le_weak. eapply Qclt_le_trans; [exact Hc|].
                 apply (Hmax j); [lia|done].
           ++ intros Hj. eapply Qclt_le_trans; [exact Hc|]. by apply (Hmax j).
        -- left. cbn. repeat split; try done.
           intros j sub Hj Hr. destruct (decide (j = n)) as [->|Hne].
           ++ assert (sub = subOutput) as -> by congruence. by apply Qcnot_lt_le.
           ++ apply (Hmax j); [lia|done].
      * rewrite Hf. destruct (decide (fraction subOutput < fraction sub)) as [Hc|Hc].
        -- right. exists n, subOutput. repeat split; try done; try lia.
           ++ by eapply Qclt_trans.
           ++ destruct (decide (j = n)) as [->|Hne].
              ** assert (subj = subOutput) as -> by congruence. apply Qcle_refl.
              ** apply Qclt_le_weak. eapply Qclt_le_trans; [exact Hc|].
                 apply (Hmin j); [lia|done].
           ++ intros Hj. eapply Qclt_le_trans; [exact Hc|]. by apply (Hmin j).
        -- right. exists k, sub. repeat split; try done; try lia.
           ++ destruct (decide (j = n)) as [->|Hne].
              ** assert (subj = subOutput) as -> by congruence. by apply Qcnot_lt_le.
              ** apply (Hmin j); [lia|done].
           ++ intros Hj. apply (Hmin j); [lia|done|done].
    + destruct Hinv as [(Ht & Hf & Hmax)|(k & sub & Hk & Ht & Hsub & Hf & Hnorm & Hlt & Hmin)].
      * left. repeat split; try done. intros j sub Hj Hr.
        destruct (decide (j = n)) as [->|Hne]; [congruence|].
        apply (Hmax j); [lia|done].
      * right. exists k, sub. repeat split; try done; try lia.
        -- destruct (decide (j = n)) as [->|Hne]; [congruence|].
           apply (Hmin j); [lia|done].
        -- intros Hj. destruct (decide (j = n)) as [->|Hne]; [congruence|].
           apply (Hmin j); [lia|done|done].
Qed.

(** X9. When [RayCastSingle] returns, every triangle was tested.  It
    answers false exactly when no triangle is hit at a fraction below
    [B3_MAX_FLOAT]; otherwise it reports a triangle that is hit, with the
    fraction and normal of that hit, whose fraction is least among all
    hits, and the first such triangle when several hits tie. *)
Theorem RayCastSingle_nearest (c : b3Cloth) (p1 p2 : b3Vec3)
    (r : option b3ClothRayCastSingleOutput) :
  RayCastSingle c p1 p2 = Some r ->
  let input := mkRayCastInput p1 p2 1 in
  (forall j, (j < triangleCount (m_mesh c))%nat -> is_Some (RayCast c input j)) /\
  (r = None <->
     forall j sub, RayCast c input j = Some (Some sub) ->
       B3_MAX_FLOAT <= fraction sub) /\
  (forall output, r = Some output ->
     exists sub, RayCast c input (triangle output) = Some (Some sub) /\
       rs_fraction output = fraction sub /\ rs_normal output = rc_normal sub /\
       fraction sub < B3_MAX_FLOAT /\
       forall j subj, RayCast c input j = Some (Some subj) ->
         fraction sub <= fraction subj /\
         ((j < triangle output)%nat -> fraction sub < fraction subj)).
Proof.
  unfold RayCastSingle. cbn zeta.
  set (input := mkRayCastInput p1 p2 1).
  destruct (for_each _ _ _) as [best|] eqn:Hloop; cbn; [|done].
  intros [= <-].
  apply ray_loop_nearest in Hloop as (Hinv & Hall).
  assert (Hrange : forall j sub, RayCast c input j = Some sub ->
            (j < triangleCount (m_mesh c))%nat).
  { intros j sub. unfold RayCast. by destruct (decide _). }
  split; [exact Hall|].
  destruct Hinv as [(Ht & Hf & Hmax)|(k & sub & Hk & Ht & Hsub & Hf & Hnorm & Hlt & Hmin)];
    rewrite Ht.
  - split; [|done]. split; [|done]. intros _ j sub Hr.
    apply (Hmax j); [by eapply Hrange|done].
  - split.
    + split; [done|]. intros Hmax. exfalso.
      by apply (Qclt_not_le _ _ Hlt), (Hmax k).
    + intros output [= <-]. cbn. exists sub. repeat split; try done.
      * apply (Hmin j); [by eapply Hrange|done].
      * intros Hj. apply (Hmin j); [by eapply Hrange|done|done].
Qed.

(** ** What the loops over the particle list keep *)

(** [q'] is [q] with another contact record. *)
Definition same_but_contact (q q' : b3Particle) : Prop :=
  q' = set_bodyContact (m_bodyContact q') q.

(** [q'] has the mass and the velocity of [q]. *)
Definition same_motion (q q' : b3Particle) : Prop :=
  m_mass q' = m_mass q /\ m_velocity q' = m_velocity q.

(** The term of a particle pointer in [GetEnergy]. *)
Definition kinetic (blocks : list b3Particle) (p : nat) : float32 :=
  match blocks !! p with
  | Some q => m_mass q * b3Dot (m_velocity q) (m_velocity q)
  | None => 0
  end.

(** The solver [b3Cloth::Solve] builds. *)
Definition solver_of (c : b3Cloth) : b3ClothSolver :=
  mkClothSolver (m_particleList c) (m_forceList c)
    (filter (fun p => is_active (m_particleBlocks c) p = true) (m_particleList c)).

Definition is_dynamic (blocks : list b3Particle) (p : nat) : Prop :=
  exists q, blocks !! p = Some q /\ m_type q = e_dynamicParticle.

#[local] Instance is_dynamic_dec (blocks : list b3Particle) (p : nat) :
  Decision (is_dynamic blocks p).
Proof.
  unfold is_dynamic. destruct (blocks !! p) as [q|].
  - destruct (decide (m_type q = e_dynamicParticle)) as [H|H].
    + left. by exists q.
    + right. intros (q' & [= <-] & Hq). done.
  - right. by intros (q' & [=] & _).
Defined.

Lemma Forall2_diagonal {A : Type} (R : A -> A -> Prop) (l : list A) :
  (forall a, R a a) -> Forall2 R l l.
Proof. intros H. induction l; constructor; auto. Qed.

Lemma foldl_alter_related (R : b3Particle -> b3Particle -> Prop)
    (body : nat -> b3Particle -> b3Particle) (l : list nat)
    (blocks acc : list b3Particle) :
  (forall i q q', R q q' -> R q (body i q')) ->
  Forall2 R blocks acc ->
  Forall2 R blocks (foldl (fun b p => alter (body p) p b) acc l).
Proof.
  intros Hbody. revert acc. induction l as [|p l IH]; intros acc H; [done|].
  cbn [foldl]. apply IH. apply Forall2_alter_r; [done|].
  intros q q' _ _ Hq. by apply Hbody.
Qed.

Lemma for_each_particle_related (R : b3Particle -> b3Particle -> Prop)
    (body : nat -> b3Particle -> b3Particle) (c : b3Cloth) :
  (forall q, R q q) -> (forall i q q', R q q' -> R q (body i q')) ->
  Forall2 R (m_particleBlocks c) (m_particleBlocks (for_each_particle body c)).
Proof.
  intros Hrefl Hbody. unfold for_each_particle. cbn [m_particleBlocks set_blocks].
  apply foldl_alter_related; [done|]. by apply Forall2_diagonal.
Qed.

Lemma foldl_alter_notin (body : nat -> b3Particle -> b3Particle) (l : list nat)
    (blocks : list b3Particle) (p : nat) :
  p ∉ l -> foldl (fun b i => alter (body i) i b) blocks l !! p = blocks !! p.
Proof.
  revert blocks. induction l as [|i l IH]; intros blocks Hp; [done|].
  apply not_elem_of_cons in Hp as [Hne Hp]. cbn [foldl].
  rewrite IH by done. by rewrite list_lookup_alter_ne.
Qed.

Lemma refresh_same_but_contact (w : b3World) (self : nat) (q q' : b3Particle) :
  same_but_contact q q' -> same_but_contact q (refresh_contact w self q').
Proof.
  unfold same_but_contact. intros ->. unfold refresh_contact.
  by destruct (bestShape _).
Qed.

Lemma same_but_contact_motion (q q' : b3Particle) :
  same_but_contact q q' -> same_motion q q'.
Proof. unfold same_but_contact. intros ->. by split. Qed.

(** The search reads the type, the position and the radius of the particle
    only. *)
Lemma find_deepest_ext (w : b3World) (p p' : b3Particle) :
  m_type p' = m_type p -> m_position p' = m_position p ->
  m_radius p' = m_radius p -> find_deepest w p' = find_deepest w p.
Proof.
  intros Ht Hx Hr. unfold find_deepest. rewrite Hx, Hr.
  generalize (mkBest None 0 b3Vec3_zero b3Vec3_zero).
  induction (GetBodyList w) as [|body bodies IH]; intros best; [done|].
  cbn [foldl]. rewrite IH. f_equal. unfold test_body. by rewrite Ht.
Qed.

Lemma refresh_contact_twice (w : b3World) (self : nat) (p : b3Particle) :
  refresh_contact w self (refresh_contact w self p) = refresh_contact w self p.
Proof.
  assert (E : find_deepest w (refresh_contact w self p) = find_deepest w p).
  { apply find_deepest_ext; unfold refresh_contact;
      by destruct (bestShape (find_deepest w p)). }
  unfold refresh_contact at 1. rewrite E. unfold refresh_contact.
  destruct (bestShape (find_deepest w p)) as [shape|]; cbn; [|done].
  by destruct (active (m_bodyContact p)).
Qed.

Lemma refresh_active (w : b3World) (self : nat) (p : b3Particle) :
  active (m_bodyContact (refresh_contact w self p)) = true <->
  m_type p = e_dynamicParticle /\
  exists e, e ∈ reports w p /\ separation e.2 < 0.
Proof.
  unfold refresh_contact.
  destruct (find_deepest_cases w p)
    as [[-> Hnone]|(Hdyn & k & sh & out & Hk & -> & Hneg & Hmin)]; cbn.
  - split; [done|]. intros (Hdyn & e & He & Hlt).
    destruct Hnone as [Hnd|Hall]; [done|].
    exfalso. by apply (Qclt_not_le _ _ Hlt), Hall.
  - split; [|done]. intros _. split; [done|]. exists (sh, out).
    split; [exact (list_elem_of_lookup_2 _ _ _ Hk)|exact Hneg].
Qed.

Lemma filter_disjoint_length {A : Type} (P Q : A -> Prop)
    `{forall a, Decision (P a)} `{forall a, Decision (Q a)} (l : list A) :
  (forall a, a ∈ l -> P a -> Q a -> False) ->
  (length (filter P l) + length (filter Q l) <= length l)%nat.
Proof.
  induction l as [|a l IH]; intros Hd; [done|].
  rewrite !filter_cons.
  assert (IH' : (length (filter P l) + length (filter Q l) <= length l)%nat).
  { apply IH. intros b Hb. apply Hd. by right. }
  destruct (decide (P a)) as [HP|HP], (decide (Q a)) as [HQ|HQ]; cbn [length];
    try lia.
  exfalso. apply (Hd a); [by left|done|done].
Qed.

Lemma Qc_sum_cons (a : Qc) (l : list Qc) : Qc_sum (a :: l) = a + Qc_sum l.
Proof. reflexivity. Qed.

Lemma Qc_square_nonneg (a : Qc) : 0 <= a * a.
Proof.
  destruct (Qclt_le_dec a 0) as [Hneg|Hpos].
  - replace (a * a) with ((- a) * (- a)) by ring.
    assert (H : 0 <= - a).
    { apply Qclt_le_weak in Hneg. apply Qcopp_le_compat in Hneg.
      by replace (- 0) with 0 in Hneg by ring. }
    by apply Qcmult_nonneg_nonneg.
  - by apply Qcmult_nonneg_nonneg.
Qed.

Lemma b3Dot_self_nonneg (a : b3Vec3) : 0 <= b3Dot a a.
Proof.
  unfold b3Dot. repeat apply Qcplus_nonneg_nonneg; apply Qc_square_nonneg.
Qed.

Lemma Qc_sum_nonneg (l : list Qc) : (forall a, a ∈ l -> 0 <= a) -> 0 <= Qc_sum l.
Proof.
  induction l as [|a l IH]; intros H; [apply Qcle_refl|].
  rewrite Qc_sum_cons. apply Qcplus_nonneg_nonneg.
  - apply H. by left.
  - apply IH. intros b Hb. apply H. by right.
Qed.

Lemma GetEnergy_sum (c : b3Cloth) :
  GetEnergy c =
  (1 / 2) * Qc_sum (map (kinetic (m_particleBlocks c)) (m_particleList c)).
Proof.
  unfold GetEnergy. f_equal.
  assert (H : forall l a,
    foldl (fun E p => match m_particleBlocks c !! p with
                      | Some q => E + m_mass q * b3Dot (m_velocity q) (m_velocity q)
                      | None => E
                      end) a l
    = a + Qc_sum (map (kinetic (m_particleBlocks c)) l)).
  { induction l as [|p l IH]; intros a; cbn [foldl map].
    - cbn. ring.
    - rewrite IH, Qc_sum_cons. unfold kinetic at 2.
      destruct (m_particleBlocks c !! p); ring. }
  rewrite H. ring.
Qed.

Lemma kinetic_related (blocks blocks' : list b3Particle) (p : nat) :
  Forall2 same_motion blocks blocks' -> kinetic blocks' p = kinetic blocks p.
Proof.
  intros H. unfold kinetic.
  pose proof (proj1 (Forall2_lookup _ _ _) H p) as Hp.
  destruct Hp as [q q' [Hm Hv]|]; [|done]. by rewrite Hm, Hv.
Qed.

(** ** More on the contact refresh *)

(** X10. [UpdateBodyContacts] writes contact records and nothing else: the
    mesh, the lists, the forces, gravity and the world are kept, every
    particle keeps all its members but [m_bodyContact], and a particle that
    is not in the particle list is not touched.  Without a world attached
    the call returns at once and the cloth is unchanged, so contacts that
    were active stay active. *)
Theorem UpdateBodyContacts_frame (c : b3Cloth) :
  m_mesh (UpdateBodyContacts c) = m_mesh c /\
  m_density (UpdateBodyContacts c) = m_density c /\
  m_particleList (UpdateBodyContacts c) = m_particleList c /\
  m_vertexParticles (UpdateBodyContacts c) = m_vertexParticles c /\
  m_forceList (UpdateBodyContacts c) = m_forceList c /\
  m_gravity (UpdateBodyContacts c) = m_gravity c /\
  m_world (UpdateBodyContacts c) = m_world c /\
  Forall2 same_but_contact (m_particleBlocks c)
    (m_particleBlocks (UpdateBodyContacts c)) /\
  (forall p, p ∉ m_particleList c ->
     m_particleBlocks (UpdateBodyContacts c) !! p = m_particleBlocks c !! p) /\
  (m_world c = None -> UpdateBodyContacts c = c).
Proof.
  unfold UpdateBodyContacts. destruct (m_world c) as [w|] eqn:Hw.
  - repeat split; try done.
    + apply for_each_particle_related.
      * intros q. by destruct q.
      * intros i q q'. apply refresh_same_but_contact.
    + intros p Hp. unfold for_each_particle. cbn [m_particleBlocks set_blocks].
      by apply foldl_alter_notin.
  - repeat split; try done. apply Forall2_diagonal. intros q. by destruct q.
Qed.

(** X11. A second refresh with nothing moved changes nothing: the search
    reads only the type, position and radius of a particle, and a contact
    that was just refreshed is carried over as it is. *)
Theorem UpdateBodyContacts_idempotent (c : b3Cloth) :
  NoDup (m_particleList c) ->
  UpdateBodyContacts (UpdateBodyContacts c) = UpdateBodyContacts c.
Proof.
  intros Hnd. unfold UpdateBodyContacts at 2 3.
  destruct (m_world c) as [w|] eqn:Hw.
  - unfold UpdateBodyContacts. cbn [m_world for_each_particle set_blocks]. rewrite Hw.
    unfold for_each_particle, set_blocks.
    cbn [m_mesh m_density m_particleBlocks m_particleList m_vertexParticles
         m_forceList m_gravity m_world].
    f_equal. apply list_eq. intros i.
    rewrite !foldl_alter_lookup by done.
    destruct (decide (i ∈ m_particleList c)); [|done].
    destruct (m_particleBlocks c !! i) as [p|]; [|done]. cbn.
    by rewrite refresh_contact_twice.
  - unfold UpdateBodyContacts. by rewrite Hw.
Qed.

(** X12. With a world attached, the contacts [Step] hands to the solver
    are those of the listed particles that are dynamic and penetrate a
    shape of a static body; the solver gets every particle and every force
    of the lists.  No particle is both in contact and not dynamic, so the
    contacts and the particles that are not dynamic together are no more
    than the particles. *)
Theorem Step_solver_contacts (c : b3Cloth) (w : b3World) :
  m_world c = Some w -> NoDup (m_particleList c) ->
  let c1 := UpdateContacts c in
  (forall (solver_Solve : solver_Solve_t) dt vi pi, 0 < dt ->
     Step solver_Solve c dt vi pi =
     for_each_particle (fun _ => clear_inputs)
       (set_blocks c1
          (solver_Solve (solver_of c1) dt (m_gravity c) vi pi (m_particleBlocks c1)))) /\
  solver_particles (solver_of c1) = m_particleList c /\
  solver_forces (solver_of c1) = m_forceList c /\
  (forall id, id ∈ solver_bodyContacts (solver_of c1) <->
     id ∈ m_particleList c /\
     exists p, m_particleBlocks c !! id = Some p /\
       m_type p = e_dynamicParticle /\
       exists e, e ∈ reports w p /\ separation e.2 < 0) /\
  (length (solver_bodyContacts (solver_of c1))
   + length (filter (fun id => ~ is_dynamic (m_particleBlocks c1) id)
               (m_particleList c))
   <= length (m_particleList c))%nat.
Proof.
  intros Hw Hnd. cbn zeta.
  assert (HL : m_particleList (UpdateContacts c) = m_particleList c).
  { unfold UpdateContacts, UpdateBodyContacts. by rewrite Hw. }
  assert (Hg : m_gravity (UpdateContacts c) = m_gravity c).
  { unfold UpdateContacts, UpdateBodyContacts. by rewrite Hw. }
  assert (Hf : m_forceList (UpdateContacts c) = m_forceList c).
  { unfold UpdateContacts, UpdateBodyContacts. by rewrite Hw. }
  assert (Hblock : forall id, id ∈ m_particleList c ->
            m_particleBlocks (UpdateContacts c) !! id =
            refresh_contact w id <$> m_particleBlocks c !! id).
  { intros id Hid. unfold UpdateContacts, UpdateBodyContacts. rewrite Hw.
    rewrite for_each_particle_lookup by done. by rewrite decide_True. }
  assert (Hact : forall id, id ∈ m_particleList c ->
            is_active (m_particleBlocks (UpdateContacts c)) id = true <->
            exists p, m_particleBlocks c !! id = Some p /\
              m_type p = e_dynamicParticle /\
              exists e, e ∈ reports w p /\ separation e.2 < 0).
  { intros id Hid. unfold is_active. rewrite (Hblock id Hid).
    destruct (m_particleBlocks c !! id) as [p|]; cbn.
    - rewrite refresh_active. split.
      + intros (Hd & He). by exists p.
      + intros (p' & [= <-] & Hd & He). done.
    - split; [done|]. by intros (p' & [=] & _). }
  split; [|split; [|split; [|split]]].
  - intros solver_Solve dt vi pi Hdt. unfold Step. rewrite decide_True by done.
    by rewrite Hg.
  - exact HL.
  - exact Hf.
  - intros id. unfold solver_of. cbn [solver_bodyContacts].
    rewrite list_elem_of_filter, HL. split.
    + intros (Ha & Hid). split; [done|]. by apply Hact.
    + intros (Hid & Hp). split; [|done]. by apply Hact.
  - unfold solver_of. cbn [solver_bodyContacts]. rewrite HL.
    apply filter_disjoint_length. intros id Hid Ha Hnd'.
    apply Hnd'. apply Hact in Ha as (p & Hp & Hd & _); [|done].
    exists (refresh_contact w id p). rewrite (Hblock id Hid), Hp. split; [done|].
    by destruct (refresh_contact_fields w id p) as (-> & _).
Qed.

(** ** Energy *)

(** X13. [GetEnergy] is half the sum of [mass * |velocity|^2] over the
    particle list.  It is not negative when no listed particle has a
    negative mass and zero when every listed particle is at rest; a contact
    refresh leaves it as it is, and so does a [Step] whose [dt] is not
    positive. *)
Theorem GetEnergy_kinetic (c : b3Cloth) :
  GetEnergy c =
    (1 / 2) * Qc_sum (map (kinetic (m_particleBlocks c)) (m_particleList c)) /\
  ((forall p q, p ∈ m_particleList c -> m_particleBlocks c !! p = Some q ->
      0 <= m_mass q) -> 0 <= GetEnergy c) /\
  ((forall p q, p ∈ m_particleList c -> m_particleBlocks c !! p = Some q ->
      m_velocity q = b3Vec3_zero) -> GetEnergy c = 0) /\
  GetEnergy (UpdateBodyContacts c) = GetEnergy c /\
  (forall (solver_Solve : solver_Solve_t) dt vi pi, ~ 0 < dt ->
     GetEnergy (Step solver_Solve c dt vi pi) = GetEnergy c).
Proof.
  assert (Hupd : Forall2 same_motion (m_particleBlocks c)
                   (m_particleBlocks (UpdateBodyContacts c)) /\
                 m_particleList (UpdateBodyContacts c) = m_particleList c).
  { unfold UpdateBodyContacts. destruct (m_world c) as [w|].
    - split; [|done]. apply for_each_particle_related.
      + by intros q.
      + intros i q q' [Hm Hv]. unfold same_motion, refresh_contact.
        by destruct (bestShape _).
    - split; [|done]. by apply Forall2_diagonal. }
  destruct Hupd as [Hupd HL].
  split; [apply GetEnergy_sum|]. split; [|split; [|split]].
  - intros Hmass. rewrite GetEnergy_sum.
    apply Qcmult_nonneg_nonneg; [done|]. apply Qc_sum_nonneg.
    intros a (p & -> & Hp)%list_elem_of_fmap. unfold kinetic.
    destruct (m_particleBlocks c !! p) as [q|] eqn:Hq; [|apply Qcle_refl].
    apply Qcmult_nonneg_nonneg; [by eapply Hmass|apply b3Dot_self_nonneg].
  - intros Hrest. rewrite GetEnergy_sum.
    rewrite (Qc_sum_map_ext _ (fun _ => 0)); [rewrite Qc_sum_map_zero; ring|].
    intros p Hp. unfold kinetic.
    destruct (m_particleBlocks c !! p) as [q|] eqn:Hq; [|done].
    rewrite (Hrest p q Hp Hq). unfold b3Dot. cbn. ring.
  - rewrite !GetEnergy_sum, HL. f_equal. apply Qc_sum_map_ext.
    intros p _. by apply kinetic_related.
  - intros solver_Solve dt vi pi Hdt. unfold Step. rewrite decide_False by done.
    rewrite !GetEnergy_sum. unfold UpdateContacts.
    cbn [m_particleList for_each_particle set_blocks]. rewrite HL. f_equal.
    apply Qc_sum_map_ext. intros p _.
    rewrite <- (kinetic_related _ _ p Hupd).
    apply kinetic_related.
    apply (for_each_particle_related same_motion (fun _ => clear_inputs)).
    + by intros q.
    + by intros i q q' [Hm Hv].
Qed.

End WithWorld.

(** ** A two-triangle quad *)

Definition quad_mesh : b3ClothMesh :=
  mkMesh [mkVec3 0 0 0; mkVec3 1 0 0; mkVec3 1 1 0; mkVec3 0 1 0]
    [mkTriangle 0 1 2; mkTriangle 0 2 3] [].

(** The area of a triangle of the plane z = 0 (no square root needed). *)
Definition planar_area (a b c : b3Vec3) : float32 :=
  let w := vz (b3Cross (vsub b a) (vsub c a)) in
  (1 / 2) * (if decide (0 <= w) then w else - w).

Definition quad_def : b3ClothDef := mkClothDef (Some quad_mesh) 1 1 1 0.

Abbreviation quad_cloth := (b3Cloth_new nat unit planar_area quad_def).

Example quad_unique_edges :
  map edge_pair (b3FindUniqueEdges quad_mesh)
  = [(0, 1); (1, 2); (2, 0); (2, 3); (3, 0)]%nat.
Proof. reflexivity. Qed.

Example quad_shared_edges :
  b3FindSharedEdges quad_mesh = [mkSharedEdge 2 0 1 3].
Proof. reflexivity. Qed.

Lemma quad_cloth_built : is_Some quad_cloth.
Proof. apply (bool_decide_unpack _). vm_compute. exact I. Qed.

Lemma b3Cloth_new_mass_witness :
  exists c, quad_cloth = Some c /\
    total_mass nat unit c = density quad_def * surface_area planar_area quad_mesh.
Proof.
  destruct quad_cloth_built as [c E].
  exists c. split; [exact E|].
  destruct (b3Cloth_new_mass nat unit planar_area quad_def) as [H _].
  destruct (H c E) as (Hm & _ & _ & _ & _ & _ & Ht & _).
  injection Hm as Hm. rewrite Hm. exact Ht.
Defined.

Lemma b3FindUniqueEdges_once_witness :
  exists c, quad_cloth = Some c /\
    exists fds others, m_forceList nat unit c = others ++ reverse fds /\
      length fds = 5%nat.
Proof.
  destruct quad_cloth_built as [c E].
  exists c. split; [exact E|].
  destruct (b3FindUniqueEdges_once nat unit planar_area quad_mesh)
    as (_ & _ & _ & _ & _ & _ & _ & H).
  destruct (H quad_def c eq_refl E) as (fds & others & Hf & Hl & _).
  exists fds, others. split; [exact Hf|exact Hl].
Defined.

(** ** A particle over a static body with three shapes *)

(** Shape 1 reports separation -1, shape 2 reports -2, shape 3 touches
    (separation 0), any other shape does not answer. *)
Definition TestSphere0 (shape : nat) (s1 : b3Sphere) (xf : unit)
    : option b3TestSphereOutput :=
  match shape with
  | 1%nat => Some (mkTestSphereOutput (- 1) (mkVec3 0 (- 1) 0) (mkVec3 0 1 0))
  | 2%nat => Some (mkTestSphereOutput (- 2) (mkVec3 (- 1) 0 0) (mkVec3 1 0 0))
  | 3%nat => Some (mkTestSphereOutput 0 (mkVec3 0 0 1) (mkVec3 0 0 1))
  | _ => None
  end.

Definition b3Perp0 (v : b3Vec3) : b3Vec3 := mkVec3 (vz v) (vx v) (vy v).

Definition body0 (shapes : list nat) : b3Body nat unit :=
  mkBody nat unit e_staticBody tt shapes.

Definition GetBody0 (shape : nat) : b3Body nat unit := body0 [shape].

Definition GetLocalPoint0 (body : b3Body nat unit) (x : b3Vec3) : b3Vec3 := x.

Definition contact_on (shape : nat) (on : bool) (impulse : float32)
    : b3ParticleBodyContact nat :=
  mkBodyContact nat on 0 (Some shape) (mkVec3 0 (- 1) 0) b3Vec3_zero
    b3Vec3_zero (mkVec3 1 0 0) (mkVec3 0 0 1) impulse (mkVec2 impulse 0).

Definition particle_with (t : b3ParticleType) (k : b3ParticleBodyContact nat)
    : b3Particle nat :=
  mkParticle nat t b3Vec3_zero (mkVec3 1 0 0) (mkVec3 0 1 0) (mkVec3 0 0 1)
    1 1 (Q2Qc (1 # 20)) (Some 0%nat) 0 b3Vec3_zero k.

Definition cloth_over (shapes : list nat) (p : b3Particle nat) : b3Cloth nat unit :=
  mkCloth nat unit quad_mesh 1 [p] [0%nat] [0%nat] [] (mkVec3 0 (- 1) 0)
    (Some (mkWorld nat unit [body0 shapes])).

Abbreviation refresh0 c :=
  (UpdateBodyContacts nat unit TestSphere0 b3Perp0 GetBody0 GetLocalPoint0 c).

Example refresh_picks_deepest :
  (fun p => (active nat (m_bodyContact nat p), s2 nat (m_bodyContact nat p)))
    <$> m_particleBlocks nat unit
          (refresh0 (cloth_over [1; 2; 3]%nat
                       (particle_with e_dynamicParticle (contact_on 1 false 1))))
  = [(true, Some 2%nat)].
Proof. reflexivity. Qed.

Example refresh_touching_is_inactive :
  (fun p => active nat (m_bodyContact nat p))
    <$> m_particleBlocks nat unit
          (refresh0 (cloth_over [3]%nat
                       (particle_with e_dynamicParticle (contact_on 3 true 1))))
  = [false].
Proof. reflexivity. Qed.

Lemma NoDup_one (i : nat) : NoDup [i].
Proof. apply NoDup_singleton. Qed.

Lemma UpdateBodyContacts_deepest_witness :
  NoDup [0%nat] /\
  exists p', m_particleBlocks nat unit
      (refresh0 (cloth_over [1; 2; 3]%nat
                   (particle_with e_dynamicParticle (contact_on 1 false 1))))
      !! 0%nat = Some p' /\
    (m_type nat (particle_with e_dynamicParticle (contact_on 1 false 1))
       <> e_dynamicParticle ->
     active nat (m_bodyContact nat p') = false).
Proof.
  split; [exact (NoDup_one 0)|].
  destruct (UpdateBodyContacts_deepest nat unit TestSphere0 b3Perp0 GetBody0
              GetLocalPoint0
              (cloth_over [1; 2; 3]%nat
                 (particle_with e_dynamicParticle (contact_on 1 false 1)))
              0 (particle_with e_dynamicParticle (contact_on 1 false 1))
              (NoDup_one 0) (list_elem_of_here 0%nat []) eq_refl)
    as (_ & H).
  destruct (H (mkWorld nat unit [body0 [1; 2; 3]%nat]) eq_refl)
    as (p' & Hp' & _ & Hnd & _).
  exists p'. split; [exact Hp'|exact Hnd].
Defined.

Lemma UpdateBodyContacts_impulse_witness :
  NoDup [0%nat] /\
  exists p', m_particleBlocks nat unit
      (refresh0 (cloth_over [1; 2; 3]%nat
                   (particle_with e_dynamicParticle (contact_on 1 false 1))))
      !! 0%nat = Some p' /\
    (active nat (m_bodyContact nat p') = true ->
     active nat (contact_on 1 false 1) = false ->
     normalImpulse nat (m_bodyContact nat p') = 0 /\
     tangentImpulse nat (m_bodyContact nat p') = b3Vec2_zero).
Proof.
  split; [exact (NoDup_one 0)|].
  destruct (UpdateBodyContacts_impulse nat unit TestSphere0 b3Perp0 GetBody0
              GetLocalPoint0
              (cloth_over [1; 2; 3]%nat
                 (particle_with e_dynamicParticle (contact_on 1 false 1)))
              0 (particle_with e_dynamicParticle (contact_on 1 false 1))
              (NoDup_one 0) (list_elem_of_here 0%nat []) eq_refl)
    as (_ & H).
  destruct (H (mkWorld nat unit [body0 [1; 2; 3]%nat]) eq_refl)
    as (p' & Hp' & _ & Hz & _).
  exists p'. split; [exact Hp'|exact Hz].
Defined.

(** A cloth with one particle and no world attached, as the constructor
    leaves it. *)
Definition cloth_alone (p : b3Particle nat) : b3Cloth nat unit :=
  mkCloth nat unit quad_mesh 1 [p] [0%nat] [0%nat] [] (mkVec3 0 (- 1) 0) None.

(** A kinematic particle whose record is active, in a cloth without a
    world: the refresh returns at once and the record is still active. *)
Lemma refresh_without_world_keeps_active :
  ~ not_dynamic_is_inactive nat unit TestSphere0 b3Perp0 GetBody0 GetLocalPoint0.
Proof.
  intros H.
  assert (Hoff : active nat (contact_on 1 true 1) = false); [|discriminate Hoff].
  apply (H (cloth_alone (particle_with e_kinematicParticle (contact_on 1 true 1)))
           0%nat
           (particle_with e_kinematicParticle (contact_on 1 true 1))
           (particle_with e_kinematicParticle (contact_on 1 true 1))
           (NoDup_one 0) (list_elem_of_here 0%nat []) eq_refl eq_refl).
  discriminate.
Qed.

(** The record is active on shape 1 with impulse 1; shape 2 is deeper, so
    the refreshed contact is on shape 2, and it keeps the impulse. *)
Lemma warm_start_across_shapes :
  ~ never_warm_starts_across_shapes nat unit TestSphere0 b3Perp0 GetBody0
      GetLocalPoint0.
Proof.
  intros H.
  destruct (H (cloth_over [1; 2; 3]%nat
                 (particle_with e_dynamicParticle (contact_on 1 true 1)))
              (mkWorld nat unit [body0 [1; 2; 3]%nat]) 0%nat
              (particle_with e_dynamicParticle (contact_on 1 true 1))
              (particle_with e_dynamicParticle
                 (mkBodyContact nat true 0 (Some 2%nat) (mkVec3 (- 1) 0 0)
                    b3Vec3_zero (mkVec3 (- 1) 0 0) (mkVec3 0 (- 1) 0)
                    (b3Cross (mkVec3 0 (- 1) 0) (mkVec3 (- 1) 0 0))
                    1 (mkVec2 1 0)))
              eq_refl (NoDup_one 0) (list_elem_of_here 0%nat []) eq_refl)
    as [Hn _].
  - vm_compute. reflexivity.
  - reflexivity.
  - discriminate.
  - discriminate Hn.
Qed.

(** A stand-in solver for the examples: it moves every particle by
    [dt * velocity]. *)
Definition solver0 : solver_Solve_t nat :=
  fun _ dt _ _ _ blocks =>
    map (fun p => mkParticle nat (m_type nat p)
                    (vadd (m_position nat p) (vscale dt (m_velocity nat p)))
                    (m_velocity nat p) (m_force nat p) (m_translation nat p)
                    (m_mass nat p) (m_invMass nat p) (m_radius nat p)
                    (m_vertex nat p) (m_solverId nat p) (m_x nat p)
                    (m_bodyContact nat p)) blocks.

Abbreviation Step0 c dt :=
  (Step nat unit TestSphere0 b3Perp0 GetBody0 GetLocalPoint0 solver0 c dt 8 2).

Example Step_moves_and_clears :
  (fun p => (m_position nat p, m_force nat p, m_translation nat p))
    <$> m_particleBlocks nat unit
          (Step0 (cloth_over [3]%nat
                    (particle_with e_dynamicParticle (contact_on 3 false 0))) 1)
  = [(mkVec3 1 0 0, b3Vec3_zero, b3Vec3_zero)].
Proof. vm_compute. reflexivity. Qed.


(** ** Shared edges of the quad, and of a stack of triangles *)

Lemma quad_wound : consistently_wound (triangles quad_mesh).
Proof.
  intros i j t t' a b c c' Hi Hj (k & Hk & Ha & Hb & _) (k' & Hk' & Ha' & Hb' & _).
  destruct i as [|[|i]], j as [|[|j]]; try done;
    cbn in Hi, Hj; try (by rewrite lookup_nil in Hi);
    try (by rewrite lookup_nil in Hj);
    injection Hi as <-; injection Hj as <-;
    destruct k as [|[|[|k]]], k' as [|[|[|k']]]; try lia;
    vm_compute in Ha, Hb, Ha', Hb'; lia.
Qed.

Lemma b3FindSharedEdges_adjacent_witness :
  exists se, se ∈ b3FindSharedEdges quad_mesh /\
    se_v1 se = 2%nat /\ se_v2 se = 0%nat /\ nsv1 se = 1%nat.
Proof.
  destruct (b3FindSharedEdges_adjacent quad_mesh) as (_ & H).
  destruct (H 0 1 (mkTriangle 0 1 2) (mkTriangle 0 2 3) 2 0 1 3)%nat
    as (se & Hin & E1 & E2 & E3 & _).
  - lia.
  - reflexivity.
  - reflexivity.
  - exists 2%nat. repeat split. lia.
  - exists 0%nat. repeat split. lia.
  - by exists se.
Defined.

Lemma b3FindSharedEdges_count_witness :
  consistently_wound (triangles quad_mesh) /\
  (length (b3FindSharedEdges quad_mesh) <= 3 * triangleCount quad_mesh)%nat.
Proof.
  split; [exact quad_wound|].
  destruct (b3FindSharedEdges_count quad_mesh) as (_ & H).
  exact (H quad_wound).
Defined.

(** Five copies of one triangle, wound alternately: every pair of opposite
    winding shares three edges, eighteen records for fifteen triangle
    edges. *)
Definition stacked_mesh : b3ClothMesh :=
  mkMesh [mkVec3 0 0 0; mkVec3 1 0 0; mkVec3 0 1 0]
    [mkTriangle 0 1 2; mkTriangle 2 1 0; mkTriangle 0 1 2; mkTriangle 2 1 0;
     mkTriangle 0 1 2] [].

Example stacked_shared_edges :
  length (b3FindSharedEdges stacked_mesh) = 18%nat /\
  (3 * triangleCount stacked_mesh = 15)%nat.
Proof. split; reflexivity. Qed.

(** ** The quad, built by hand, and the other properties on it *)

Lemma b3Cloth_new_springs_witness :
  exists c, quad_cloth = Some c /\
    length (m_forceList nat unit c) =
      (length (b3FindUniqueEdges (m_mesh nat unit c))
       + length (b3FindSharedEdges (m_mesh nat unit c))
       + length (sewingLines (m_mesh nat unit c)))%nat.
Proof.
  destruct quad_cloth_built as [c E].
  exists c. split; [exact E|].
  destruct (b3Cloth_new_springs nat unit planar_area quad_def c E)
    as (s & b & w & _ & _ & _ & _ & H).
  exact H.
Defined.

(** A mesh whose fourth vertex is in no triangle. *)
Definition loose_mesh : b3ClothMesh :=
  mkMesh [mkVec3 0 0 0; mkVec3 1 0 0; mkVec3 1 1 0; mkVec3 0 1 0]
    [mkTriangle 0 1 2] [].

Lemma b3Cloth_new_faults_witness :
  b3Cloth_new nat unit planar_area (mkClothDef (Some loose_mesh) 1 1 1 0) = None.
Proof.
  destruct (b3Cloth_new_faults nat unit planar_area
              (mkClothDef (Some loose_mesh) 1 1 1 0)) as (_ & _ & H & _).
  apply (H loose_mesh 3%nat eq_refl).
  - vm_compute. lia.
  - intros t Ht. apply list_elem_of_singleton in Ht as ->. cbn. lia.
Defined.

Lemma GetVertexParticle_vertex_witness :
  exists c, quad_cloth = Some c /\
    length (m_particleList nat unit c) = vertexCount (m_mesh nat unit c).
Proof.
  destruct quad_cloth_built as [c E].
  exists c. split; [exact E|].
  destruct (GetVertexParticle_vertex nat unit planar_area quad_def c E) as (H & _).
  exact H.
Defined.

Definition particle_at (x : b3Vec3) (v : nat) : b3Particle nat :=
  mkParticle nat e_dynamicParticle x (mkVec3 0 0 1) b3Vec3_zero b3Vec3_zero
    1 1 (Q2Qc (1 # 20)) (Some v) 0 b3Vec3_zero (contact_on 1 true 1).

Definition quad_built : b3Cloth nat unit :=
  mkCloth nat unit quad_mesh 1
    [particle_at (mkVec3 0 0 0) 0; particle_at (mkVec3 1 0 0) 1;
     particle_at (mkVec3 1 1 0) 2; particle_at (mkVec3 0 1 0) 3]
    [3; 2; 1; 0]%nat [0; 1; 2; 3]%nat [] b3Vec3_zero None.

(** A stand-in ray test: every triangle is hit, at the fraction given by
    the x coordinate of its third corner. *)
Definition b3RayCast0 (input : b3RayCastInput) (x1 x2 x3 : b3Vec3)
    : option b3RayCastOutput :=
  Some (mkRayCastOutput (vx x3) (mkVec3 0 0 1)).

Definition B3_MAX_FLOAT0 : float32 :=
  Q2Qc (340282346638528859811704183484516925440 # 1).

Example quad_ray :
  RayCastSingle nat unit b3RayCast0 B3_MAX_FLOAT0 quad_built
    (mkVec3 0 0 1) (mkVec3 0 0 (- 1))
  = Some (Some (mkRayCastSingleOutput 1 0 (mkVec3 0 0 1))).
Proof. vm_compute. reflexivity. Qed.

Lemma RayCastSingle_nearest_witness :
  exists sub,
    RayCast nat unit b3RayCast0 quad_built
      (mkRayCastInput (mkVec3 0 0 1) (mkVec3 0 0 (- 1)) 1) 1 = Some (Some sub) /\
    fraction sub < B3_MAX_FLOAT0.
Proof.
  destruct (RayCastSingle_nearest nat unit b3RayCast0 B3_MAX_FLOAT0 quad_built
              (mkVec3 0 0 1) (mkVec3 0 0 (- 1)) _ quad_ray) as (_ & _ & H).
  destruct (H _ eq_refl) as (sub & Hsub & _ & _ & Hlt & _).
  exists sub. split; [exact Hsub|exact Hlt].
Defined.

Lemma UpdateBodyContacts_frame_witness :
  m_world nat unit quad_built = None /\ refresh0 quad_built = quad_built.
Proof.
  split; [reflexivity|].
  destruct (UpdateBodyContacts_frame nat unit TestSphere0 b3Perp0 GetBody0
              GetLocalPoint0 quad_built) as (_ & _ & _ & _ & _ & _ & _ & _ & _ & H).
  exact (H eq_refl).
Defined.

Lemma UpdateBodyContacts_idempotent_witness :
  NoDup [0%nat] /\
  refresh0 (refresh0 (cloth_over [1; 2; 3]%nat
                        (particle_with e_dynamicParticle (contact_on 1 true 1))))
  = refresh0 (cloth_over [1; 2; 3]%nat
                (particle_with e_dynamicParticle (contact_on 1 true 1))).
Proof.
  split; [exact (NoDup_one 0)|].
  exact (UpdateBodyContacts_idempotent nat unit TestSphere0 b3Perp0 GetBody0
           GetLocalPoint0
           (cloth_over [1; 2; 3]%nat
              (particle_with e_dynamicParticle (contact_on 1 true 1)))
           (NoDup_one 0)).
Defined.

Lemma Step_solver_contacts_witness :
  NoDup [0%nat] /\
  solver_particles
    (solver_of nat unit
       (UpdateContacts nat unit TestSphere0 b3Perp0 GetBody0 GetLocalPoint0
          (cloth_over [1; 2; 3]%nat
             (particle_with e_kinematicParticle (contact_on 1 true 1)))))
  = [0%nat].
Proof.
  split; [exact (NoDup_one 0)|].
  destruct (Step_solver_contacts nat unit TestSphere0 b3Perp0 GetBody0
              GetLocalPoint0
              (cloth_over [1; 2; 3]%nat
                 (particle_with e_kinematicParticle (contact_on 1 true 1)))
              (mkWorld nat unit [body0 [1; 2; 3]%nat]) eq_refl (NoDup_one 0))
    as (_ & H & _).
  exact H.
Defined.

(** A kinematic particle whose record is active from before: the refresh
    turns the contact off, and the solver gets no contact. *)
Example kinematic_contact_dropped :
  solver_bodyContacts
    (solver_of nat unit
       (refresh0 (cloth_over [1; 2; 3]%nat
                    (particle_with e_kinematicParticle (contact_on 1 true 1)))))
  = [].
Proof. reflexivity. Qed.

Lemma GetEnergy_kinetic_witness :
  ~ 0 < (0 : float32) /\
  GetEnergy nat unit
    (Step0 (cloth_over [1; 2; 3]%nat
              (particle_with e_dynamicParticle (contact_on 1 true 1))) 0)
  = GetEnergy nat unit
      (cloth_over [1; 2; 3]%nat
         (particle_with e_dynamicParticle (contact_on 1 true 1))).
Proof.
  assert (H0 : ~ 0 < (0 : float32)) by (intros H; discriminate H).
  split; [exact H0|].
  destruct (GetEnergy_kinetic nat unit TestSphere0 b3Perp0 GetBody0 GetLocalPoint0
              (cloth_over [1; 2; 3]%nat
                 (particle_with e_dynamicParticle (contact_on 1 true 1))))
    as (_ & _ & _ & _ & H).
  exact (H solver0 0 8%nat 2%nat H0).
Defined.

End Cloth.

(* ===================================================================== *)
(** * src/bounce/dynamics/cloth/cloth_solver.cpp *)
(* ===================================================================== *)

Module ClothSolver.

Import ClothH (b3ParticleType, e_staticParticle, e_kinematicParticle,
  e_dynamicParticle).

(** ** Outcomes *)

(** What a call can end in: a value; a failed [B3_ASSERT]; a division by
    zero, where the C++ goes on with an infinity or a NaN that the exact
    scalars cannot represent; or the bookkeeping value of a loop model that
    was given too little fuel (shown below not to occur). *)
Inductive result (A : Type) : Type :=
  | Ok (a : A)
  | AssertionFailed
  | NonFinite
  | OutOfFuel.

Arguments Ok {A} a.
Arguments AssertionFailed {A}.
Arguments NonFinite {A}.
Arguments OutOfFuel {A}.

Definition bind {A B : Type} (r : result A) (k : A -> result B) : result B :=
  match r with
  | Ok a => k a
  | AssertionFailed => AssertionFailed
  | NonFinite => NonFinite
  | OutOfFuel => OutOfFuel
  end.

#[global] Instance result_bind : MBind result := fun A B k r => bind r k.

#[global] Instance result_ret : MRet result := @Ok.

#[global] Instance result_fmap : FMap result :=
  fun A B g r => bind r (fun a => Ok (g a)).

(** [B3_ASSERT(c)]. *)
Definition B3_ASSERT (P : Prop) `{Decision P} : result unit :=
  if decide P then Ok tt else AssertionFailed.

(** [a / b] on [float32]. *)
Definition fdiv (a b : float32) : result float32 :=
  if decide (b = 0) then NonFinite else Ok (a / b).

(** ** Dense vectors, diagonal and symmetric block matrices *)

(** Modelled from the spec: dense_vec3.h, diag_mat33.h and sparse_sym_mat33.h
    are not among the sources.  A [b3DenseVec3] is the array of its [n]
    3-vectors and a [b3DiagMat33] the array of its [n] diagonal blocks, with
    the element-wise operators; a symmetric block matrix stores the blocks
    of its upper triangle, and "accessing block (i,j) with i>j returns the
    transpose of (j,i)". *)
Abbreviation b3DenseVec3 := (list b3Vec3).

Abbreviation b3DiagMat33 := (list b3Mat33).

Record b3SymMat33 : Type := mkSymMat33 {
  M : nat;
  N : nat;
  values : nat -> nat -> b3Mat33
}.

Abbreviation b3SparseSymMat33 := b3SymMat33.

Definition dv_zero (n : nat) : b3DenseVec3 := replicate n b3Vec3_zero.

Definition dv_add (a b : b3DenseVec3) : b3DenseVec3 := zip_with vadd a b.

Definition dv_sub (a b : b3DenseVec3) : b3DenseVec3 := zip_with vsub a b.

Definition dv_scale (s : float32) (a : b3DenseVec3) : b3DenseVec3 :=
  map (vscale s) a.

Definition dv_dot (a b : b3DenseVec3) : float32 :=
  foldr Qcplus 0 (zip_with b3Dot a b).

Definition dm_identity (n : nat) : b3DiagMat33 := replicate n b3Mat33_identity.

Definition dm_sub (A B : b3DiagMat33) : b3DiagMat33 := zip_with msub A B.

Definition dm_mul (A : b3DiagMat33) (v : b3DenseVec3) : b3DenseVec3 :=
  zip_with mmulv A v.

Definition sym_zero (n : nat) : b3SymMat33 :=
  mkSymMat33 n n (fun _ _ => b3Mat33_zero).

(** [A(i, j)] read. *)
Definition at_ (A : b3SymMat33) (i j : nat) : b3Mat33 :=
  if decide (i <= j)%nat then values A i j else b3Transpose (values A j i).

(** [A(i, j) = f(A(i, j))] for a block of the upper triangle ([i <= j]). *)
Definition update (A : b3SymMat33) (i j : nat) (f : b3Mat33 -> b3Mat33)
    : b3SymMat33 :=
  mkSymMat33 (M A) (N A)
    (fun i' j' => if decide (i' = i /\ j' = j) then f (values A i j)
                  else values A i' j').

(** [v[column]]; the source asserts [A.N == v.n]. *)
Definition dv_at (v : b3DenseVec3) (i : nat) : b3Vec3 :=
  default b3Vec3_zero (v !! i).

(** [b3Mul(out, A, v)] and [operator*], as in the source. *)
Definition b3Mul_row (A : b3SymMat33) (v : b3DenseVec3) (row : nat) : b3Vec3 :=
  foldl (fun out column => vadd out (mmulv (at_ A row column) (dv_at v column)))
    b3Vec3_zero (seq 0 (N A)).

Definition b3Mul (A : b3SymMat33) (v : b3DenseVec3) : b3DenseVec3 :=
  map (b3Mul_row A v) (seq 0 (M A)).

(** [A.Diagonal(out)]. *)
Definition Diagonal (A : b3SymMat33) (n : nat) : b3DiagMat33 :=
  map (fun i => at_ A i i) (seq 0 n).

(** ** Solver state *)

(** The particle fields the solver reads and writes. *)
Record b3Particle : Type := mkParticle {
  m_type : b3ParticleType;
  m_position : b3Vec3;
  m_velocity : b3Vec3;
  m_force : b3Vec3;
  m_mass : float32;
  m_translation : b3Vec3;
  m_x : b3Vec3
}.

(** [struct b3BodyContact]; the particle pointer [p1] is the particle's
    [m_solverId], its index in [m_particles]. *)
Record b3BodyContact : Type := mkBodyContact {
  p1 : nat;
  s : float32;
  n : b3Vec3;
  t1 : b3Vec3;
  t2 : b3Vec3;
  Fn : float32;
  Ft1 : float32;
  Ft2 : float32;
  t1_active : bool;
  t2_active : bool
}.

(** [struct b3AccelerationConstraint].  Members the source leaves unset
    ([p], [q] when [ndof] does not need them) are zero here; they are never
    read. *)
Record b3AccelerationConstraint : Type := mkConstraint {
  i1 : nat;
  ndof : nat;
  p : b3Vec3;
  q : b3Vec3;
  z : b3Vec3
}.

Record b3ClothSolverData : Type := mkSolverData {
  x : b3DenseVec3;
  v : b3DenseVec3;
  f : b3DenseVec3;
  dfdx : b3SymMat33;
  dfdv : b3SymMat33;
  dt : float32;
  invdt : result float32
}.

Section WithForces.

(** force.h is not among the sources: a force is an object with the two
    virtual methods the solver calls.  [Initialize] updates the force from
    the solver data, [Apply] writes into the solver data. *)
Variable b3Force : Type.
Variable Initialize : b3Force -> b3ClothSolverData -> b3Force.
Variable Apply : b3Force -> b3ClothSolverData -> b3ClothSolverData.

(** [class b3ClothSolver] after the [Add] calls: [m_particleCount],
    [m_forceCount], [m_contactCount] are the lengths. *)
Record b3ClothSolver : Type := mkClothSolver {
  m_particles : list b3Particle;
  m_forces : list b3Force;
  m_contacts : list b3BodyContact
}.

Definition m_particleCount (solver : b3ClothSolver) : nat :=
  length (m_particles solver).

Definition InitializeForces (forces : list b3Force) (data : b3ClothSolverData)
    : list b3Force :=
  map (fun force => Initialize force data) forces.

(** [Apply] receives the solver data through a pointer to const: it can
    write the arrays and matrices the data points to, not [dt] or [invdt]. *)
Definition apply_force (data : b3ClothSolverData) (force : b3Force)
    : b3ClothSolverData :=
  let d := Apply force data in
  mkSolverData (x d) (v d) (f d) (dfdx d) (dfdv d) (dt data) (invdt data).

Definition ApplyForces (forces : list b3Force) (data : b3ClothSolverData)
    : b3ClothSolverData :=
  foldl apply_force data forces.

(** [InitializeConstraints]: the first loop, then the second. *)
Definition particle_constraints (particles : list b3Particle)
    : list b3AccelerationConstraint :=
  omap (fun ip : nat * b3Particle =>
          if decide (m_type ip.2 <> e_dynamicParticle)
          then Some (mkConstraint ip.1 0 b3Vec3_zero b3Vec3_zero b3Vec3_zero)
          else None)
    (imap pair particles).

Definition contact_constraint (pc : b3BodyContact) : b3AccelerationConstraint :=
  if t1_active pc && t2_active pc
  then mkConstraint (p1 pc) 0 (n pc) b3Vec3_zero b3Vec3_zero
  else
    let ac := mkConstraint (p1 pc) 2 (n pc) b3Vec3_zero b3Vec3_zero in
    let ac := if t1_active pc
              then mkConstraint (i1 ac) 1 (p ac) (t1 pc) (z ac) else ac in
    if t2_active pc
    then mkConstraint (i1 ac) 1 (p ac) (t2 pc) (z ac) else ac.

Definition InitializeConstraints (solver : b3ClothSolver)
    : list b3AccelerationConstraint :=
  particle_constraints (m_particles solver)
  ++ map contact_constraint (m_contacts solver).

(** The body of the loop of [Compute_S_z]. *)
Definition constrain (Sz : b3DiagMat33 * b3DenseVec3)
    (ac : b3AccelerationConstraint) : b3DiagMat33 * b3DenseVec3 :=
  let ip := i1 ac in
  let zs := <[ip := z ac]> Sz.2 in
  let S_ := Sz.1 in
  let S_ := if decide (ndof ac = 2%nat)
            then <[ip := msub b3Mat33_identity (b3Outer (p ac) (p ac))]> S_
            else S_ in
  let S_ := if decide (ndof ac = 1%nat)
            then <[ip := msub (msub b3Mat33_identity (b3Outer (p ac) (p ac)))
                           (b3Outer (q ac) (q ac))]> S_
            else S_ in
  let S_ := if decide (ndof ac = 0%nat) then <[ip := b3Mat33_zero]> S_ else S_ in
  (S_, zs).

Definition Compute_S_z (count : nat) (constraints : list b3AccelerationConstraint)
    : b3DiagMat33 * b3DenseVec3 :=
  foldl constrain (dm_identity count, dv_zero count) constraints.

(** The loop nest [for i < n: for j in [i, n)] with body
    [A(i, j) = g(A(i, j))]. *)
Definition for_upper (count : nat) (g : nat -> nat -> b3Mat33 -> b3Mat33)
    (A : b3SymMat33) : b3SymMat33 :=
  foldl (fun A i =>
           foldl (fun A j => update A i j (g i j)) A (seq i (count - i)))
    A (seq 0 count).

Definition mass_of (particles : list b3Particle) (i : nat) : float32 :=
  match particles !! i with
  | Some pt => m_mass pt
  | None => 0
  end.

(** [Compute_A_b]; [A] comes in freshly constructed. *)
Definition Compute_A (particles : list b3Particle) (data : b3ClothSolverData)
    (A : b3SparseSymMat33) : b3SparseSymMat33 :=
  let count := length particles in
  let h := dt data in
  (* A = 0 *)
  let A := for_upper count (fun _ _ _ => b3Mat33_zero) A in
  (* A += M *)
  let A := foldl (fun A i =>
                    update A i i (fun D => madd D (b3Diagonal (mass_of particles i))))
             A (seq 0 count) in
  (* A += - h * dfdv - h * h * dfdx *)
  for_upper count
    (fun i j D => madd D (madd (mscale (- h) (at_ (dfdv data) i j))
                            (mscale (- h * h) (at_ (dfdx data) i j)))) A.

Definition Compute_b (data : b3ClothSolverData) (f v y : b3DenseVec3)
    : b3DenseVec3 :=
  let h := dt data in
  dv_scale h (dv_add (dv_add f (dv_scale h (b3Mul (dfdx data) v)))
                (b3Mul (dfdx data) y)).

(** ** The MPCG solve *)

(** [const float32 tolerance = 1.e-4f] and [const u32 max_iterations = 100]. *)
Definition tolerance : float32 := Q2Qc (1 # 10000).

Definition max_iterations : nat := 100.

(** The body of the "Invert" loop on one diagonal block [D]; [D.x.x] is the
    x component of the column [D.x]. *)
Definition invert_block (D : b3Mat33) : result b3Mat33 :=
  _ ← B3_ASSERT (0 < b3Det (cx D) (cy D) (cz D));
  _ ← B3_ASSERT (vx (cx D) <> 0);
  xx ← fdiv 1 (vx (cx D));
  _ ← B3_ASSERT (vy (cy D) <> 0);
  yy ← fdiv 1 (vy (cy D));
  _ ← B3_ASSERT (vz (cz D) <> 0);
  zz ← fdiv 1 (vz (cz D));
  Ok (b3Diagonal3 xx yy zz).

Fixpoint invert_blocks (P : b3DiagMat33) : result b3DiagMat33 :=
  match P with
  | [] => Ok []
  | D :: rest =>
    D' ← invert_block D;
    rest' ← invert_blocks rest;
    Ok (D' :: rest')
  end.

(** "P = diag(A)", then "Invert". *)
Definition preconditioner (count : nat) (A : b3SparseSymMat33) : result b3DiagMat33 :=
  invert_blocks (Diagonal A count).

(** The variables the main loop carries. *)
Record mpcg_state : Type := mkState {
  st_x : b3DenseVec3;
  st_r : b3DenseVec3;
  st_p : b3DenseVec3;
  st_delta_new : float32;
  st_iteration : nat
}.

(** One pass of the loop body after the two checks. *)
Definition mpcg_step (A : b3SparseSymMat33) (S_ inv_P : b3DiagMat33)
    (st : mpcg_state) : result mpcg_state :=
  (* s = S * (A * p) *)
  let s_ := dm_mul S_ (b3Mul A (st_p st)) in
  (* alpha = delta_new / dot(p, s) *)
  alpha ← fdiv (st_delta_new st) (dv_dot (st_p st) s_);
  (* x = x + alpha * p *)
  let x_ := dv_add (st_x st) (dv_scale alpha (st_p st)) in
  (* r = r - alpha * s *)
  let r_ := dv_sub (st_r st) (dv_scale alpha s_) in
  (* h = inv_P * r *)
  let h := dm_mul inv_P r_ in
  let delta_old := st_delta_new st in
  (* delta_new = dot(r, h) *)
  let delta_new := dv_dot r_ h in
  (* beta = delta_new / delta_old *)
  beta ← fdiv delta_new delta_old;
  (* p = S * (h + beta * p) *)
  let p_ := dm_mul S_ (dv_add h (dv_scale beta (st_p st))) in
  Ok (mkState x_ r_ p_ delta_new (S (st_iteration st))).

(** "Convergence check." *)
Definition converged (b_delta : float32) (st : mpcg_state) : Prop :=
  st_delta_new st <= tolerance * tolerance * b_delta.

#[global] Instance converged_dec (b_delta : float32) (st : mpcg_state) :
  Decision (converged b_delta st).
Proof. unfold converged. apply _. Defined.

(** The main loop [for (;;)].  [fuel] bounds the number of passes of the
    model; [B3_ASSERT(b3IsValid(delta_new))] holds of every rational. *)
Fixpoint mpcg_loop (fuel : nat) (A : b3SparseSymMat33) (S_ inv_P : b3DiagMat33)
    (b_delta : float32) (st : mpcg_state) : result mpcg_state :=
  match fuel with
  | O => OutOfFuel
  | S fuel' =>
    (* Divergence check. *)
    if decide (max_iterations <= st_iteration st)%nat then Ok st
    (* Convergence check. *)
    else if decide (converged b_delta st) then Ok st
    else st' ← mpcg_step A S_ inv_P st; mpcg_loop fuel' A S_ inv_P b_delta st'
  end.

Arguments mpcg_loop : simpl never.

(** The values before the loop. *)
Definition mpcg_b_delta (count : nat) (A : b3SparseSymMat33) (b : b3DenseVec3)
    (S_ inv_P : b3DiagMat33) (zs : b3DenseVec3) : float32 :=
  let I := dm_identity count in
  (* b^ = S * (b - A * (I - S) * z) *)
  let b_hat := dm_mul S_ (dv_sub b (b3Mul A (dm_mul (dm_sub I S_) zs))) in
  dv_dot b_hat (dm_mul inv_P b_hat).

Definition mpcg_init (count : nat) (A : b3SparseSymMat33) (b : b3DenseVec3)
    (S_ inv_P : b3DiagMat33) (zs y : b3DenseVec3) : mpcg_state :=
  let I := dm_identity count in
  (* x = S * y + (I - S) * z *)
  let x_ := dv_add (dm_mul S_ y) (dm_mul (dm_sub I S_) zs) in
  (* r = S * (b - A * x) *)
  let r_ := dm_mul S_ (dv_sub b (b3Mul A x_)) in
  (* p = S * (P^-1 * r) *)
  let p_ := dm_mul S_ (dm_mul inv_P r_) in
  mkState x_ r_ p_ (dv_dot r_ p_) 0.

(** [b3ClothSolver::Solve(x, iterations, A, b, S, z, y)]: the pair of the
    two outputs. *)
Definition Solve_Ax_b (count : nat) (A : b3SparseSymMat33) (b : b3DenseVec3)
    (S_ : b3DiagMat33) (zs y : b3DenseVec3) : result (b3DenseVec3 * nat) :=
  inv_P ← preconditioner count A;
  st ← mpcg_loop (S max_iterations) A S_ inv_P
         (mpcg_b_delta count A b S_ inv_P zs)
         (mpcg_init count A b S_ inv_P zs y);
  Ok (st_x st, st_iteration st).

(** ** One solver step *)

(** The gather loop. *)
Definition weight (gravity : b3Vec3) (pt : b3Particle) : b3Vec3 :=
  if decide (m_type pt = e_dynamicParticle)
  then vadd (m_force pt) (vscale (m_mass pt) gravity)
  else m_force pt.

(** "Apply contact position correction". *)
Definition correct_position (sy : b3DenseVec3) (c : b3BodyContact) : b3DenseVec3 :=
  alter (fun y => vsub y (vscale (s c) (n c))) (p1 c) sy.

Definition set_state (position velocity solution : b3Vec3) (pt : b3Particle)
    : b3Particle :=
  mkParticle (m_type pt) position velocity (m_force pt) (m_mass pt)
    (m_translation pt) solution.

Definition set_forces (force : b3Vec3) (c : b3BodyContact) : b3BodyContact :=
  mkBodyContact (p1 c) (s c) (n c) (t1 c) (t2 c)
    (b3Dot force (n c)) (b3Dot force (t1 c)) (b3Dot force (t2 c))
    (t1_active c) (t2_active c).

(** Everything [Solve(dt, gravity)] computes before the MPCG call. *)
Record assembled : Type := mkAssembled {
  sy : b3DenseVec3;
  sx0 : b3DenseVec3;
  forces : list b3Force;
  data : b3ClothSolverData;
  S_z : b3DiagMat33 * b3DenseVec3;
  A : b3SparseSymMat33;
  b : b3DenseVec3
}.

Definition gathered (solver : b3ClothSolver) (dt0 : float32) (gravity : b3Vec3)
    : b3ClothSolverData :=
  let count := m_particleCount solver in
  mkSolverData (map m_position (m_particles solver))
    (map m_velocity (m_particles solver))
    (map (weight gravity) (m_particles solver))
    (sym_zero count) (sym_zero count) dt0 (fdiv 1 dt0).

Definition assemble (solver : b3ClothSolver) (dt0 : float32) (gravity : b3Vec3)
    : assembled :=
  let count := m_particleCount solver in
  let data0 := gathered solver dt0 gravity in
  let sy := foldl correct_position (map m_translation (m_particles solver))
              (m_contacts solver) in
  let sx0 := map m_x (m_particles solver) in
  let forces := InitializeForces (m_forces solver) data0 in
  let data := ApplyForces forces data0 in
  let S_z := Compute_S_z count (InitializeConstraints solver) in
  let A := Compute_A (m_particles solver) data (sym_zero count) in
  let b := Compute_b data (f data) (v data) sy in
  mkAssembled sy sx0 forces data S_z A b.

(** [b3ClothSolver::Solve(dt, gravity)]: the solver with its particles and
    contacts written back, and [b3_clothSolverIterations]. *)
Definition Solve (solver : b3ClothSolver) (dt0 : float32) (gravity : b3Vec3)
    : result (b3ClothSolver * nat) :=
  let count := m_particleCount solver in
  let a := assemble solver dt0 gravity in
  xi ← Solve_Ax_b count (A a) (b a) (S_z a).1 (S_z a).2 (sx0 a);
  let h := dt0 in
  (* sv = sv + x; sx = sx + h * sv + sy *)
  let sv := dv_add (v (data a)) xi.1 in
  let sx := dv_add (dv_add (x (data a)) (dv_scale h sv)) (sy a) in
  let particles :=
    imap (fun i => set_state (dv_at sx i) (dv_at sv i) (dv_at xi.1 i))
      (m_particles solver) in
  (* f = A * x - b *)
  let force := dv_sub (b3Mul (A a) xi.1) (b a) in
  let contacts :=
    map (fun c => set_forces (dv_at force (p1 c)) c) (m_contacts solver) in
  Ok (mkClothSolver particles (forces a) contacts, xi.2).

(** ** The preconditioner *)

Lemma invert_block_cases (D : b3Mat33) :
  (0 < b3Det (cx D) (cy D) (cz D) /\ vx (cx D) <> 0 /\ vy (cy D) <> 0 /\
   vz (cz D) <> 0 /\
   invert_block D =
     Ok (b3Diagonal3 (1 / vx (cx D)) (1 / vy (cy D)) (1 / vz (cz D)))) \/
  ((~ 0 < b3Det (cx D) (cy D) (cz D) \/ vx (cx D) = 0 \/ vy (cy D) = 0 \/
    vz (cz D) = 0) /\
   invert_block D = AssertionFailed).
Proof.
  unfold invert_block, B3_ASSERT, fdiv.
  destruct (decide (0 < b3Det (cx D) (cy D) (cz D))) as [Hdet|Hdet]; cbn;
    [|right; split; [by left|done]].
  destruct (decide (vx (cx D) <> 0)) as [Hx|Hx]; cbn;
    [|right; split; [right; left; by apply dec_stable|done]].
  rewrite (decide_False (P := vx (cx D) = 0)) by done. cbn.
  destruct (decide (vy (cy D) <> 0)) as [Hy|Hy]; cbn;
    [|right; split; [right; right; left; by apply dec_stable|done]].
  rewrite (decide_False (P := vy (cy D) = 0)) by done. cbn.
  destruct (decide (vz (cz D) <> 0)) as [Hz|Hz]; cbn;
    [|right; split; [right; right; right; by apply dec_stable|done]].
  rewrite (decide_False (P := vz (cz D) = 0)) by done. cbn.
  left. by repeat split.
Qed.

Lemma invert_blocks_cases (P : b3DiagMat33) :
  (exists P', invert_blocks P = Ok P' /\
     Forall2 (fun D D' => invert_block D = Ok D') P P') \/
  (invert_blocks P = AssertionFailed /\
   exists D, D ∈ P /\ invert_block D = AssertionFailed).
Proof.
  induction P as [|D P IH].
  - left. exists []. by split.
  - cbn [invert_blocks].
    destruct (invert_block_cases D) as [(_ & _ & _ & _ & HD)|(_ & HD)].
    + rewrite HD. cbn.
      destruct IH as [(P' & HP & HF)|(HP & D0 & Hin & HD0)].
      * left. rewrite HP. cbn. eexists. split; [reflexivity|]. by constructor.
      * right. rewrite HP. cbn. split; [done|]. exists D0. split; [by right|done].
    + right. rewrite HD. cbn. split; [done|]. exists D. split; [by left|done].
Qed.


(** The inverse by cofactors: one over the determinant times the adjugate,
    whose rows are the cross products of the columns. *)
Definition cofactor_inverse (D : b3Mat33) : b3Mat33 :=
  mscale (1 / b3Det (cx D) (cy D) (cz D))
    (b3Transpose (mkMat33 (b3Cross (cy D) (cz D)) (b3Cross (cz D) (cx D))
                    (b3Cross (cx D) (cy D)))).

(** C3 as stated: the preconditioner holds, for each particle, the cofactor
    inverse of its diagonal block of [A]. *)
Definition preconditioner_is_block_inverse : Prop :=
  forall (count : nat) (A : b3SparseSymMat33) (inv_P : b3DiagMat33) (i : nat),
    preconditioner count A = Ok inv_P -> (i < count)%nat ->
    inv_P !! i = Some (cofactor_inverse (at_ A i i)).

(** C3, as the code has it.  The preconditioner holds, for each particle,
    the diagonal matrix of the reciprocals of the three diagonal entries of
    its diagonal block of [A]; the solve ends in a failed assertion exactly
    when some diagonal block has a determinant that is not positive or a
    zero diagonal entry, and in no other fault. *)
Theorem preconditioner_reciprocal_diagonal (count : nat) (A : b3SparseSymMat33) :
  (forall inv_P, preconditioner count A = Ok inv_P ->
     length inv_P = count /\
     forall i, (i < count)%nat ->
       inv_P !! i = Some (b3Diagonal3 (1 / vx (cx (at_ A i i)))
                            (1 / vy (cy (at_ A i i)))
                            (1 / vz (cz (at_ A i i)))) /\
       0 < b3Det (cx (at_ A i i)) (cy (at_ A i i)) (cz (at_ A i i)) /\
       vx (cx (at_ A i i)) <> 0 /\ vy (cy (at_ A i i)) <> 0 /\
       vz (cz (at_ A i i)) <> 0) /\
  (preconditioner count A = AssertionFailed <->
     exists i, (i < count)%nat /\
       (~ 0 < b3Det (cx (at_ A i i)) (cy (at_ A i i)) (cz (at_ A i i)) \/
        vx (cx (at_ A i i)) = 0 \/ vy (cy (at_ A i i)) = 0 \/
        vz (cz (at_ A i i)) = 0)) /\
  preconditioner count A <> NonFinite /\ preconditioner count A <> OutOfFuel.
Proof.
  unfold preconditioner, Diagonal.
  assert (Hok : forall inv_P,
    Forall2 (fun D D' => invert_block D = Ok D')
      (map (fun i => at_ A i i) (seq 0 count)) inv_P ->
    length inv_P = count /\
    forall i, (i < count)%nat ->
      inv_P !! i = Some (b3Diagonal3 (1 / vx (cx (at_ A i i)))
                           (1 / vy (cy (at_ A i i)))
                           (1 / vz (cz (at_ A i i)))) /\
      0 < b3Det (cx (at_ A i i)) (cy (at_ A i i)) (cz (at_ A i i)) /\
      vx (cx (at_ A i i)) <> 0 /\ vy (cy (at_ A i i)) <> 0 /\
      vz (cz (at_ A i i)) <> 0).
  { intros inv_P HF. split.
    - apply Forall2_length in HF. by rewrite length_map, length_seq in HF.
    - intros i Hi.
      assert (HD : map (fun i => at_ A i i) (seq 0 count) !! i = Some (at_ A i i)).
      { rewrite list_lookup_fmap. by rewrite (lookup_seq_lt 0 count i Hi). }
      destruct (Forall2_lookup_l _ _ _ _ _ HF HD) as (D' & HD' & Hinv).
      destruct (invert_block_cases (at_ A i i))
        as [(? & ? & ? & ? & HD1)|(_ & HD1)]; [|congruence].
      rewrite HD'. repeat split; try done. congruence. }
  destruct (invert_blocks_cases (map (fun i => at_ A i i) (seq 0 count)))
    as [(P' & HP & HF)|(HP & D & Hin & HD)]; rewrite HP.
  - split; [by intros inv_P [= <-]; apply Hok|].
    split; [|done]. split; [done|].
    intros (i & Hi & Hbad). exfalso.
    destruct (Hok P' HF) as (_ & Hall).
    destruct (Hall i Hi) as (_ & ? & ? & ? & ?).
    destruct Hbad as [?|[?|[?|?]]]; done.
  - split; [done|]. split; [|done]. split; [|done]. intros _.
    apply list_elem_of_fmap in Hin as (i & -> & Hi).
    apply elem_of_seq in Hi. exists i. split; [lia|].
    destruct (invert_block_cases (at_ A i i))
      as [(_ & _ & _ & _ & HD1)|(Hbad & _)]; [congruence|done].
Qed.

(** ** Termination of the main loop *)

(** [k] passes of the loop body, with no check in between. *)
Fixpoint mpcg_iterate (k : nat) (A : b3SparseSymMat33) (S_ inv_P : b3DiagMat33)
    (st : mpcg_state) : result mpcg_state :=
  match k with
  | O => Ok st
  | S k' => st' ← mpcg_step A S_ inv_P st; mpcg_iterate k' A S_ inv_P st'
  end.

(** The two tests that leave the loop. *)
Definition stops (b_delta : float32) (st : mpcg_state) : Prop :=
  (max_iterations <= st_iteration st)%nat \/ converged b_delta st.

Lemma mpcg_step_cases (A : b3SparseSymMat33) (S_ inv_P : b3DiagMat33)
    (st : mpcg_state) :
  (exists st', mpcg_step A S_ inv_P st = Ok st' /\
     st_iteration st' = S (st_iteration st)) \/
  mpcg_step A S_ inv_P st = NonFinite.
Proof.
  unfold mpcg_step, fdiv.
  destruct (decide (dv_dot (st_p st) _ = 0)); cbn; [by right|].
  destruct (decide (st_delta_new st = 0)); cbn; [by right|].
  left. eexists. by split.
Qed.

Lemma mpcg_iterate_iteration (k : nat) (A : b3SparseSymMat33)
    (S_ inv_P : b3DiagMat33) (st st' : mpcg_state) :
  mpcg_iterate k A S_ inv_P st = Ok st' ->
  st_iteration st' = (k + st_iteration st)%nat.
Proof.
  revert st. induction k as [|k IH]; intros st; cbn [mpcg_iterate].
  - by intros [= <-].
  - destruct (mpcg_step_cases A S_ inv_P st) as [(st1 & -> & Hit)| ->]; cbn; [|done].
    intros H. apply IH in H. lia.
Qed.

Lemma mpcg_loop_spec (A : b3SparseSymMat33) (S_ inv_P : b3DiagMat33)
    (b_delta : float32) (fuel : nat) (st : mpcg_state) :
  (max_iterations - st_iteration st < fuel)%nat ->
  mpcg_loop fuel A S_ inv_P b_delta st <> OutOfFuel /\
  mpcg_loop fuel A S_ inv_P b_delta st <> AssertionFailed /\
  forall st', mpcg_loop fuel A S_ inv_P b_delta st = Ok st' <->
    exists k, mpcg_iterate k A S_ inv_P st = Ok st' /\
      stops b_delta st' /\
      forall j, (j < k)%nat ->
        exists st_j, mpcg_iterate j A S_ inv_P st = Ok st_j /\
          ~ stops b_delta st_j.
Proof.
  revert st. induction fuel as [|fuel IH]; intros st Hfuel; [lia|].
  change (mpcg_loop (S fuel) A S_ inv_P b_delta st) with
    (if decide (max_iterations <= st_iteration st)%nat then Ok st
     else if decide (converged b_delta st) then Ok st
     else st' ← mpcg_step A S_ inv_P st; mpcg_loop fuel A S_ inv_P b_delta st').
  destruct (decide (max_iterations <= st_iteration st)%nat) as [Hcap|Hcap];
    [|destruct (decide (converged b_delta st)) as [Hconv|Hconv]].
  1, 2: (split; [done|]; split; [done|]; intros st'; split;
    [ intros [= <-]; exists 0%nat; split; [done|];
      split; [unfold stops; tauto|intros j Hj; lia]
    | intros ([|k] & Hk & Hstop & Hbefore);
      [ by injection Hk as <-
      | exfalso; destruct (Hbefore 0%nat) as (st0 & [= <-] & Hns); [lia|];
        apply Hns; unfold stops; tauto ] ]).
  destruct (mpcg_step_cases A S_ inv_P st) as [(st1 & Hstep & Hit)|Hstep];
    rewrite Hstep; cbn.
  - destruct (IH st1) as (Hof & Haf & Hok); [lia|].
    split; [exact Hof|]. split; [exact Haf|]. intros st'. rewrite Hok. split.
    + intros (k & Hk & Hstop & Hbefore). exists (S k). cbn [mpcg_iterate].
      rewrite Hstep. cbn. split; [exact Hk|]. split; [exact Hstop|].
      intros [|j] Hj.
      * exists st. split; [done|]. unfold stops. tauto.
      * cbn [mpcg_iterate]. rewrite Hstep. cbn. apply Hbefore. lia.
    + intros ([|k] & Hk & Hstop & Hbefore).
      * exfalso. injection Hk as <-. unfold stops in Hstop. tauto.
      * cbn [mpcg_iterate] in Hk. rewrite Hstep in Hk. cbn in Hk.
        exists k. split; [exact Hk|]. split; [exact Hstop|].
        intros j Hj. destruct (Hbefore (S j)) as (st_j & Hj' & Hns); [lia|].
        cbn [mpcg_iterate] in Hj'. rewrite Hstep in Hj'. by exists st_j.
  - split; [done|]. split; [done|]. intros st'. split; [done|].
    intros ([|k] & Hk & Hstop & Hbefore).
    + exfalso. injection Hk as <-. unfold stops in Hstop. tauto.
    + cbn [mpcg_iterate] in Hk. by rewrite Hstep in Hk.
Qed.



(** ** The assembled system *)

Ltac loop_cases :=
  repeat case_decide; try (exfalso; lia); destruct_and?; subst; try done.

Lemma row_loop_values (g : nat -> nat -> b3Mat33 -> b3Mat33) (i len : nat) :
  forall (lo : nat) (A : b3SymMat33) (a b : nat),
    values (foldl (fun A j => update A i j (g i j)) A (seq lo len)) a b =
    if decide (a = i /\ lo <= b < lo + len)%nat
    then g i b (values A i b) else values A a b.
Proof.
  induction len as [|len IH]; intros lo A a b.
  - cbn [seq foldl]. loop_cases.
  - cbn [seq foldl]. rewrite IH. cbn [values update]. loop_cases.
Qed.

Lemma for_upper_values_from (g : nat -> nat -> b3Mat33 -> b3Mat33)
    (count len : nat) :
  forall (lo : nat) (A : b3SymMat33) (a b : nat),
    values (foldl (fun A i =>
                     foldl (fun A j => update A i j (g i j)) A (seq i (count - i)))
              A (seq lo len)) a b =
    if decide (lo <= a < lo + len /\ a <= b < count)%nat
    then g a b (values A a b) else values A a b.
Proof.
  induction len as [|len IH]; intros lo A a b.
  - cbn [seq foldl]. loop_cases.
  - cbn [seq foldl]. rewrite IH, !row_loop_values. loop_cases.
Qed.

Lemma for_upper_values (g : nat -> nat -> b3Mat33 -> b3Mat33) (count : nat)
    (A : b3SymMat33) (a b : nat) :
  values (for_upper count g A) a b =
  if decide (a < count /\ a <= b < count)%nat
  then g a b (values A a b) else values A a b.
Proof. unfold for_upper. rewrite for_upper_values_from. loop_cases. Qed.

Lemma diagonal_loop_values (g : nat -> b3Mat33 -> b3Mat33) (len : nat) :
  forall (lo : nat) (A : b3SymMat33) (a b : nat),
    values (foldl (fun A i => update A i i (g i)) A (seq lo len)) a b =
    if decide (a = b /\ lo <= a < lo + len)%nat
    then g a (values A a a) else values A a b.
Proof.
  induction len as [|len IH]; intros lo A a b.
  - cbn [seq foldl]. loop_cases.
  - cbn [seq foldl]. rewrite IH. cbn [values update]. loop_cases.
Qed.

(** The stored blocks of [A] after [Compute_A_b], from a fresh [A]. *)
Lemma Compute_A_values (particles : list b3Particle) (data : b3ClothSolverData)
    (a b : nat) :
  values (Compute_A particles data (sym_zero (length particles))) a b =
  if decide (a < length particles /\ a <= b < length particles)%nat
  then madd (if decide (a = b)
             then madd b3Mat33_zero (b3Diagonal (mass_of particles a))
             else b3Mat33_zero)
         (madd (mscale (- dt data) (at_ (dfdv data) a b))
            (mscale (- dt data * dt data) (at_ (dfdx data) a b)))
  else b3Mat33_zero.
Proof.
  unfold Compute_A. cbn zeta.
  repeat first [ rewrite for_upper_values | rewrite diagonal_loop_values
               | progress cbn [values sym_zero] | progress loop_cases ].
Qed.

(** The bias of entry [i] of the translation buffer by the contacts on
    particle [i], in contact order. *)
Definition biased (i : nat) (contacts : list b3BodyContact) (y : b3Vec3) : b3Vec3 :=
  foldl (fun y c => if decide (p1 c = i) then vsub y (vscale (s c) (n c)) else y)
    y contacts.

Lemma correct_position_lookup (contacts : list b3BodyContact) :
  forall (ys : b3DenseVec3) (i : nat),
    foldl correct_position ys contacts !! i = biased i contacts <$> ys !! i.
Proof.
  induction contacts as [|c contacts IH]; intros ys i.
  - cbn. by destruct (ys !! i).
  - cbn [foldl]. rewrite IH. unfold correct_position, biased. cbn [foldl].
    destruct (decide (p1 c = i)) as [<-|Hne].
    + rewrite list_lookup_alter_eq. by destruct (ys !! p1 c).
    + by rewrite list_lookup_alter_ne.
Qed.

(** C2. For the system [Solve(dt, gravity)] assembles, with [h = dt]: the
    force buffer handed to the forces holds, per particle, the pending force
    plus [mass * gravity] for dynamic particles only; the translation buffer
    entry of a particle is its pending translation minus
    [separation * normal] for each contact on it; [A(i,i)] is
    [mass_i * I - h * dfdv(i,i) - h^2 * dfdx(i,i)], [A(i,j)] is
    [- h * dfdv(i,j) - h^2 * dfdx(i,j)] off the diagonal, only blocks of the
    upper triangle are stored and the others are read as transposes; and
    [b = h * (f + h * (dfdx * v) + dfdx * y)] over the buffers the forces
    left. *)
Theorem assemble_backward_Euler (solver : b3ClothSolver) (dt0 : float32)
    (gravity : b3Vec3) :
  let a := assemble solver dt0 gravity in
  let h := dt0 in
  let count := m_particleCount solver in
  data a = ApplyForces (InitializeForces (m_forces solver)
                          (gathered solver dt0 gravity))
             (gathered solver dt0 gravity) /\
  dt (data a) = dt0 /\
  (forall i pt, m_particles solver !! i = Some pt ->
     f (gathered solver dt0 gravity) !! i =
       Some (if decide (m_type pt = e_dynamicParticle)
             then vadd (m_force pt) (vscale (m_mass pt) gravity)
             else m_force pt) /\
     sy a !! i = Some (biased i (m_contacts solver) (m_translation pt)) /\
     at_ (A a) i i =
       msub (msub (b3Diagonal (m_mass pt)) (mscale h (at_ (dfdv (data a)) i i)))
         (mscale (h * h) (at_ (dfdx (data a)) i i))) /\
  (forall i j, (i < count)%nat -> (j < count)%nat -> i <> j ->
     at_ (A a) i j =
       msub (mscale (- h) (at_ (dfdv (data a)) i j))
         (mscale (h * h) (at_ (dfdx (data a)) i j)) /\
     at_ (A a) j i = b3Transpose (at_ (A a) i j)) /\
  (forall i j, (j < i)%nat -> values (A a) i j = b3Mat33_zero) /\
  b a = dv_scale h
          (dv_add (dv_add (f (data a))
                     (dv_scale h (b3Mul (dfdx (data a)) (v (data a)))))
             (b3Mul (dfdx (data a)) (sy a))).
Proof.
  cbn zeta.
  assert (Hdt : dt (data (assemble solver dt0 gravity)) = dt0).
  { unfold assemble. cbn [data]. unfold ApplyForces.
    generalize (InitializeForces (m_forces solver) (gathered solver dt0 gravity)).
    intros fs.
    assert (Hg : dt (gathered solver dt0 gravity) = dt0) by done.
    revert Hg. generalize (gathered solver dt0 gravity).
    induction fs as [|force fs IH]; intros d Hd; [done|].
    cbn [foldl]. by apply IH. }
  split; [done|]. split; [exact Hdt|].
  unfold assemble in *. cbn [data sy A b] in *.
  set (d := ApplyForces _ _) in *.
  split; [|split; [|split]].
  - intros i pt Hpt. split; [|split].
    + cbn [f gathered]. rewrite list_lookup_fmap, Hpt. done.
    + rewrite correct_position_lookup, list_lookup_fmap, Hpt. done.
    + unfold at_ at 1. rewrite decide_True by lia.
      unfold m_particleCount. rewrite Compute_A_values.
      apply lookup_lt_Some in Hpt as Hlt.
      rewrite decide_True by lia. rewrite decide_True by done.
      unfold mass_of. rewrite Hpt, Hdt.
      generalize (at_ (dfdv d) i i) (at_ (dfdx d) i i). intros Dv Dx.
      generalize (m_mass pt). intros m. vec_ring.
  - intros i j Hi Hj Hne. unfold m_particleCount in *.
    assert (Hup : forall a b, (a < b)%nat -> (b < length (m_particles solver))%nat ->
      values (Compute_A (m_particles solver) d
                (sym_zero (length (m_particles solver)))) a b =
      madd b3Mat33_zero
        (madd (mscale (- dt0) (values (dfdv d) a b))
           (mscale (- dt0 * dt0) (values (dfdx d) a b)))).
    { intros a b Hab Hb. rewrite Compute_A_values.
      rewrite decide_True by lia. rewrite decide_False by lia.
      unfold at_. rewrite !decide_True by lia. by rewrite Hdt. }
    destruct (decide (i < j)%nat) as [Hlt|Hge].
    + unfold at_. rewrite !decide_True by lia. rewrite !decide_False by lia.
      rewrite (Hup i j) by lia.
      generalize (values (dfdv d) i j) (values (dfdx d) i j). intros Dv Dx.
      split; vec_ring.
    + unfold at_. rewrite !decide_False by lia. rewrite !decide_True by lia.
      rewrite (Hup j i) by lia.
      generalize (values (dfdv d) j i) (values (dfdx d) j i). intros Dv Dx.
      split; vec_ring.
  - intros i j Hji. unfold m_particleCount. rewrite Compute_A_values.
    by rewrite decide_False by lia.
  - unfold Compute_b. by rewrite Hdt.
Qed.

(** ** The constraint filter *)

(** [S] is a projector at particle [i], and at every particle. *)
Definition projector_at (S_ : b3DiagMat33) (i : nat) : Prop :=
  forall Si, S_ !! i = Some Si -> mmul Si Si = Si.

Definition projector (S_ : b3DiagMat33) : Prop := forall i, projector_at S_ i.

(** "(I - S) * x = (I - S) * z" at particle [i], and at every particle. *)
Definition constrained_at (S_ : b3DiagMat33) (zs xs : b3DenseVec3) (i : nat)
    : Prop :=
  forall Si zi xi, S_ !! i = Some Si -> zs !! i = Some zi -> xs !! i = Some xi ->
    mmulv (msub b3Mat33_identity Si) xi = mmulv (msub b3Mat33_identity Si) zi.

Definition constrained (S_ : b3DiagMat33) (zs xs : b3DenseVec3) : Prop :=
  forall i, constrained_at S_ zs xs i.

(** "(I - S) * p = 0" at particle [i]. *)
Definition filtered_at (S_ : b3DiagMat33) (ps : b3DenseVec3) (i : nat) : Prop :=
  forall Si pi, S_ !! i = Some Si -> ps !! i = Some pi ->
    mmulv (msub b3Mat33_identity Si) pi = b3Vec3_zero.

Lemma projector_kills (Si : b3Mat33) (w : b3Vec3) :
  mmul Si Si = Si ->
  mmulv (msub b3Mat33_identity Si) (mmulv Si w) = b3Vec3_zero.
Proof.
  intros H. rewrite mmulv_mmul.
  assert (E : mmul (msub b3Mat33_identity Si) Si = msub Si (mmul Si Si))
    by (clear H; vec_ring).
  rewrite E, H. clear. vec_ring.
Qed.

Lemma projector_keeps (Si : b3Mat33) (w : b3Vec3) :
  mmul Si Si = Si ->
  mmulv (msub b3Mat33_identity Si) (mmulv (msub b3Mat33_identity Si) w)
  = mmulv (msub b3Mat33_identity Si) w.
Proof.
  intros H. rewrite mmulv_mmul.
  assert (E : mmul (msub b3Mat33_identity Si) (msub b3Mat33_identity Si)
              = madd (msub b3Mat33_identity Si) (msub (mmul Si Si) Si))
    by (clear H; vec_ring).
  rewrite E, H. clear. vec_ring.
Qed.

Lemma dm_mul_filtered (S_ : b3DiagMat33) (w : b3DenseVec3) (i : nat) :
  projector_at S_ i -> filtered_at S_ (dm_mul S_ w) i.
Proof.
  intros Hp Si pi HS Hpi. unfold dm_mul in Hpi.
  apply lookup_zip_with_Some in Hpi as (Si' & wi & -> & HS' & Hw).
  assert (Si' = Si) as -> by congruence.
  apply projector_kills. by apply Hp.
Qed.

Lemma mpcg_init_constrained (count : nat) (A : b3SparseSymMat33)
    (b : b3DenseVec3) (S_ inv_P : b3DiagMat33) (zs y : b3DenseVec3) (i : nat) :
  projector_at S_ i ->
  constrained_at S_ zs (st_x (mpcg_init count A b S_ inv_P zs y)) i /\
  filtered_at S_ (st_p (mpcg_init count A b S_ inv_P zs y)) i.
Proof.
  intros Hp. split; [|by apply dm_mul_filtered].
  intros Si zi xi HS Hz Hx. unfold mpcg_init in Hx. cbn [st_x] in Hx.
  unfold dv_add, dm_mul, dm_sub, dm_identity in Hx.
  apply lookup_zip_with_Some in Hx as (a & c & -> & Ha & Hc).
  apply lookup_zip_with_Some in Ha as (Si' & yi & -> & HS' & Hy).
  apply lookup_zip_with_Some in Hc as (ISi & zi' & -> & HIS & Hz').
  apply lookup_zip_with_Some in HIS as (Ii & Si'' & -> & HI & HS'').
  apply lookup_replicate in HI as [-> _].
  assert (Si' = Si) as -> by congruence.
  assert (Si'' = Si) as -> by congruence.
  assert (zi' = zi) as -> by congruence.
  rewrite mmulv_vadd, projector_kills, projector_keeps by (by apply Hp).
  apply vadd_zero_l.
Qed.

Lemma mpcg_step_constrained (A : b3SparseSymMat33) (S_ inv_P : b3DiagMat33)
    (zs : b3DenseVec3) (st st' : mpcg_state) (i : nat) :
  projector_at S_ i ->
  mpcg_step A S_ inv_P st = Ok st' ->
  constrained_at S_ zs (st_x st) i /\ filtered_at S_ (st_p st) i ->
  constrained_at S_ zs (st_x st') i /\ filtered_at S_ (st_p st') i.
Proof.
  intros Hp Hstep [Hx Hf]. unfold mpcg_step, fdiv in Hstep.
  destruct (decide (dv_dot (st_p st) _ = 0)); cbn in Hstep; [done|].
  destruct (decide (st_delta_new st = 0)); cbn in Hstep; [done|].
  injection Hstep as <-. cbn [st_x st_p]. split; [|by apply dm_mul_filtered].
  intros Si zi xi HS Hz Hxi. unfold dv_add, dv_scale in Hxi.
  apply lookup_zip_with_Some in Hxi as (x0 & ap & -> & Hx0 & Hap).
  rewrite list_lookup_fmap in Hap.
  destruct (st_p st !! i) as [pi|] eqn:Hpi; [|done]. injection Hap as <-.
  rewrite mmulv_vadd, mmulv_vscale, (Hf Si pi HS Hpi), (Hx Si zi x0 HS Hz Hx0).
  rewrite vscale_zero_r. apply vadd_zero_r.
Qed.

Lemma mpcg_iterate_constrained (A : b3SparseSymMat33) (S_ inv_P : b3DiagMat33)
    (zs : b3DenseVec3) (k i : nat) :
  projector_at S_ i ->
  forall st st', mpcg_iterate k A S_ inv_P st = Ok st' ->
    constrained_at S_ zs (st_x st) i /\ filtered_at S_ (st_p st) i ->
    constrained_at S_ zs (st_x st') i /\ filtered_at S_ (st_p st') i.
Proof.
  intros Hp. induction k as [|k IH]; intros st st' Hk Hinv; cbn [mpcg_iterate] in Hk.
  - by injection Hk as <-.
  - destruct (mpcg_step A S_ inv_P st) as [st1| | |] eqn:Hstep; cbn in Hk; try done.
    eapply IH; [exact Hk|]. by eapply mpcg_step_constrained.
Qed.

(** What a successful [Solve(x, iterations, ...)] went through. *)
Lemma Solve_Ax_b_Ok (count : nat) (A : b3SparseSymMat33) (b : b3DenseVec3)
    (S_ : b3DiagMat33) (zs y x_ : b3DenseVec3) (iterations : nat) :
  Solve_Ax_b count A b S_ zs y = Ok (x_, iterations) ->
  exists inv_P k st,
    preconditioner count A = Ok inv_P /\
    mpcg_iterate k A S_ inv_P (mpcg_init count A b S_ inv_P zs y) = Ok st /\
    st_x st = x_.
Proof.
  unfold Solve_Ax_b. intros H.
  destruct (preconditioner count A) as [inv_P| | |]; cbn in H; try done.
  destruct (mpcg_loop _ _ _ _ _ _) as [st| | |] eqn:Hloop; cbn in H; try done.
  injection H as <- <-.
  apply mpcg_loop_spec in Hloop as (k & Hk & _);
    [|unfold mpcg_init, max_iterations; cbn [st_iteration]; lia].
  by exists inv_P, k, st.
Qed.

(** The directions of a constraint are orthonormal where they are used. *)
Definition unit_directions (ac : b3AccelerationConstraint) : Prop :=
  (ndof ac = 2%nat -> b3Dot (p ac) (p ac) = 1) /\
  (ndof ac = 1%nat ->
     b3Dot (p ac) (p ac) = 1 /\ b3Dot (q ac) (q ac) = 1 /\
     b3Dot (p ac) (q ac) = 0).

Lemma plane_block_square (n0 : b3Vec3) :
  mmul (msub b3Mat33_identity (b3Outer n0 n0))
       (msub b3Mat33_identity (b3Outer n0 n0))
  = msub b3Mat33_identity (mscale (2 - b3Dot n0 n0) (b3Outer n0 n0)).
Proof. vec_ring. Qed.

Lemma line_block_square (n0 t0 : b3Vec3) :
  mmul (msub (msub b3Mat33_identity (b3Outer n0 n0)) (b3Outer t0 t0))
       (msub (msub b3Mat33_identity (b3Outer n0 n0)) (b3Outer t0 t0))
  = madd (msub (msub b3Mat33_identity (mscale (2 - b3Dot n0 n0) (b3Outer n0 n0)))
            (mscale (2 - b3Dot t0 t0) (b3Outer t0 t0)))
      (mscale (b3Dot n0 t0) (madd (b3Outer n0 t0) (b3Outer t0 n0))).
Proof. vec_ring. Qed.

Lemma constrain_projector (Sz : b3DiagMat33 * b3DenseVec3)
    (ac : b3AccelerationConstraint) :
  unit_directions ac -> projector Sz.1 -> projector (constrain Sz ac).1.
Proof.
  intros [H2 H1] Hp. unfold constrain. cbn [fst].
  assert (Hins : forall (l : b3DiagMat33) (B : b3Mat33),
            mmul B B = B -> projector l -> projector (<[i1 ac := B]> l)).
  { intros l B HB Hl i Si Hi.
    apply list_lookup_insert_Some in Hi as [(_ & <- & _)|(_ & Hi)]; [done|].
    by eapply (Hl i). }
  repeat case_decide; try lia; repeat apply Hins; try done.
  - destruct H1 as (Hpp & Hqq & Hpq); [done|].
    rewrite line_block_square, Hpp, Hqq, Hpq.
    generalize (p ac) (q ac). clear. intros n0 t0. vec_ring.
  - rewrite plane_block_square, H2 by done.
    generalize (p ac). clear. intros n0. vec_ring.
Qed.

Lemma Compute_S_z_projector (count : nat)
    (constraints : list b3AccelerationConstraint) :
  (forall ac, ac ∈ constraints -> unit_directions ac) ->
  projector (Compute_S_z count constraints).1.
Proof.
  unfold Compute_S_z.
  assert (H0 : projector (dm_identity count, dv_zero count).1).
  { intros i Si Hi. apply lookup_replicate in Hi as [-> _]. clear. vec_ring. }
  revert H0. generalize (dm_identity count, dv_zero count).
  induction constraints as [|ac cs IH]; intros Sz H0 Hall; [done|].
  cbn [foldl]. apply IH.
  - apply constrain_projector; [|done]. apply Hall. by left.
  - intros ac' Hac'. apply Hall. by right.
Qed.

(** ** Sizes *)

Lemma foldl_keeps_M {X : Type} (F : b3SymMat33 -> X -> b3SymMat33) (l : list X) :
  (forall A x, M (F A x) = M A) -> forall A, M (foldl F A l) = M A.
Proof.
  intros HF. induction l as [|x l IH]; intros A; [done|].
  cbn [foldl]. by rewrite IH, HF.
Qed.

Lemma Compute_A_M (particles : list b3Particle) (data : b3ClothSolverData)
    (A : b3SparseSymMat33) :
  M (Compute_A particles data A) = M A.
Proof.
  unfold Compute_A, for_upper. cbn zeta.
  repeat (rewrite foldl_keeps_M;
          [|intros; try (apply foldl_keeps_M; intros); reflexivity]).
  done.
Qed.

Lemma invert_blocks_length (P P' : b3DiagMat33) :
  invert_blocks P = Ok P' -> length P' = length P.
Proof.
  revert P'. induction P as [|D P IH]; intros P'; cbn [invert_blocks].
  - by intros [= <-].
  - destruct (invert_block D) as [D'| | |]; cbn; try done.
    destruct (invert_blocks P) as [P1| | |]; cbn; try done.
    intros [= <-]. cbn. by rewrite (IH P1).
Qed.

Lemma preconditioner_length (count : nat) (A : b3SparseSymMat33)
    (inv_P : b3DiagMat33) :
  preconditioner count A = Ok inv_P -> length inv_P = count.
Proof.
  unfold preconditioner, Diagonal. intros H.
  apply invert_blocks_length in H. by rewrite length_map, length_seq in H.
Qed.

Lemma constrain_lengths (Sz : b3DiagMat33 * b3DenseVec3)
    (ac : b3AccelerationConstraint) :
  length (constrain Sz ac).1 = length Sz.1 /\
  length (constrain Sz ac).2 = length Sz.2.
Proof.
  unfold constrain. cbn [fst snd].
  repeat case_decide; rewrite ?length_insert; done.
Qed.

Lemma Compute_S_z_lengths (count : nat)
    (constraints : list b3AccelerationConstraint) :
  length (Compute_S_z count constraints).1 = count /\
  length (Compute_S_z count constraints).2 = count.
Proof.
  unfold Compute_S_z.
  assert (H0 : length (dm_identity count, dv_zero count).1 = count /\
               length (dm_identity count, dv_zero count).2 = count).
  { cbn [fst snd]. unfold dm_identity, dv_zero. by rewrite !length_replicate. }
  revert H0. generalize (dm_identity count, dv_zero count).
  induction constraints as [|ac cs IH]; intros Sz H0; [done|].
  cbn [foldl]. apply IH.
  destruct (constrain_lengths Sz ac) as [-> ->]. exact H0.
Qed.

(** The three iterates are arrays of [count] entries. *)
Definition sized (count : nat) (st : mpcg_state) : Prop :=
  length (st_x st) = count /\ length (st_r st) = count /\
  length (st_p st) = count.

Ltac sizes :=
  unfold dv_add, dv_sub, dv_scale, dm_mul, dm_sub, dm_identity, dv_zero, b3Mul;
  repeat first [ rewrite length_zip_with | rewrite length_map
               | rewrite length_seq | rewrite length_replicate ];
  try lia.

Lemma mpcg_init_sized (count : nat) (A : b3SparseSymMat33) (b : b3DenseVec3)
    (S_ inv_P : b3DiagMat33) (zs y : b3DenseVec3) :
  length S_ = count -> length zs = count -> length y = count ->
  length b = count -> length inv_P = count -> M A = count ->
  sized count (mpcg_init count A b S_ inv_P zs y).
Proof.
  intros HS Hz Hy Hb HP HM. unfold sized, mpcg_init. cbn [st_x st_r st_p].
  repeat split; sizes.
Qed.

Lemma mpcg_step_sized (count : nat) (A : b3SparseSymMat33)
    (S_ inv_P : b3DiagMat33) (st st' : mpcg_state) :
  length S_ = count -> length inv_P = count -> M A = count ->
  mpcg_step A S_ inv_P st = Ok st' -> sized count st -> sized count st'.
Proof.
  intros HS HP HM Hstep (Hx & Hr & Hp). unfold mpcg_step, fdiv in Hstep.
  destruct (decide (dv_dot (st_p st) _ = 0)); cbn in Hstep; [done|].
  destruct (decide (st_delta_new st = 0)); cbn in Hstep; [done|].
  injection Hstep as <-. unfold sized. cbn [st_x st_r st_p].
  repeat split; sizes.
Qed.

Lemma mpcg_iterate_sized (count : nat) (A : b3SparseSymMat33)
    (S_ inv_P : b3DiagMat33) (k : nat) :
  length S_ = count -> length inv_P = count -> M A = count ->
  forall st st', mpcg_iterate k A S_ inv_P st = Ok st' ->
    sized count st -> sized count st'.
Proof.
  intros HS HP HM. induction k as [|k IH]; intros st st' Hk Hs;
    cbn [mpcg_iterate] in Hk.
  - by injection Hk as <-.
  - destruct (mpcg_step A S_ inv_P st) as [st1| | |] eqn:Hstep; cbn in Hk; try done.
    eapply IH; [exact Hk|].
    exact (mpcg_step_sized count A S_ inv_P st st1 HS HP HM Hstep Hs).
Qed.

(** ** Particles without a degree of freedom *)

(** Particle [i] is not dynamic or has a contact, and every contact on it
    has both friction tangents engaged. *)
Definition zero_dof (solver : b3ClothSolver) (i : nat) : Prop :=
  ((exists pt, m_particles solver !! i = Some pt /\ m_type pt <> e_dynamicParticle) \/
   (exists pc, pc ∈ m_contacts solver /\ p1 pc = i)) /\
  (forall pc, pc ∈ m_contacts solver -> p1 pc = i ->
     t1_active pc = true /\ t2_active pc = true).

Lemma particle_constraints_elem (particles : list b3Particle)
    (ac : b3AccelerationConstraint) :
  ac ∈ particle_constraints particles <->
  exists i pt, particles !! i = Some pt /\ m_type pt <> e_dynamicParticle /\
    ac = mkConstraint i 0 b3Vec3_zero b3Vec3_zero b3Vec3_zero.
Proof.
  unfold particle_constraints. rewrite list_elem_of_omap. split.
  - intros ([i pt] & Hin & Hac). apply elem_of_lookup_imap in Hin
      as (i' & pt' & [= -> ->] & Hpt).
    cbn [fst snd] in Hac. destruct (decide _) as [Hnd|]; [|done].
    injection Hac as <-. by exists i', pt'.
  - intros (i & pt & Hpt & Hnd & ->). exists (i, pt). split.
    + apply elem_of_lookup_imap. by exists i, pt.
    + cbn [fst snd]. by rewrite decide_True.
Qed.

Lemma contact_constraint_fields (pc : b3BodyContact) :
  i1 (contact_constraint pc) = p1 pc /\
  z (contact_constraint pc) = b3Vec3_zero /\
  p (contact_constraint pc) = n pc /\
  (t1_active pc = true -> t2_active pc = true -> ndof (contact_constraint pc) = 0%nat) /\
  (ndof (contact_constraint pc) = 2%nat ->
     t1_active pc = false /\ t2_active pc = false) /\
  (ndof (contact_constraint pc) = 1%nat ->
     (q (contact_constraint pc) = t1 pc /\ t1_active pc = true) \/
     (q (contact_constraint pc) = t2 pc /\ t2_active pc = true)).
Proof.
  unfold contact_constraint.
  destruct (t1_active pc), (t2_active pc); cbn; repeat split; try done; auto.
Qed.

Lemma InitializeConstraints_z (solver : b3ClothSolver)
    (ac : b3AccelerationConstraint) :
  ac ∈ InitializeConstraints solver -> z ac = b3Vec3_zero.
Proof.
  unfold InitializeConstraints. intros [H|H]%elem_of_app.
  - apply particle_constraints_elem in H as (i & pt & _ & _ & ->). done.
  - apply list_elem_of_fmap in H as (pc & -> & _).
    by destruct (contact_constraint_fields pc) as (_ & ? & _).
Qed.

Lemma Compute_S_z_zero_target (count : nat)
    (constraints : list b3AccelerationConstraint) (i : nat) (zi : b3Vec3) :
  (forall ac, ac ∈ constraints -> z ac = b3Vec3_zero) ->
  (Compute_S_z count constraints).2 !! i = Some zi -> zi = b3Vec3_zero.
Proof.
  unfold Compute_S_z.
  assert (H0 : forall zi, (dm_identity count, dv_zero count).2 !! i = Some zi ->
                 zi = b3Vec3_zero).
  { intros z0 Hz. by apply lookup_replicate in Hz as [-> _]. }
  revert zi H0. generalize (dm_identity count, dv_zero count).
  induction constraints as [|ac cs IH]; intros Sz zi H0 Hall; [by apply H0|].
  cbn [foldl]. apply IH.
  - intros z0. unfold constrain. cbn [snd].
    intros [(_ & <- & _)|(_ & Hz)]%list_lookup_insert_Some; [|by apply H0].
    apply Hall. by left.
  - intros ac' Hac'. apply Hall. by right.
Qed.

Lemma Compute_S_z_zero_block (count : nat)
    (constraints : list b3AccelerationConstraint) (i : nat) :
  (i < count)%nat ->
  (exists ac, ac ∈ constraints /\ i1 ac = i) ->
  (forall ac, ac ∈ constraints -> i1 ac = i -> ndof ac = 0%nat) ->
  (Compute_S_z count constraints).1 !! i = Some b3Mat33_zero.
Proof.
  intros Hi. induction constraints as [|ac cs IH] using rev_ind;
    intros (ac0 & Hin & Hac0) Hall; [inversion Hin|].
  destruct (Compute_S_z_lengths count cs) as [HlS _].
  unfold Compute_S_z in *. rewrite foldl_app. cbn [foldl].
  set (Sz := foldl constrain (dm_identity count, dv_zero count) cs) in *.
  unfold constrain. cbn [fst].
  destruct (decide (i1 ac = i)) as [Heq|Hne].
  - assert (Hn : ndof ac = 0%nat).
    { apply Hall; [|done]. apply elem_of_app. right. by left. }
    rewrite Hn, Heq. repeat case_decide; try lia.
    apply list_lookup_insert_eq. lia.
  - assert (HSz : Sz.1 !! i = Some b3Mat33_zero).
    { apply IH.
      - apply elem_of_app in Hin as [Hin|Hin]; [by exists ac0|].
        apply list_elem_of_singleton in Hin as ->. done.
      - intros ac' Hac'. apply Hall. apply elem_of_app. by left. }
    repeat case_decide; rewrite ?list_lookup_insert_ne by done; exact HSz.
Qed.

Lemma zero_dof_block (solver : b3ClothSolver) (i : nat) :
  (i < m_particleCount solver)%nat -> zero_dof solver i ->
  (Compute_S_z (m_particleCount solver) (InitializeConstraints solver)).1 !! i
  = Some b3Mat33_zero.
Proof.
  intros Hi (Hsome & Hall). apply Compute_S_z_zero_block; [done| |].
  - unfold InitializeConstraints.
    destruct Hsome as [(pt & Hpt & Hnd)|(pc & Hpc & Hp1)].
    + exists (mkConstraint i 0 b3Vec3_zero b3Vec3_zero b3Vec3_zero).
      split; [|done]. apply elem_of_app. left.
      apply particle_constraints_elem. by exists i, pt.
    + exists (contact_constraint pc). split.
      * apply elem_of_app. right. by apply list_elem_of_fmap_2.
      * by destruct (contact_constraint_fields pc) as (-> & _).
  - unfold InitializeConstraints. intros ac [H|H]%elem_of_app Hi1.
    + apply particle_constraints_elem in H as (j & pt & _ & _ & ->). done.
    + apply list_elem_of_fmap in H as (pc & -> & Hpc).
      destruct (contact_constraint_fields pc) as (Hp1 & _ & _ & H0 & _).
      rewrite Hp1 in Hi1. destruct (Hall pc Hpc Hi1) as [Ht1 Ht2]. by apply H0.
Qed.

(** ** Properties of the solve *)

(** The normal of a contact is a unit vector, and an engaged tangent is a
    unit vector orthogonal to it. *)
Definition unit_frame (pc : b3BodyContact) : Prop :=
  b3Dot (n pc) (n pc) = 1 /\
  (t1_active pc = true ->
     b3Dot (t1 pc) (t1 pc) = 1 /\ b3Dot (n pc) (t1 pc) = 0) /\
  (t2_active pc = true ->
     b3Dot (t2 pc) (t2 pc) = 1 /\ b3Dot (n pc) (t2 pc) = 0).

(** A force writes entries of the force buffer and of the Jacobians; it
    leaves the velocities and the sizes of the buffers alone. *)
Definition forces_keep_buffers : Prop :=
  forall force d,
    v (Apply force d) = v d /\ length (f (Apply force d)) = length (f d) /\
    M (dfdx (Apply force d)) = M (dfdx d).

Lemma ApplyForces_keeps (fs : list b3Force) (d : b3ClothSolverData) :
  forces_keep_buffers ->
  v (ApplyForces fs d) = v d /\ length (f (ApplyForces fs d)) = length (f d) /\
  M (dfdx (ApplyForces fs d)) = M (dfdx d).
Proof.
  intros HF. unfold ApplyForces. revert d.
  induction fs as [|force fs IH]; intros d; [done|].
  cbn [foldl]. destruct (IH (apply_force d force)) as (-> & -> & ->).
  unfold apply_force. cbn [v f dfdx]. apply HF.
Qed.

Lemma unit_frame_directions (pc : b3BodyContact) :
  unit_frame pc -> unit_directions (contact_constraint pc).
Proof.
  intros (Hn & H1 & H2).
  destruct (contact_constraint_fields pc) as (_ & _ & Hp & _ & _ & Hq).
  split; rewrite Hp; [done|].
  intros Hnd. destruct (Hq Hnd) as [[-> Ht]|[-> Ht]].
  - destruct (H1 Ht). done.
  - destruct (H2 Ht). done.
Qed.

Lemma assemble_projector (solver : b3ClothSolver) (dt0 : float32)
    (gravity : b3Vec3) :
  (forall pc, pc ∈ m_contacts solver -> unit_frame pc) ->
  projector (S_z (assemble solver dt0 gravity)).1.
Proof.
  intros Hall. unfold assemble. cbn [S_z]. apply Compute_S_z_projector.
  unfold InitializeConstraints. intros ac [H|H]%elem_of_app.
  - apply particle_constraints_elem in H as (i & pt & _ & _ & ->).
    split; cbn; lia.
  - apply list_elem_of_fmap in H as (pc & -> & Hpc).
    by apply unit_frame_directions, Hall.
Qed.

(** C1 as stated: after a solve with [dt > 0] the velocity of a particle
    without a degree of freedom equals the target [z] along the constrained
    directions. *)
Definition zero_dof_velocity_is_target : Prop :=
  forall solver dt0 gravity solver' iterations i pt' Si zi,
    0 < dt0 ->
    Solve solver dt0 gravity = Ok (solver', iterations) ->
    zero_dof solver i ->
    m_particles solver' !! i = Some pt' ->
    (S_z (assemble solver dt0 gravity)).1 !! i = Some Si ->
    (S_z (assemble solver dt0 gravity)).2 !! i = Some zi ->
    mmulv (msub b3Mat33_identity Si) (m_velocity pt')
    = mmulv (msub b3Mat33_identity Si) zi.

(** C1, as the code has it.  Whenever [S] is a projector at every particle,
    every MPCG iterate [x], and the [x] a solve returns, satisfies
    [(I - S) * x = (I - S) * z] at every particle; the [S] the solver builds
    is such a projector when the contact frames are orthonormal, and its [z]
    is zero.  For a particle without a degree of freedom (not dynamic, or in
    contact, with both tangents of every contact on it engaged) [S] is the
    zero block, so the solved velocity increment [x] equals the target [z],
    which is zero: the particle keeps the velocity it had. *)
Theorem mpcg_iterates_constrained (solver : b3ClothSolver) (dt0 : float32)
    (gravity : b3Vec3) :
  (forall count A b S_ zs y, projector S_ ->
     (forall inv_P k st,
        mpcg_iterate k A S_ inv_P (mpcg_init count A b S_ inv_P zs y) = Ok st ->
        constrained S_ zs (st_x st)) /\
     (forall x_ iterations,
        Solve_Ax_b count A b S_ zs y = Ok (x_, iterations) ->
        constrained S_ zs x_)) /\
  ((forall pc, pc ∈ m_contacts solver -> unit_frame pc) ->
     projector (S_z (assemble solver dt0 gravity)).1) /\
  (forall i zi, (S_z (assemble solver dt0 gravity)).2 !! i = Some zi ->
     zi = b3Vec3_zero) /\
  (forces_keep_buffers ->
   forall solver' iterations i pt,
     Solve solver dt0 gravity = Ok (solver', iterations) ->
     zero_dof solver i -> m_particles solver !! i = Some pt ->
     (S_z (assemble solver dt0 gravity)).1 !! i = Some b3Mat33_zero /\
     (S_z (assemble solver dt0 gravity)).2 !! i = Some b3Vec3_zero /\
     exists pt', m_particles solver' !! i = Some pt' /\
       m_x pt' = b3Vec3_zero /\ m_velocity pt' = m_velocity pt).
Proof.
  assert (Hiter : forall count A b S_ zs y inv_P k st i, projector_at S_ i ->
    mpcg_iterate k A S_ inv_P (mpcg_init count A b S_ inv_P zs y) = Ok st ->
    constrained_at S_ zs (st_x st) i).
  { intros count A b S_ zs y inv_P k st i Hp Hk.
    eapply (mpcg_iterate_constrained A S_ inv_P zs k i Hp); [exact Hk|].
    by apply mpcg_init_constrained. }
  assert (Hz : forall i zi,
    (S_z (assemble solver dt0 gravity)).2 !! i = Some zi -> zi = b3Vec3_zero).
  { intros i zi. unfold assemble. cbn [S_z].
    apply Compute_S_z_zero_target. apply InitializeConstraints_z. }
  split; [|split; [|split]].
  - intros count A b S_ zs y Hp. split.
    + intros inv_P k st Hk i. by eapply Hiter.
    + intros x_ iterations Hsolve i.
      apply Solve_Ax_b_Ok in Hsolve as (inv_P & k & st & _ & Hk & <-).
      by eapply Hiter.
  - apply assemble_projector.
  - exact Hz.
  - intros HF solver' iterations i pt Hsolve Hzero Hpt.
    unfold Solve in Hsolve.
    set (a := assemble solver dt0 gravity) in *.
    destruct (Solve_Ax_b (m_particleCount solver) (A a) (b a) (S_z a).1 (S_z a).2 (sx0 a))
      as [[x_ its]| | |] eqn:Hsolve'; cbn in Hsolve; try done.
    injection Hsolve as <- <-. cbn [m_particles fst].
    assert (Hi : (i < m_particleCount solver)%nat) by (by eapply lookup_lt_Some).
    assert (HS : (S_z a).1 !! i = Some b3Mat33_zero).
    { subst a. unfold assemble. cbn [S_z]. by apply zero_dof_block. }
    destruct (Compute_S_z_lengths (m_particleCount solver) (InitializeConstraints solver))
      as [HlS Hlz].
    assert (Hzi : (S_z a).2 !! i = Some b3Vec3_zero).
    { destruct (lookup_lt_is_Some_2 (S_z a).2 i) as [zi Hzi].
      - subst a. unfold assemble. cbn [S_z]. by rewrite Hlz.
      - by rewrite Hzi, (Hz i zi Hzi). }
    split; [exact HS|]. split; [exact Hzi|].
    destruct (ApplyForces_keeps
                (InitializeForces (m_forces solver) (gathered solver dt0 gravity))
                (gathered solver dt0 gravity) HF) as (Hv & Hlf & HM).
    apply Solve_Ax_b_Ok in Hsolve' as (inv_P & k & st & HP & Hk & <-).
    apply preconditioner_length in HP as HlP.
    assert (HMA : M (A a) = m_particleCount solver).
    { subst a. unfold assemble. cbn [A]. by rewrite Compute_A_M. }
    assert (Hlb : length (b a) = m_particleCount solver).
    { subst a. unfold assemble. cbn [b]. unfold Compute_b.
      cbn [gathered f dfdx sym_zero M] in Hlf, HM.
      rewrite length_map in Hlf. unfold m_particleCount in *. sizes. }
    assert (Hsized : sized (m_particleCount solver) st).
    { eapply (mpcg_iterate_sized (m_particleCount solver) (A a) (S_z a).1 inv_P k); try done.
      apply mpcg_init_sized; try done.
      subst a. unfold assemble. cbn [sx0]. by rewrite length_map. }
    destruct Hsized as (Hlx & _ & _).
    destruct (lookup_lt_is_Some_2 (st_x st) i) as [xi Hxi]; [lia|].
    assert (Hxi0 : xi = b3Vec3_zero).
    { assert (Hpa : projector_at (S_z a).1 i).
      { intros Si HSi. rewrite HS in HSi. injection HSi as <-. vec_ring. }
      pose proof (Hiter (m_particleCount solver) (A a) (b a) (S_z a).1 (S_z a).2 (sx0 a)
                    inv_P k st i Hpa Hk _ _ _ HS Hzi Hxi) as Hc.
      rewrite <- (mmulv_identity xi).
      replace b3Mat33_identity with (msub b3Mat33_identity b3Mat33_zero)
        by vec_ring.
      rewrite Hc. vec_ring. }
    subst xi. rewrite list_lookup_imap, Hpt. cbn.
    eexists. split; [reflexivity|]. cbn [m_x m_velocity set_state].
    unfold dv_at. rewrite Hxi. split; [done|].
    assert (Hsv : dv_add (v (data a)) (st_x st) !! i = Some (m_velocity pt)).
    { unfold dv_add. apply lookup_zip_with_Some.
      exists (m_velocity pt), b3Vec3_zero.
      split; [by rewrite vadd_zero_r|]. split; [|done].
      subst a. unfold assemble. cbn [data]. rewrite Hv. cbn [gathered v].
      by rewrite list_lookup_fmap, Hpt. }
    subst a. unfold assemble in Hsv. cbn [data] in Hsv. by rewrite Hsv.
Qed.

(** ** The constraints and the filter they give *)

(** The block [Compute_S_z] writes for a constraint. *)
Definition block_of (ac : b3AccelerationConstraint) : b3Mat33 :=
  if decide (ndof ac = 0%nat) then b3Mat33_zero
  else if decide (ndof ac = 1%nat)
       then msub (msub b3Mat33_identity (b3Outer (p ac) (p ac)))
              (b3Outer (q ac) (q ac))
       else msub b3Mat33_identity (b3Outer (p ac) (p ac)).

(** The block of a contact, by its engaged tangents. *)
Definition contact_block (pc : b3BodyContact) : b3Mat33 :=
  if t1_active pc && t2_active pc then b3Mat33_zero
  else if t2_active pc
       then msub (msub b3Mat33_identity (b3Outer (n pc) (n pc)))
              (b3Outer (t2 pc) (t2 pc))
       else if t1_active pc
            then msub (msub b3Mat33_identity (b3Outer (n pc) (n pc)))
                   (b3Outer (t1 pc) (t1 pc))
            else msub b3Mat33_identity (b3Outer (n pc) (n pc)).

Definition not_dynamic (pt : b3Particle) : Prop := m_type pt <> e_dynamicParticle.

Lemma particle_constraints_length_from (particles : list b3Particle)
    (h : nat -> nat) :
  length (omap (fun ip : nat * b3Particle =>
                  if decide (m_type ip.2 <> e_dynamicParticle)
                  then Some (mkConstraint ip.1 0 b3Vec3_zero b3Vec3_zero b3Vec3_zero)
                  else None)
            (imap (fun k pt => (h k, pt)) particles))
  = length (filter not_dynamic particles).
Proof.
  revert h. induction particles as [|pt ps IH]; intros h; [done|].
  rewrite imap_cons, filter_cons. cbn [omap list_omap snd].
  specialize (IH (h ∘ S)). unfold not_dynamic at 1.
  destruct (decide (m_type pt <> e_dynamicParticle)); cbn [length];
    unfold compose in IH; by rewrite <- IH.
Qed.

Lemma NoDup_length_without (l : list nat) (a : nat) :
  NoDup l -> (length l <= S (length (filter (fun x => x <> a) l)))%nat.
Proof.
  induction l as [|x l IH]; intros Hnd; [cbn; lia|].
  apply NoDup_cons in Hnd as [Hx Hnd]. rewrite filter_cons.
  destruct (decide (x <> a)) as [Hne|Heq].
  - cbn [length]. specialize (IH Hnd). lia.
  - apply dec_stable in Heq as ->.
    assert (E : filter (fun x => x <> a) l = l).
    { clear IH Hnd. induction l as [|y l IH]; [done|].
      apply not_elem_of_cons in Hx as [Hya Hx]. rewrite filter_cons.
      rewrite decide_True by done. f_equal. by apply IH. }
    rewrite E. cbn [length]. lia.
Qed.

(** Pointers to distinct dynamic particles, counted with the particles that
    are not dynamic, are no more than the particles. *)
Lemma dynamic_pointers_fit (particles : list b3Particle) (off : nat) (l : list nat) :
  NoDup l ->
  (forall x, x ∈ l -> (off <= x)%nat /\
     exists pt, particles !! (x - off)%nat = Some pt /\
       m_type pt = e_dynamicParticle) ->
  (length (filter not_dynamic particles) + length l <= length particles)%nat.
Proof.
  revert off l. induction particles as [|pt ps IH]; intros off l Hnd Hl.
  - destruct l as [|x l]; [done|].
    destruct (Hl x) as (_ & pt & Hpt & _); [by left|]. by rewrite lookup_nil in Hpt.
  - rewrite filter_cons. destruct (decide (not_dynamic pt)) as [Hpt|Hpt].
    + cbn [length].
      assert (H : (length (filter not_dynamic ps) + length l <= length ps)%nat);
        [|lia].
      apply (IH (S off) l Hnd). intros x Hx.
      destruct (Hl x Hx) as (Hle & pt' & Hpt' & Hd).
      destruct (x - off)%nat as [|k] eqn:Ek.
      * injection Hpt' as <-. done.
      * split; [lia|]. exists pt'. replace (x - S off)%nat with k by lia. done.
    + pose proof (NoDup_length_without l off Hnd) as Hlen.
      assert (H : (length (filter not_dynamic ps)
                   + length (filter (fun x => x <> off) l) <= length ps)%nat).
      { apply (IH (S off)); [by apply NoDup_filter|].
        intros x [Hne Hx]%list_elem_of_filter.
        destruct (Hl x Hx) as (Hle & pt' & Hpt' & Hd).
        destruct (x - off)%nat as [|k] eqn:Ek; [lia|].
        split; [lia|]. exists pt'. replace (x - S off)%nat with k by lia. done. }
      cbn [length]. lia.
Qed.

Lemma constrain_other (Sz : b3DiagMat33 * b3DenseVec3)
    (ac : b3AccelerationConstraint) (i : nat) :
  i1 ac <> i -> (constrain Sz ac).1 !! i = Sz.1 !! i.
Proof.
  intros Hne. unfold constrain. cbn [fst].
  repeat case_decide; by rewrite ?list_lookup_insert_ne.
Qed.

Lemma constrain_block (Sz : b3DiagMat33 * b3DenseVec3)
    (ac : b3AccelerationConstraint) :
  (i1 ac < length Sz.1)%nat -> (ndof ac <= 2)%nat ->
  (constrain Sz ac).1 !! i1 ac = Some (block_of ac).
Proof.
  intros Hlt Hn. unfold constrain, block_of. cbn [fst].
  repeat case_decide; try lia;
    rewrite ?list_lookup_insert_ne by done;
    by rewrite list_lookup_insert_eq by (by rewrite ?length_insert).
Qed.

Lemma foldl_constrain_other (cs : list b3AccelerationConstraint)
    (Sz : b3DiagMat33 * b3DenseVec3) (i : nat) :
  (forall ac, ac ∈ cs -> i1 ac <> i) ->
  (foldl constrain Sz cs).1 !! i = Sz.1 !! i.
Proof.
  revert Sz. induction cs as [|ac cs IH]; intros Sz H; [done|].
  cbn [foldl]. rewrite IH by (intros ac' Hac'; apply H; by right).
  apply constrain_other. apply H. by left.
Qed.

Lemma foldl_constrain_length (cs : list b3AccelerationConstraint)
    (Sz : b3DiagMat33 * b3DenseVec3) :
  length (foldl constrain Sz cs).1 = length Sz.1.
Proof.
  revert Sz. induction cs as [|ac cs IH]; intros Sz; [done|].
  cbn [foldl]. rewrite IH. by destruct (constrain_lengths Sz ac) as [-> _].
Qed.

Lemma Compute_S_z_free (count : nat) (cs : list b3AccelerationConstraint) (i : nat) :
  (i < count)%nat -> (forall ac, ac ∈ cs -> i1 ac <> i) ->
  (Compute_S_z count cs).1 !! i = Some b3Mat33_identity.
Proof.
  intros Hi H. unfold Compute_S_z. rewrite foldl_constrain_other by done.
  cbn [fst]. unfold dm_identity. by apply lookup_replicate.
Qed.

Lemma Compute_S_z_last (count : nat) (cs1 cs2 : list b3AccelerationConstraint)
    (ac : b3AccelerationConstraint) :
  (i1 ac < count)%nat -> (ndof ac <= 2)%nat ->
  (forall ac', ac' ∈ cs2 -> i1 ac' <> i1 ac) ->
  (Compute_S_z count (cs1 ++ ac :: cs2)).1 !! i1 ac = Some (block_of ac).
Proof.
  intros Hi Hn H. unfold Compute_S_z. rewrite foldl_app. cbn [foldl].
  rewrite foldl_constrain_other by done.
  apply constrain_block; [|done]. rewrite foldl_constrain_length. cbn [fst].
  unfold dm_identity. by rewrite length_replicate.
Qed.

Lemma contact_constraint_block (pc : b3BodyContact) :
  block_of (contact_constraint pc) = contact_block pc /\
  (ndof (contact_constraint pc) <= 2)%nat.
Proof.
  unfold contact_constraint, contact_block, block_of.
  destruct (t1_active pc), (t2_active pc); cbn [andb ndof p q i1 z];
    repeat case_decide; try lia; (split; [reflexivity|lia]).
Qed.

(** X14. [InitializeConstraints] writes one record per particle that is
    not dynamic and one per contact, each with a zero target and at most two
    degrees of freedom.  When the contacts are on distinct dynamic particles
    the records are no more than the particles, the size of the constraint
    array. *)
Theorem InitializeConstraints_count (solver : b3ClothSolver) :
  length (InitializeConstraints solver) =
    (length (filter not_dynamic (m_particles solver))
     + length (m_contacts solver))%nat /\
  (forall ac, ac ∈ InitializeConstraints solver ->
     z ac = b3Vec3_zero /\ (ndof ac <= 2)%nat) /\
  (NoDup (map p1 (m_contacts solver)) ->
   (forall pc, pc ∈ m_contacts solver ->
      exists pt, m_particles solver !! p1 pc = Some pt /\
        m_type pt = e_dynamicParticle) ->
   (length (InitializeConstraints solver) <= m_particleCount solver)%nat).
Proof.
  assert (Hlen : length (InitializeConstraints solver) =
    (length (filter not_dynamic (m_particles solver))
     + length (m_contacts solver))%nat).
  { unfold InitializeConstraints, particle_constraints.
    rewrite length_app, length_map. f_equal.
    apply (particle_constraints_length_from _ id). }
  split; [exact Hlen|]. split.
  - intros ac Hac. split; [by eapply InitializeConstraints_z|].
    unfold InitializeConstraints in Hac. apply elem_of_app in Hac as [H|H].
    + apply particle_constraints_elem in H as (i & pt & _ & _ & ->). cbn. lia.
    + apply list_elem_of_fmap in H as (pc & -> & _).
      by destruct (contact_constraint_block pc) as (_ & ?).
  - intros Hnd Hdyn. rewrite Hlen. unfold m_particleCount.
    rewrite <- (length_map p1 (m_contacts solver)).
    apply (dynamic_pointers_fit _ 0 _ Hnd).
    intros x (pc & -> & Hpc)%list_elem_of_fmap. split; [lia|].
    rewrite Nat.sub_0_r. by apply Hdyn.
Qed.

(** X15. The filter block of a particle is decided by the last constraint
    written for it.  With no contact on it, a dynamic particle has the
    identity block and any other particle the zero block.  With contacts on
    it, the last one decides, whatever the type of the particle: the zero
    block when both tangents are engaged, [I - n n^T - t t^T] when one
    tangent [t] is engaged, [I - n n^T] when none is. *)
Theorem Compute_S_z_blocks (solver : b3ClothSolver) (dt0 : float32)
    (gravity : b3Vec3) (i : nat) (pt : b3Particle) :
  m_particles solver !! i = Some pt ->
  ((forall pc, pc ∈ m_contacts solver -> p1 pc <> i) ->
     (S_z (assemble solver dt0 gravity)).1 !! i =
       Some (if decide (m_type pt = e_dynamicParticle)
             then b3Mat33_identity else b3Mat33_zero)) /\
  (forall cs1 pc cs2, m_contacts solver = cs1 ++ pc :: cs2 -> p1 pc = i ->
     (forall pc', pc' ∈ cs2 -> p1 pc' <> i) ->
     (S_z (assemble solver dt0 gravity)).1 !! i = Some (contact_block pc)).
Proof.
  intros Hpt.
  assert (Hi : (i < m_particleCount solver)%nat) by (by eapply lookup_lt_Some).
  unfold assemble. cbn [S_z]. split.
  - intros Hnone. destruct (decide (m_type pt = e_dynamicParticle)) as [Hd|Hd].
    + apply Compute_S_z_free; [done|].
      unfold InitializeConstraints. intros ac [H|H]%elem_of_app.
      * apply particle_constraints_elem in H as (j & pt' & Hj & Hnd & ->).
        cbn. intros ->. congruence.
      * apply list_elem_of_fmap in H as (pc & -> & Hpc).
        destruct (contact_constraint_fields pc) as (-> & _). by apply Hnone.
    + apply zero_dof_block; [done|]. split.
      * left. by exists pt.
      * intros pc Hpc Hp. by destruct (Hnone pc Hpc).
  - intros cs1 pc cs2 Hcs Hp Hlast. unfold InitializeConstraints.
    rewrite Hcs, map_app, app_assoc. cbn [map].
    destruct (contact_constraint_fields pc) as (Hi1 & _).
    destruct (contact_constraint_block pc) as (<- & Hn).
    rewrite <- Hp, <- Hi1. apply Compute_S_z_last; [| done |].
    + rewrite Hi1, Hp. done.
    + intros ac (pc' & -> & Hpc')%list_elem_of_fmap.
      destruct (contact_constraint_fields pc') as (-> & _).
      rewrite Hi1, Hp. by apply Hlast.
Qed.

(** ** The residual the loop carries *)

Lemma dv_at_combination (xs ps : b3DenseVec3) (alpha : float32) (c : nat) :
  length xs = length ps ->
  dv_at (dv_add xs (dv_scale alpha ps)) c
  = vadd (dv_at xs c) (vscale alpha (dv_at ps c)).
Proof.
  intros Hl. unfold dv_at, dv_add, dv_scale.
  rewrite lookup_zip_with, list_lookup_fmap.
  destruct (xs !! c) as [xc|] eqn:Hx, (ps !! c) as [pc|] eqn:Hp; cbn.
  - done.
  - apply lookup_lt_Some in Hx. apply lookup_ge_None in Hp. lia.
  - apply lookup_lt_Some in Hp. apply lookup_ge_None in Hx. lia.
  - vec_ring.
Qed.

Lemma b3Mul_row_combination (A : b3SymMat33) (xs ps : b3DenseVec3)
    (alpha : float32) (row : nat) :
  length xs = length ps ->
  b3Mul_row A (dv_add xs (dv_scale alpha ps)) row
  = vadd (b3Mul_row A xs row) (vscale alpha (b3Mul_row A ps row)).
Proof.
  intros Hl. unfold b3Mul_row.
  assert (H : forall cols o1 o2,
    foldl (fun out column =>
             vadd out (mmulv (at_ A row column)
                         (dv_at (dv_add xs (dv_scale alpha ps)) column)))
      (vadd o1 (vscale alpha o2)) cols
    = vadd (foldl (fun out column =>
                     vadd out (mmulv (at_ A row column) (dv_at xs column))) o1 cols)
        (vscale alpha
           (foldl (fun out column =>
                     vadd out (mmulv (at_ A row column) (dv_at ps column))) o2 cols))).
  { induction cols as [|c cols IH]; intros o1 o2; [done|].
    cbn [foldl]. rewrite <- IH. f_equal. rewrite dv_at_combination by done.
    generalize (at_ A row c) (dv_at xs c) (dv_at ps c). intros B xc pc. vec_ring. }
  rewrite <- H. f_equal. vec_ring.
Qed.

Lemma lookup_dv_sub (a b : b3DenseVec3) (i : nat) :
  dv_sub a b !! i = (x ← a !! i; y ← b !! i; Some (vsub x y)).
Proof. apply lookup_zip_with. Qed.

Lemma lookup_dv_add (a b : b3DenseVec3) (i : nat) :
  dv_add a b !! i = (x ← a !! i; y ← b !! i; Some (vadd x y)).
Proof. apply lookup_zip_with. Qed.

Lemma lookup_dv_scale (s : float32) (a : b3DenseVec3) (i : nat) :
  dv_scale s a !! i = vscale s <$> a !! i.
Proof. apply list_lookup_fmap. Qed.

Lemma lookup_dm_mul (S_ : b3DiagMat33) (a : b3DenseVec3) (i : nat) :
  dm_mul S_ a !! i = (B ← S_ !! i; x ← a !! i; Some (mmulv B x)).
Proof. apply lookup_zip_with. Qed.

Lemma lookup_b3Mul (A : b3SymMat33) (a : b3DenseVec3) (i : nat) :
  b3Mul A a !! i = b3Mul_row A a <$> seq 0 (M A) !! i.
Proof. apply list_lookup_fmap. Qed.

Lemma residual_step (A : b3SymMat33) (b : b3DenseVec3) (S_ : b3DiagMat33)
    (xs ps : b3DenseVec3) (alpha : float32) :
  length xs = length ps ->
  dv_sub (dm_mul S_ (dv_sub b (b3Mul A xs)))
    (dv_scale alpha (dm_mul S_ (b3Mul A ps)))
  = dm_mul S_ (dv_sub b (b3Mul A (dv_add xs (dv_scale alpha ps)))).
Proof.
  intros Hl. apply list_eq. intros i.
  rewrite lookup_dv_sub, lookup_dv_scale, !lookup_dm_mul, !lookup_dv_sub,
    !lookup_b3Mul.
  destruct (S_ !! i) as [Si|]; cbn; [|done].
  destruct (b !! i) as [bi|]; cbn; [|done].
  destruct (seq 0 (M A) !! i) as [j|]; cbn; [|done].
  rewrite b3Mul_row_combination by done.
  generalize (b3Mul_row A xs j) (b3Mul_row A ps j). intros ax ap.
  f_equal. vec_ring.
Qed.

Lemma mpcg_step_residual (count : nat) (A : b3SparseSymMat33) (b : b3DenseVec3)
    (S_ inv_P : b3DiagMat33) (st st' : mpcg_state) :
  mpcg_step A S_ inv_P st = Ok st' -> sized count st ->
  st_r st = dm_mul S_ (dv_sub b (b3Mul A (st_x st))) ->
  st_r st' = dm_mul S_ (dv_sub b (b3Mul A (st_x st'))).
Proof.
  intros Hstep (Hx & _ & Hp) Hr. unfold mpcg_step, fdiv in Hstep.
  destruct (decide (dv_dot (st_p st) _ = 0)); cbn in Hstep; [done|].
  destruct (decide (st_delta_new st = 0)); cbn in Hstep; [done|].
  injection Hstep as <-. cbn [st_x st_r]. rewrite Hr.
  apply residual_step. congruence.
Qed.

Lemma mpcg_iterate_residual (count : nat) (A : b3SparseSymMat33)
    (b : b3DenseVec3) (S_ inv_P : b3DiagMat33) (k : nat) :
  length S_ = count -> length inv_P = count -> M A = count ->
  forall st st', mpcg_iterate k A S_ inv_P st = Ok st' -> sized count st ->
    st_r st = dm_mul S_ (dv_sub b (b3Mul A (st_x st))) ->
    st_r st' = dm_mul S_ (dv_sub b (b3Mul A (st_x st'))).
Proof.
  intros HS HP HM. induction k as [|k IH]; intros st st' Hk Hs Hr;
    cbn [mpcg_iterate] in Hk.
  - by injection Hk as <-.
  - destruct (mpcg_step A S_ inv_P st) as [st1| | |] eqn:Hstep; cbn in Hk; try done.
    apply (IH st1 st' Hk).
    + exact (mpcg_step_sized count A S_ inv_P st st1 HS HP HM Hstep Hs).
    + by eapply mpcg_step_residual.
Qed.

(** X16. In exact arithmetic the residual the loop carries is the filtered
    residual of the current iterate: after any number of passes
    [r = S * (b - A * x)], although [r] is updated by [r - alpha * s] and
    never recomputed.  The buffers all have [count] entries. *)
Theorem mpcg_residual (count : nat) (A : b3SparseSymMat33) (b : b3DenseVec3)
    (S_ inv_P : b3DiagMat33) (zs y : b3DenseVec3) (k : nat) (st : mpcg_state) :
  length S_ = count -> length zs = count -> length y = count ->
  length b = count -> length inv_P = count -> M A = count ->
  mpcg_iterate k A S_ inv_P (mpcg_init count A b S_ inv_P zs y) = Ok st ->
  st_r st = dm_mul S_ (dv_sub b (b3Mul A (st_x st))) /\
  st_iteration st = k /\ sized count st.
Proof.
  intros HS Hz Hy Hb HP HM Hk.
  pose proof (mpcg_init_sized count A b S_ inv_P zs y HS Hz Hy Hb HP HM) as Hs0.
  split; [|split].
  - by apply (mpcg_iterate_residual count A b S_ inv_P k HS HP HM _ _ Hk Hs0).
  - apply mpcg_iterate_iteration in Hk. cbn in Hk. lia.
  - by apply (mpcg_iterate_sized count A S_ inv_P k HS HP HM _ _ Hk).
Qed.

(** ** A system without a free direction *)

Lemma dm_mul_zero_blocks (S_ : b3DiagMat33) (w : b3DenseVec3) :
  Forall (fun B => B = b3Mat33_zero) S_ ->
  Forall (fun a => a = b3Vec3_zero) (dm_mul S_ w).
Proof.
  intros H. apply Forall_lookup. intros i a Ha. unfold dm_mul in Ha.
  apply lookup_zip_with_Some in Ha as (B & wi & -> & HB & _).
  rewrite (proj1 (Forall_lookup _ _) H i B HB). apply mmulv_zero_l.
Qed.

Lemma dv_dot_zero_l (l w : b3DenseVec3) :
  Forall (fun a => a = b3Vec3_zero) l -> dv_dot l w = 0.
Proof.
  unfold dv_dot. intros H. revert w.
  induction H as [|a l -> _ IH]; intros w; [done|].
  destruct w as [|b w]; [done|]. cbn [zip_with foldr]. rewrite IH.
  unfold b3Dot. cbn. ring.
Qed.

Lemma mpcg_init_pinned (count : nat) (A : b3SparseSymMat33) (b : b3DenseVec3)
    (S_ inv_P : b3DiagMat33) (zs y : b3DenseVec3) :
  Forall (fun B => B = b3Mat33_zero) S_ ->
  length S_ = count -> length zs = count -> length y = count ->
  st_x (mpcg_init count A b S_ inv_P zs y) = zs /\
  st_delta_new (mpcg_init count A b S_ inv_P zs y) = 0 /\
  mpcg_b_delta count A b S_ inv_P zs = 0.
Proof.
  intros H0 HS Hz Hy. unfold mpcg_init, mpcg_b_delta. cbn [st_x st_delta_new].
  split; [|split].
  - apply list_eq. intros i. unfold dv_add, dm_mul, dm_sub, dm_identity.
    rewrite !lookup_zip_with.
    destruct (decide (i < count)%nat) as [Hi|Hi].
    + destruct (lookup_lt_is_Some_2 S_ i) as [B HB]; [lia|].
      destruct (lookup_lt_is_Some_2 y i) as [yi Hyi]; [lia|].
      destruct (lookup_lt_is_Some_2 zs i) as [zi Hzi]; [lia|].
      rewrite HB, Hyi, Hzi, (lookup_replicate_2 _ _ _ Hi). cbn.
      rewrite (proj1 (Forall_lookup _ _) H0 i B HB). f_equal. vec_ring.
    + rewrite (lookup_ge_None_2 S_) by lia. cbn.
      by rewrite (lookup_ge_None_2 zs) by lia.
  - apply dv_dot_zero_l. by apply dm_mul_zero_blocks.
  - apply dv_dot_zero_l. by apply dm_mul_zero_blocks.
Qed.

Lemma Solve_Ax_b_zero_filter (count : nat) (A : b3SparseSymMat33)
    (b : b3DenseVec3) (S_ inv_P : b3DiagMat33) (zs y : b3DenseVec3) :
  Forall (fun B => B = b3Mat33_zero) S_ ->
  length S_ = count -> length zs = count -> length y = count ->
  preconditioner count A = Ok inv_P ->
  Solve_Ax_b count A b S_ zs y = Ok (zs, 0%nat).
Proof.
  intros H0 HS Hz Hy HP. unfold Solve_Ax_b. rewrite HP. cbn.
  destruct (mpcg_init_pinned count A b S_ inv_P zs y H0 HS Hz Hy) as (Hx & Hd & Hb).
  change (mpcg_loop (S max_iterations) A S_ inv_P
            (mpcg_b_delta count A b S_ inv_P zs)
            (mpcg_init count A b S_ inv_P zs y))
    with (if decide (max_iterations <= st_iteration (mpcg_init count A b S_ inv_P zs y))%nat
          then Ok (mpcg_init count A b S_ inv_P zs y)
          else if decide (converged (mpcg_b_delta count A b S_ inv_P zs)
                            (mpcg_init count A b S_ inv_P zs y))
               then Ok (mpcg_init count A b S_ inv_P zs y)
               else st' ← mpcg_step A S_ inv_P (mpcg_init count A b S_ inv_P zs y);
                    mpcg_loop max_iterations A S_ inv_P
                      (mpcg_b_delta count A b S_ inv_P zs) st').
  rewrite decide_False by (unfold mpcg_init, max_iterations; cbn [st_iteration]; lia).
  rewrite decide_True.
  - unfold mbind, result_bind, bind. by rewrite Hx.
  - unfold converged. rewrite Hd, Hb.
    replace (tolerance * tolerance * 0) with 0 by ring. apply Qcle_refl.
Qed.

(** X17. When the filter has no free direction (every block of [S] is
    zero) the loop is left at its first convergence check: the solve returns
    the targets [z] after 0 iterations, whatever [A], [b] and the warm start
    are, provided the preconditioner assertions pass.  This is the case of a
    solver all of whose particles are without a degree of freedom. *)
Theorem Solve_Ax_b_pinned (solver : b3ClothSolver) (dt0 : float32)
    (gravity : b3Vec3) :
  (forall count A b S_ inv_P zs y,
     Forall (fun B => B = b3Mat33_zero) S_ ->
     length S_ = count -> length zs = count -> length y = count ->
     preconditioner count A = Ok inv_P ->
     Solve_Ax_b count A b S_ zs y = Ok (zs, 0%nat)) /\
  (forall solver' iterations,
     (forall i, (i < m_particleCount solver)%nat -> zero_dof solver i) ->
     Solve solver dt0 gravity = Ok (solver', iterations) ->
     iterations = 0%nat).
Proof.
  split; [exact Solve_Ax_b_zero_filter|].
  intros solver' iterations Hzero Hsolve. unfold Solve in Hsolve.
  set (a := assemble solver dt0 gravity) in *.
  destruct (Compute_S_z_lengths (m_particleCount solver) (InitializeConstraints solver))
    as [HlS Hlz].
  assert (H0 : Forall (fun B => B = b3Mat33_zero) (S_z a).1).
  { apply Forall_lookup. intros i B HB.
    assert (Hi : (i < m_particleCount solver)%nat).
    { apply lookup_lt_Some in HB. subst a. unfold assemble in HB. cbn [S_z] in HB. lia. }
    pose proof (zero_dof_block solver i Hi (Hzero i Hi)) as HZ.
    subst a. unfold assemble in HB. cbn [S_z] in HB. congruence. }
  destruct (preconditioner (m_particleCount solver) (A a)) as [inv_P| | |] eqn:HP.
  - rewrite (Solve_Ax_b_zero_filter _ _ _ _ inv_P) in Hsolve; try done.
    + cbn in Hsolve. by injection Hsolve as _ <-.
    + subst a. unfold assemble. cbn [sx0]. by rewrite length_map.
  - unfold Solve_Ax_b in Hsolve. by rewrite HP in Hsolve.
  - unfold Solve_Ax_b in Hsolve. by rewrite HP in Hsolve.
  - unfold Solve_Ax_b in Hsolve. by rewrite HP in Hsolve.
Qed.

(** ** Writing the state back *)

(** A force reads positions and velocities and writes forces and
    Jacobians: it leaves the position and velocity buffers and the sizes
    alone. *)
Definition forces_keep_state : Prop :=
  forall force d,
    x (Apply force d) = x d /\ v (Apply force d) = v d /\
    length (f (Apply force d)) = length (f d) /\
    M (dfdx (Apply force d)) = M (dfdx d).

Lemma forces_keep_state_buffers : forces_keep_state -> forces_keep_buffers.
Proof. intros H force d. by destruct (H force d) as (_ & ? & ? & ?). Qed.

Lemma ApplyForces_keeps_x (fs : list b3Force) (d : b3ClothSolverData) :
  forces_keep_state -> x (ApplyForces fs d) = x d.
Proof.
  intros HF. unfold ApplyForces. revert d.
  induction fs as [|force fs IH]; intros d; [done|].
  cbn [foldl]. rewrite IH. unfold apply_force. cbn [x]. apply HF.
Qed.

Lemma correct_position_length (contacts : list b3BodyContact) (ys : b3DenseVec3) :
  length (foldl correct_position ys contacts) = length ys.
Proof.
  revert ys. induction contacts as [|c contacts IH]; intros ys; [done|].
  cbn [foldl]. rewrite IH. unfold correct_position. by rewrite length_alter.
Qed.

(** The sizes of what [Solve(dt, gravity)] hands to the MPCG call. *)
Lemma assemble_sizes (solver : b3ClothSolver) (dt0 : float32) (gravity : b3Vec3) :
  forces_keep_buffers ->
  length (S_z (assemble solver dt0 gravity)).1 = m_particleCount solver /\
  length (S_z (assemble solver dt0 gravity)).2 = m_particleCount solver /\
  length (sx0 (assemble solver dt0 gravity)) = m_particleCount solver /\
  length (sy (assemble solver dt0 gravity)) = m_particleCount solver /\
  length (b (assemble solver dt0 gravity)) = m_particleCount solver /\
  M (A (assemble solver dt0 gravity)) = m_particleCount solver /\
  v (data (assemble solver dt0 gravity)) = map m_velocity (m_particles solver).
Proof.
  intros HF.
  destruct (Compute_S_z_lengths (m_particleCount solver) (InitializeConstraints solver))
    as [HlS Hlz].
  destruct (ApplyForces_keeps
              (InitializeForces (m_forces solver) (gathered solver dt0 gravity))
              (gathered solver dt0 gravity) HF) as (Hv & Hlf & HM).
  cbn [gathered f dfdx sym_zero M v] in Hv, Hlf, HM. rewrite length_map in Hlf.
  unfold assemble. cbn [S_z sx0 sy b A data].
  repeat split; try done.
  - by rewrite length_map.
  - by rewrite correct_position_length, length_map.
  - unfold Compute_b, m_particleCount in *. sizes.
  - by rewrite Compute_A_M.
Qed.

Lemma Solve_Ax_b_length (count : nat) (A : b3SparseSymMat33) (b : b3DenseVec3)
    (S_ : b3DiagMat33) (zs y x_ : b3DenseVec3) (iterations : nat) :
  length S_ = count -> length zs = count -> length y = count ->
  length b = count -> M A = count ->
  Solve_Ax_b count A b S_ zs y = Ok (x_, iterations) -> length x_ = count.
Proof.
  intros HS Hz Hy Hb HM (inv_P & k & st & HP & Hk & <-)%Solve_Ax_b_Ok.
  apply preconditioner_length in HP.
  assert (Hs : sized count st); [|by destruct Hs].
  eapply (mpcg_iterate_sized count A S_ inv_P k); try done.
  by apply mpcg_init_sized.
Qed.

(** X18. A solve that returns leaves the number of particles, and the
    type, mass, pending force and pending translation of every particle as
    they were: clearing them is left to the caller.  Each particle's cached
    [m_x] is the solved velocity increment, its velocity is the old one plus
    [m_x], and its position advances by [dt] times the new velocity, plus
    the pending translation, minus [s * n] for each contact on it.  Of a
    contact only the three force magnitudes are written. *)
Theorem Solve_scatter (solver solver' : b3ClothSolver) (dt0 : float32)
    (gravity : b3Vec3) (iterations : nat) :
  forces_keep_state ->
  Solve solver dt0 gravity = Ok (solver', iterations) ->
  length (m_particles solver') = m_particleCount solver /\
  m_forces solver' =
    InitializeForces (m_forces solver) (gathered solver dt0 gravity) /\
  (forall i pt, m_particles solver !! i = Some pt ->
     exists pt', m_particles solver' !! i = Some pt' /\
       m_type pt' = m_type pt /\ m_mass pt' = m_mass pt /\
       m_force pt' = m_force pt /\ m_translation pt' = m_translation pt /\
       m_velocity pt' = vadd (m_velocity pt) (m_x pt') /\
       m_position pt' =
         vadd (vadd (m_position pt) (vscale dt0 (m_velocity pt')))
           (biased i (m_contacts solver) (m_translation pt))) /\
  (forall k pc, m_contacts solver !! k = Some pc ->
     exists pc', m_contacts solver' !! k = Some pc' /\
       p1 pc' = p1 pc /\ s pc' = s pc /\ n pc' = n pc /\
       t1 pc' = t1 pc /\ t2 pc' = t2 pc /\
       t1_active pc' = t1_active pc /\ t2_active pc' = t2_active pc).
Proof.
  intros HF Hsolve. unfold Solve in Hsolve.
  destruct (assemble_sizes solver dt0 gravity (forces_keep_state_buffers HF))
    as (HlS & Hlz & Hl0 & Hly & Hlb & HM & Hv).
  pose proof (ApplyForces_keeps_x
                (InitializeForces (m_forces solver) (gathered solver dt0 gravity))
                (gathered solver dt0 gravity) HF) as Hx.
  cbn [gathered x] in Hx.
  set (a := assemble solver dt0 gravity) in *.
  destruct (Solve_Ax_b (m_particleCount solver) (A a) (b a) (S_z a).1 (S_z a).2 (sx0 a))
    as [[x_ its]| | |] eqn:Hsolve'; unfold mbind, result_bind, bind in Hsolve;
    cbv beta iota zeta in Hsolve; try discriminate Hsolve.
  injection Hsolve as <- <-. cbn [m_particles m_forces m_contacts fst snd].
  pose proof (Solve_Ax_b_length _ _ _ _ _ _ _ _ HlS Hlz Hl0 Hlb HM Hsolve') as Hlx.
  split; [by rewrite length_imap|]. split; [done|]. split.
  - intros i pt Hpt.
    assert (Hi : (i < m_particleCount solver)%nat) by (by eapply lookup_lt_Some).
    destruct (lookup_lt_is_Some_2 x_ i) as [xi Hxi]; [lia|].
    rewrite list_lookup_imap, Hpt. cbn. eexists. split; [reflexivity|].
    cbn [m_type m_mass m_force m_translation m_velocity m_position m_x set_state].
    assert (Hsv : dv_add (v (data a)) x_ !! i = Some (vadd (m_velocity pt) xi)).
    { rewrite lookup_dv_add, Hv, list_lookup_fmap, Hpt, Hxi. done. }
    assert (Hsy : sy a !! i = Some (biased i (m_contacts solver) (m_translation pt))).
    { subst a. unfold assemble. cbn [sy].
      by rewrite correct_position_lookup, list_lookup_fmap, Hpt. }
    assert (Hpos : x (data a) !! i = Some (m_position pt)).
    { subst a. unfold assemble. cbn [data]. by rewrite Hx, list_lookup_fmap, Hpt. }
    subst a. unfold assemble in Hsv, Hsy, Hpos. cbn [data sy] in Hsv, Hsy, Hpos.
    unfold dv_at. rewrite Hsv, !lookup_dv_add, lookup_dv_scale.
    rewrite Hsv, Hpos, Hsy, Hxi. cbn. by repeat split.
  - intros k pc Hpc. rewrite list_lookup_fmap, Hpc. cbn.
    eexists. split; [reflexivity|]. by repeat split.
Qed.

(** ** A system without coupling *)

(** [A] has [mass i * I] on the diagonal and nothing off it. *)
Definition uncoupled (count : nat) (mass : nat -> float32) (A : b3SymMat33) : Prop :=
  M A = count /\ N A = count /\
  forall i j, (i < count)%nat -> (j < count)%nat ->
    at_ A i j = if decide (i = j) then b3Diagonal (mass i) else b3Mat33_zero.

(** Every block of [S] is the identity (a free particle) or zero (a pinned
    one). *)
Definition free_or_pinned (count : nat) (free : nat -> bool) (S_ : b3DiagMat33)
    : Prop :=
  length S_ = count /\
  forall i, (i < count)%nat ->
    S_ !! i = Some (if free i then b3Mat33_identity else b3Mat33_zero).

Lemma dv_dot_comm (a b : b3DenseVec3) : dv_dot a b = dv_dot b a.
Proof.
  unfold dv_dot. revert b. induction a as [|x a IH]; intros [|y b]; try done.
  cbn [zip_with foldr]. rewrite IH. f_equal. unfold b3Dot. ring.
Qed.

Lemma dv_at_lookup (w : b3DenseVec3) (i : nat) :
  (i < length w)%nat -> w !! i = Some (dv_at w i).
Proof.
  intros Hi. unfold dv_at. by destruct (lookup_lt_is_Some_2 w i Hi) as [a ->].
Qed.

Lemma foldl_single (g : nat -> b3Vec3) (i len : nat) :
  forall (lo : nat) (o : b3Vec3),
    (forall c, (lo <= c < lo + len)%nat -> c <> i -> g c = b3Vec3_zero) ->
    foldl (fun out c => vadd out (g c)) o (seq lo len)
    = if decide (lo <= i < lo + len)%nat then vadd o (g i) else o.
Proof.
  induction len as [|len IH]; intros lo o Hg; cbn [seq foldl].
  - by rewrite decide_False by lia.
  - rewrite IH by (intros c Hc Hne; apply Hg; [lia|done]).
    destruct (decide (lo = i)) as [->|Hne].
    + rewrite decide_False by lia. by rewrite decide_True by lia.
    + rewrite (Hg lo) by (done || lia). rewrite vadd_zero_r.
      destruct (decide (S lo <= i < S lo + len)%nat);
        [by rewrite decide_True by lia|by rewrite decide_False by lia].
Qed.

Lemma b3Mul_uncoupled (count : nat) (mass : nat -> float32) (A : b3SymMat33)
    (w : b3DenseVec3) (i : nat) :
  uncoupled count mass A -> (i < count)%nat ->
  b3Mul A w !! i = Some (vscale (mass i) (dv_at w i)).
Proof.
  intros (HM & HN & HA) Hi. rewrite lookup_b3Mul, HM, lookup_seq_lt by done.
  cbn. f_equal. unfold b3Mul_row. rewrite HN.
  rewrite (foldl_single (fun c => mmulv (at_ A i c) (dv_at w c)) i count 0).
  - rewrite decide_True by lia. rewrite HA by done. rewrite decide_True by done.
    generalize (mass i) (dv_at w i). intros m a. vec_ring.
  - intros c Hc Hne. rewrite HA by lia. rewrite decide_False by done.
    apply mmulv_zero_l.
Qed.

Lemma invert_block_diagonal (m : float32) :
  0 < m -> invert_block (b3Diagonal m) = Ok (b3Diagonal (1 / m)).
Proof.
  intros Hm. assert (Hne : m <> 0) by (symmetry; by apply Qclt_not_eq).
  destruct (invert_block_cases (b3Diagonal m))
    as [(_ & _ & _ & _ & ->)|([Hdet|[H|[H|H]]] & _)]; try done.
  exfalso. apply Hdet. unfold b3Det, b3Dot, b3Cross. cbn.
  replace (m * (m * m - 0 * 0) + 0 * (0 * 0 - 0 * m) + 0 * (0 * 0 - m * 0))
    with (m * (m * m)) by ring.
  by repeat apply Qcmult_pos_pos.
Qed.

Lemma preconditioner_uncoupled (count : nat) (mass : nat -> float32)
    (A : b3SymMat33) :
  uncoupled count mass A -> (forall i, (i < count)%nat -> 0 < mass i) ->
  exists inv_P, preconditioner count A = Ok inv_P /\ length inv_P = count /\
    forall i, (i < count)%nat -> inv_P !! i = Some (b3Diagonal (1 / mass i)).
Proof.
  intros (HM & HN & HA) Hpos. unfold preconditioner, Diagonal.
  destruct (invert_blocks_cases (map (fun i => at_ A i i) (seq 0 count)))
    as [(P' & HP & HF)|(HP & D & Hin & HD)].
  - exists P'. split; [exact HP|]. split.
    + apply Forall2_length in HF. by rewrite length_map, length_seq in HF.
    + intros i Hi.
      assert (HD : map (fun i => at_ A i i) (seq 0 count) !! i = Some (at_ A i i)).
      { rewrite list_lookup_fmap. by rewrite (lookup_seq_lt 0 count i Hi). }
      destruct (Forall2_lookup_l _ _ _ _ _ HF HD) as (D' & HD' & Hinv).
      rewrite HA, decide_True in Hinv by done.
      rewrite invert_block_diagonal in Hinv by (by apply Hpos). congruence.
  - exfalso. apply list_elem_of_fmap in Hin as (i & -> & Hi).
    apply elem_of_seq in Hi. rewrite HA, decide_True in HD by (done || lia).
    rewrite invert_block_diagonal in HD by (apply Hpos; lia). done.
Qed.

Lemma dv_dot_weighted_nonneg (inv_P : b3DiagMat33) (w : b3DenseVec3) :
  Forall (fun B => exists c, 0 <= c /\ B = b3Diagonal c) inv_P ->
  0 <= dv_dot w (dm_mul inv_P w).
Proof.
  unfold dv_dot, dm_mul. intros H. revert w.
  induction H as [|B inv_P (c & Hc & ->) _ IH]; intros w.
  - destruct w; cbn; apply Qcle_refl.
  - destruct w as [|a w]; [cbn; apply Qcle_refl|]. cbn [zip_with foldr].
    apply Qcplus_nonneg_nonneg; [|apply IH].
    replace (b3Dot a (mmulv (b3Diagonal c) a)) with (c * b3Dot a a)
      by (unfold b3Dot; coords; ring).
    apply Qcmult_nonneg_nonneg; [done|apply Cloth.b3Dot_self_nonneg].
Qed.

Lemma lookup_dm_sub (A B : b3DiagMat33) (i : nat) :
  dm_sub A B !! i = (a ← A !! i; b ← B !! i; Some (msub a b)).
Proof. apply lookup_zip_with. Qed.

Lemma vscale_inverse (m : float32) (a : b3Vec3) :
  m <> 0 -> vscale m (vscale (1 / m) a) = a.
Proof. intros Hm. coords. f_equal; by field. Qed.

(** The residual of the first guess at particle [i]. *)
Definition first_residual (mass : nat -> float32) (free : nat -> bool)
    (b y : b3DenseVec3) (i : nat) : b3Vec3 :=
  if free i then vsub (dv_at b i) (vscale (mass i) (dv_at y i)) else b3Vec3_zero.

Section Uncoupled.

Variable count : nat.
Variable mass : nat -> float32.
Variable free : nat -> bool.
Variable A : b3SymMat33.
Variable b : b3DenseVec3.
Variable S_ inv_P : b3DiagMat33.
Variable zs y : b3DenseVec3.

Hypothesis HA : uncoupled count mass A.
Hypothesis HS : free_or_pinned count free S_.
Hypothesis Hmass : forall i, (i < count)%nat -> 0 < mass i.
Hypothesis Hb : length b = count.
Hypothesis Hy : length y = count.
Hypothesis Hz : length zs = count.
Hypothesis Hz0 : Forall (fun a => a = b3Vec3_zero) zs.
Hypothesis HlP : length inv_P = count.
Hypothesis HP : forall i, (i < count)%nat ->
  inv_P !! i = Some (b3Diagonal (1 / mass i)).

Lemma uncoupled_sized : sized count (mpcg_init count A b S_ inv_P zs y).
Proof.
  destruct HA as (HM & _). destruct HS as (HlS & _).
  by apply mpcg_init_sized.
Qed.

Lemma uncoupled_init (i : nat) :
  (i < count)%nat ->
  st_x (mpcg_init count A b S_ inv_P zs y) !! i
    = Some (if free i then dv_at y i else b3Vec3_zero) /\
  st_r (mpcg_init count A b S_ inv_P zs y) !! i
    = Some (first_residual mass free b y i) /\
  st_p (mpcg_init count A b S_ inv_P zs y) !! i
    = Some (vscale (1 / mass i) (first_residual mass free b y i)).
Proof.
  intros Hi. destruct HS as (HlS & HSi).
  assert (Hx : st_x (mpcg_init count A b S_ inv_P zs y) !! i
               = Some (if free i then dv_at y i else b3Vec3_zero)).
  { unfold mpcg_init. cbn [st_x].
    rewrite lookup_dv_add, !lookup_dm_mul, lookup_dm_sub.
    unfold dm_identity. rewrite (lookup_replicate_2 _ _ _ Hi), (HSi i Hi).
    rewrite (dv_at_lookup y i) by lia.
    destruct (lookup_lt_is_Some_2 zs i) as [zi Hzi]; [lia|]. rewrite Hzi.
    rewrite (proj1 (Forall_lookup _ _) Hz0 i zi Hzi). cbn. f_equal.
    generalize (dv_at y i). intros yi. destruct (free i); vec_ring. }
  assert (Hr : st_r (mpcg_init count A b S_ inv_P zs y) !! i
               = Some (first_residual mass free b y i)).
  { change (st_r (mpcg_init count A b S_ inv_P zs y))
      with (dm_mul S_ (dv_sub b (b3Mul A (st_x (mpcg_init count A b S_ inv_P zs y))))).
    rewrite lookup_dm_mul, lookup_dv_sub, (b3Mul_uncoupled count mass) by done.
    assert (Hx' : dv_at (st_x (mpcg_init count A b S_ inv_P zs y)) i
                  = if free i then dv_at y i else b3Vec3_zero)
      by (unfold dv_at at 1; by rewrite Hx).
    rewrite Hx', (HSi i Hi), (dv_at_lookup b i) by lia. cbn. f_equal.
    unfold first_residual.
    generalize (dv_at b i) (dv_at y i) (mass i). intros bi yi m.
    destruct (free i); vec_ring. }
  split; [exact Hx|]. split; [exact Hr|].
  change (st_p (mpcg_init count A b S_ inv_P zs y))
    with (dm_mul S_ (dm_mul inv_P (st_r (mpcg_init count A b S_ inv_P zs y)))).
  rewrite !lookup_dm_mul, Hr, (HSi i Hi), (HP i Hi). cbn. f_equal.
  unfold first_residual.
  generalize (dv_at b i) (dv_at y i) (mass i) (1 / mass i). intros bi yi m c.
  destruct (free i); vec_ring.
Qed.

Lemma uncoupled_direction :
  dm_mul S_ (b3Mul A (st_p (mpcg_init count A b S_ inv_P zs y)))
  = st_r (mpcg_init count A b S_ inv_P zs y).
Proof.
  destruct uncoupled_sized as (_ & Hlr & _). destruct HS as (HlS & HSi).
  apply list_eq. intros i. destruct (decide (i < count)%nat) as [Hi|Hi].
  - destruct (uncoupled_init i Hi) as (_ & Hr & Hp).
    rewrite lookup_dm_mul, (b3Mul_uncoupled count mass) by done.
    assert (Hp' : dv_at (st_p (mpcg_init count A b S_ inv_P zs y)) i
                  = vscale (1 / mass i) (first_residual mass free b y i))
      by (unfold dv_at at 1; by rewrite Hp).
    rewrite Hp', (HSi i Hi), Hr. cbn. f_equal.
    assert (Hm : mass i <> 0) by (symmetry; by apply Qclt_not_eq, Hmass).
    rewrite vscale_inverse by done. unfold first_residual.
    destruct (free i); [apply mmulv_identity|apply mmulv_zero_l].
  - rewrite lookup_dm_mul, (lookup_ge_None_2 S_) by lia.
    by rewrite (lookup_ge_None_2 (st_r _)) by lia.
Qed.

Lemma uncoupled_b_delta : 0 <= mpcg_b_delta count A b S_ inv_P zs.
Proof.
  unfold mpcg_b_delta. apply dv_dot_weighted_nonneg.
  apply Forall_lookup. intros i B HB.
  assert (Hi : (i < count)%nat) by (apply lookup_lt_Some in HB; lia).
  rewrite (HP i Hi) in HB. injection HB as <-. exists (1 / mass i). split; [|done].
  apply Qclt_le_weak. unfold Qcdiv. rewrite Qcmult_1_l. by apply Qcinv_pos, Hmass.
Qed.

Lemma uncoupled_step :
  st_delta_new (mpcg_init count A b S_ inv_P zs y) <> 0 ->
  exists st1,
    mpcg_step A S_ inv_P (mpcg_init count A b S_ inv_P zs y) = Ok st1 /\
    st_x st1 = dv_add (st_x (mpcg_init count A b S_ inv_P zs y))
                 (dv_scale 1 (st_p (mpcg_init count A b S_ inv_P zs y))) /\
    st_delta_new st1 = 0 /\ st_iteration st1 = 1%nat.
Proof.
  intros Hd. unfold mpcg_step. rewrite uncoupled_direction.
  rewrite (dv_dot_comm (st_p _) (st_r _)).
  change (dv_dot (st_r (mpcg_init count A b S_ inv_P zs y))
            (st_p (mpcg_init count A b S_ inv_P zs y)))
    with (st_delta_new (mpcg_init count A b S_ inv_P zs y)).
  set (st0 := mpcg_init count A b S_ inv_P zs y) in *.
  unfold fdiv, mbind, result_bind, bind. cbv beta iota zeta.
  repeat (rewrite decide_False by done; cbv beta iota zeta).
  eexists. split; [reflexivity|]. cbn [st_x st_delta_new st_iteration].
  assert (H1 : st_delta_new st0 / st_delta_new st0 = 1) by (by field).
  rewrite H1. split; [done|]. split; [|done].
  apply dv_dot_zero_l. apply Forall_lookup. intros i a Ha.
  rewrite lookup_dv_sub, lookup_dv_scale in Ha.
  destruct (st_r st0 !! i) as [ri|]; cbn in Ha; [|done].
  injection Ha as <-. vec_ring.
Qed.

(** The solve of an uncoupled system: no pass when the first guess passes
    the convergence check, one pass to the exact solution otherwise. *)
Lemma Solve_Ax_b_uncoupled :
  preconditioner count A = Ok inv_P ->
  exists x_ iterations,
    Solve_Ax_b count A b S_ zs y = Ok (x_, iterations) /\
    ((iterations = 0%nat /\
      converged (mpcg_b_delta count A b S_ inv_P zs)
        (mpcg_init count A b S_ inv_P zs y) /\
      forall i, (i < count)%nat ->
        x_ !! i = Some (if free i then dv_at y i else b3Vec3_zero)) \/
     (iterations = 1%nat /\
      forall i, (i < count)%nat ->
        x_ !! i = Some (if free i then vscale (1 / mass i) (dv_at b i)
                        else b3Vec3_zero))).
Proof.
  intros HPre. unfold Solve_Ax_b. rewrite HPre.
  unfold mbind at 1, result_bind at 1, bind at 1. cbv beta iota.
  set (st0 := mpcg_init count A b S_ inv_P zs y).
  set (b_delta := mpcg_b_delta count A b S_ inv_P zs).
  assert (Hfuel : (max_iterations - st_iteration st0 < S max_iterations)%nat)
    by (unfold st0, mpcg_init, max_iterations; cbn [st_iteration]; lia).
  destruct (mpcg_loop_spec A S_ inv_P b_delta (S max_iterations) st0 Hfuel)
    as (_ & _ & Hok).
  assert (Hcap : ~ (max_iterations <= st_iteration st0)%nat)
    by (unfold st0, mpcg_init, max_iterations; cbn [st_iteration]; lia).
  destruct (decide (converged b_delta st0)) as [Hconv|Hconv].
  - exists (st_x st0), 0%nat. split.
    + assert (Hloop : mpcg_loop (S max_iterations) A S_ inv_P b_delta st0 = Ok st0).
      { apply Hok. exists 0%nat. split; [done|]. split; [by right|].
        intros j Hj. lia. }
      by rewrite Hloop.
    + left. split; [done|]. split; [done|].
      intros i Hi. by destruct (uncoupled_init i Hi).
  - assert (Hd : st_delta_new st0 <> 0).
    { intros E. apply Hconv. unfold converged. rewrite E.
      apply Qcmult_nonneg_nonneg; [apply Cloth.Qc_square_nonneg|].
      apply uncoupled_b_delta. }
    destruct (uncoupled_step Hd) as (st1 & Hstep & Hx1 & Hd1 & Hit1).
    fold st0 in Hstep, Hx1.
    exists (st_x st1), 1%nat. split.
    + assert (Hloop : mpcg_loop (S max_iterations) A S_ inv_P b_delta st0 = Ok st1).
      { apply Hok. exists 1%nat. split.
        - cbn [mpcg_iterate]. by rewrite Hstep.
        - split.
          + right. unfold converged. rewrite Hd1.
            apply Qcmult_nonneg_nonneg; [apply Cloth.Qc_square_nonneg|].
            apply uncoupled_b_delta.
          + intros j Hj. assert (j = 0%nat) as -> by lia.
            exists st0. split; [done|]. unfold stops. tauto. }
      rewrite Hloop. unfold mbind, result_bind, bind. by rewrite Hit1.
    + right. split; [done|]. intros i Hi.
      destruct (uncoupled_init i Hi) as (Hx & _ & Hp).
      rewrite Hx1, lookup_dv_add, lookup_dv_scale. fold st0 in Hx, Hp.
      rewrite Hx, Hp. cbn. f_equal. unfold first_residual.
      assert (Hm : mass i <> 0) by (symmetry; by apply Qclt_not_eq, Hmass).
      generalize (dv_at b i) (dv_at y i). intros bi yi.
      destruct (free i); coords; f_equal; by field.
Qed.

Lemma Qc_sum_zero (a c : Qc) : 0 <= a -> 0 <= c -> a + c = 0 -> a = 0 /\ c = 0.
Proof.
  intros Ha Hc H.
  assert (Ha' : a <= 0).
  { rewrite <- H. rewrite <- (Qcplus_0_r a) at 1.
    apply Qcplus_le_compat; [apply Qcle_refl|done]. }
  assert (E : a = 0) by (by apply Qcle_antisym).
  split; [done|]. rewrite E, Qcplus_0_l in H. done.
Qed.

Lemma Qc_square_zero (a : Qc) : a * a = 0 -> a = 0.
Proof. by intros [H|H]%Qcmult_integral. Qed.

Lemma b3Dot_self_zero (a : b3Vec3) : b3Dot a a = 0 -> a = b3Vec3_zero.
Proof.
  destruct a as [ax ay az]. unfold b3Dot, b3Vec3_zero. cbn [vx vy vz]. intros H.
  apply Qc_sum_zero in H as [H Ez];
    [|apply Qcplus_nonneg_nonneg; apply Cloth.Qc_square_nonneg
     |apply Cloth.Qc_square_nonneg].
  apply Qc_sum_zero in H as [Ex Ey]; [|apply Cloth.Qc_square_nonneg..].
  apply Qc_square_zero in Ex, Ey, Ez. by subst.
Qed.

Lemma dv_dot_weighted_zero (blocks : b3DiagMat33) :
  Forall (fun B => exists c, 0 < c /\ B = b3Diagonal c) blocks ->
  forall w, (length w <= length blocks)%nat ->
    dv_dot w (dm_mul blocks w) = 0 -> Forall (fun a => a = b3Vec3_zero) w.
Proof.
  unfold dv_dot, dm_mul. intros H.
  induction H as [|B blocks (c & Hc & ->) HF IH]; intros w Hl Hw.
  - destruct w; [done|cbn in Hl; lia].
  - destruct w as [|a w]; [done|]. cbn [zip_with foldr] in Hw.
    cbn [length] in Hl.
    replace (b3Dot a (mmulv (b3Diagonal c) a)) with (c * b3Dot a a) in Hw
      by (unfold b3Dot; coords; ring).
    apply Qc_sum_zero in Hw as [Ha Hw].
    + constructor; [|apply IH; [lia|done]].
      apply Qcmult_integral in Ha as [Ha|Ha]; [|by apply b3Dot_self_zero].
      exfalso. by apply (Qclt_not_eq 0 c).
    + apply Qcmult_nonneg_nonneg;
        [by apply Qclt_le_weak|apply Cloth.b3Dot_self_nonneg].
    + apply (dv_dot_weighted_nonneg blocks w).
      eapply Forall_impl; [exact HF|]. intros B (c' & Hc' & ->).
      exists c'. split; [by apply Qclt_le_weak|done].
Qed.

Lemma below_tolerance (D : float32) :
  0 <= D -> D <= tolerance * tolerance * D -> D = 0.
Proof.
  intros Hpos Hle. destruct (Qclt_le_dec 0 D) as [Hlt|Hneg];
    [|by apply Qcle_antisym].
  exfalso. apply (Qclt_not_le (tolerance * tolerance * D) D); [|done].
  rewrite <- (Qcmult_1_l D) at 2. by apply Qcmult_lt_compat_r.
Qed.

(** A first guess that is zero on the free particles passes the
    convergence check only when the right-hand side is zero on them. *)
Lemma uncoupled_fresh :
  (forall i, (i < count)%nat -> free i = true -> dv_at y i = b3Vec3_zero) ->
  converged (mpcg_b_delta count A b S_ inv_P zs)
    (mpcg_init count A b S_ inv_P zs y) ->
  forall i, (i < count)%nat -> free i = true -> dv_at b i = b3Vec3_zero.
Proof.
  intros Hy0 Hconv.
  destruct uncoupled_sized as (_ & Hlr & Hlp). destruct HS as (HlS & HSi).
  set (st0 := mpcg_init count A b S_ inv_P zs y) in *.
  assert (Hhat : dm_mul S_ (dv_sub b (b3Mul A (dm_mul (dm_sub (dm_identity count) S_) zs)))
                 = st_r st0).
  { apply list_eq. intros i. destruct (decide (i < count)%nat) as [Hi|Hi].
    - destruct (uncoupled_init i Hi) as (_ & Hr & _). fold st0 in Hr.
      rewrite Hr, lookup_dm_mul, lookup_dv_sub, (b3Mul_uncoupled count mass) by done.
      assert (Hz' : dv_at (dm_mul (dm_sub (dm_identity count) S_) zs) i = b3Vec3_zero).
      { unfold dv_at at 1. rewrite lookup_dm_mul, lookup_dm_sub.
        unfold dm_identity. rewrite (lookup_replicate_2 _ _ _ Hi), (HSi i Hi).
        destruct (lookup_lt_is_Some_2 zs i) as [zi Hzi]; [lia|]. rewrite Hzi.
        rewrite (proj1 (Forall_lookup _ _) Hz0 i zi Hzi). cbn.
        destruct (free i); vec_ring. }
      rewrite Hz', (HSi i Hi), (dv_at_lookup b i) by lia. cbn. f_equal.
      unfold first_residual. pose proof (Hy0 i Hi) as Hyi.
      destruct (free i); [rewrite Hyi by done|]; vec_ring.
    - rewrite lookup_dm_mul, (lookup_ge_None_2 S_) by lia.
      by rewrite (lookup_ge_None_2 (st_r _)) by lia. }
  assert (Hdir : st_p st0 = dm_mul inv_P (st_r st0)).
  { apply list_eq. intros i. destruct (decide (i < count)%nat) as [Hi|Hi].
    - destruct (uncoupled_init i Hi) as (_ & Hr & Hp). fold st0 in Hr, Hp.
      rewrite Hp, lookup_dm_mul, (HP i Hi), Hr. cbn. f_equal. vec_ring.
    - rewrite lookup_dm_mul, (lookup_ge_None_2 inv_P) by lia.
      by rewrite (lookup_ge_None_2 (st_p _)) by lia. }
  assert (Hdelta : st_delta_new st0 = dv_dot (st_r st0) (dm_mul inv_P (st_r st0))).
  { rewrite <- Hdir. reflexivity. }
  assert (Hb_delta : mpcg_b_delta count A b S_ inv_P zs
                     = dv_dot (st_r st0) (dm_mul inv_P (st_r st0))).
  { unfold mpcg_b_delta. cbv zeta. by rewrite Hhat. }
  unfold converged in Hconv. rewrite Hb_delta, Hdelta in Hconv.
  assert (Hpos : Forall (fun B => exists c, 0 < c /\ B = b3Diagonal c) inv_P).
  { apply Forall_lookup. intros i B HB.
    assert (Hi : (i < count)%nat) by (apply lookup_lt_Some in HB; lia).
    rewrite (HP i Hi) in HB. injection HB as <-. exists (1 / mass i).
    split; [|done]. unfold Qcdiv. rewrite Qcmult_1_l. by apply Qcinv_pos, Hmass. }
  apply below_tolerance in Hconv.
  - apply (dv_dot_weighted_zero inv_P Hpos) in Hconv; [|lia].
    intros i Hi Hfree. destruct (uncoupled_init i Hi) as (_ & Hr & _).
    fold st0 in Hr. pose proof (proj1 (Forall_lookup _ _) Hconv i _ Hr) as H0.
    unfold first_residual in H0. rewrite Hfree, (Hy0 i Hi Hfree) in H0.
    rewrite <- H0. generalize (dv_at b i) (mass i). intros bi m. vec_ring.
  - apply dv_dot_weighted_nonneg. eapply Forall_impl; [exact Hpos|].
    intros B (c & Hc & ->). exists c. split; [by apply Qclt_le_weak|done].
Qed.

(** From such a first guess the solve returns the exact solution. *)
Lemma Solve_Ax_b_uncoupled_fresh :
  preconditioner count A = Ok inv_P ->
  (forall i, (i < count)%nat -> free i = true -> dv_at y i = b3Vec3_zero) ->
  forall x_ iterations,
    Solve_Ax_b count A b S_ zs y = Ok (x_, iterations) ->
    forall i, (i < count)%nat ->
      x_ !! i = Some (if free i then vscale (1 / mass i) (dv_at b i)
                      else b3Vec3_zero).
Proof.
  intros HPre Hy0 x_ iterations Hsolve i Hi.
  destruct (Solve_Ax_b_uncoupled HPre)
    as (x' & its & Hs & [(_ & Hconv & Hx)|(_ & Hx)]);
    rewrite Hs in Hsolve; injection Hsolve as <- <-; [|by apply Hx].
  rewrite (Hx i Hi). f_equal. destruct (free i) eqn:Hfree; [|done].
  rewrite (Hy0 i Hi Hfree), (uncoupled_fresh Hy0 Hconv i Hi Hfree).
  generalize (1 / mass i). intros c. vec_ring.
Qed.

End Uncoupled.


(** ** A solve without internal forces or contacts *)

Lemma foldl_keeps_N {X : Type} (F : b3SymMat33 -> X -> b3SymMat33) (l : list X) :
  (forall A x, N (F A x) = N A) -> forall A, N (foldl F A l) = N A.
Proof.
  intros HF. induction l as [|x l IH]; intros A; [done|].
  cbn [foldl]. by rewrite IH, HF.
Qed.

Lemma Compute_A_N (particles : list b3Particle) (data : b3ClothSolverData)
    (A : b3SparseSymMat33) :
  N (Compute_A particles data A) = N A.
Proof.
  unfold Compute_A, for_upper. cbn zeta.
  repeat (rewrite foldl_keeps_N;
          [|intros; try (apply foldl_keeps_N; intros); reflexivity]).
  done.
Qed.

Lemma at_sym_zero (n i j : nat) : at_ (sym_zero n) i j = b3Mat33_zero.
Proof. unfold at_, sym_zero. cbn [values]. by case_decide. Qed.

Lemma sym_zero_uncoupled (n : nat) : uncoupled n (fun _ => 0) (sym_zero n).
Proof.
  split; [done|]. split; [done|]. intros i j _ _. rewrite at_sym_zero.
  by case_decide.
Qed.

(** With no force Jacobians the system matrix is the mass matrix. *)
Lemma Compute_A_uncoupled (particles : list b3Particle) (d : b3ClothSolverData) :
  dfdx d = sym_zero (length particles) -> dfdv d = sym_zero (length particles) ->
  uncoupled (length particles) (mass_of particles)
    (Compute_A particles d (sym_zero (length particles))).
Proof.
  intros Hdx Hdv. split; [by rewrite Compute_A_M|]. split; [by rewrite Compute_A_N|].
  intros i j Hi Hj. unfold at_. rewrite !Compute_A_values, Hdx, Hdv, !at_sym_zero.
  generalize (mass_of particles i) (dt d). intros m h.
  repeat case_decide; try (exfalso; lia); subst; vec_ring.
Qed.

(** The particle is free to move: it is dynamic. *)
Definition is_free (particles : list b3Particle) (i : nat) : bool :=
  match particles !! i with
  | Some pt => bool_decide (m_type pt = e_dynamicParticle)
  | None => false
  end.

Lemma no_contacts_filter (particles : list b3Particle) :
  free_or_pinned (length particles) (is_free particles)
    (Compute_S_z (length particles)
       (InitializeConstraints (mkClothSolver particles [] []))).1.
Proof.
  split; [by destruct (Compute_S_z_lengths (length particles)
                         (InitializeConstraints (mkClothSolver particles [] [])))|].
  intros i Hi. unfold is_free.
  destruct (lookup_lt_is_Some_2 particles i Hi) as [pt Hpt]. rewrite Hpt.
  case_bool_decide as Hdyn.
  - apply Compute_S_z_free; [done|]. unfold InitializeConstraints.
    cbn [m_particles m_contacts map]. rewrite app_nil_r. intros ac Hac Hi1.
    apply particle_constraints_elem in Hac as (j & pt' & Hpt' & Hnd & ->).
    cbn [i1] in Hi1. subst j. congruence.
  - apply (zero_dof_block (mkClothSolver particles [] []) i Hi). split.
    + left. by exists pt.
    + cbn [m_contacts]. intros pc Hpc. inversion Hpc.
Qed.

Lemma no_contacts_targets (particles : list b3Particle) :
  Forall (fun a => a = b3Vec3_zero)
    (Compute_S_z (length particles)
       (InitializeConstraints (mkClothSolver particles [] []))).2.
Proof.
  apply Forall_lookup. intros i zi Hzi.
  eapply Compute_S_z_zero_target; [|exact Hzi].
  apply InitializeConstraints_z.
Qed.

(** With no force Jacobians the right-hand side is [h] times the force. *)
Lemma Compute_b_lookup (d : b3ClothSolverData) (fs vs ys : b3DenseVec3)
    (i : nat) (fi : b3Vec3) :
  dfdx d = sym_zero (length fs) -> fs !! i = Some fi ->
  Compute_b d fs vs ys !! i = Some (vscale (dt d) fi).
Proof.
  intros Hdx Hfi. assert (Hi : (i < length fs)%nat) by (by eapply lookup_lt_Some).
  unfold Compute_b. cbv zeta.
  rewrite lookup_dv_scale, !lookup_dv_add, lookup_dv_scale, Hdx.
  rewrite !(b3Mul_uncoupled _ _ _ _ _ (sym_zero_uncoupled (length fs)) Hi), Hfi.
  cbn. f_equal. generalize (dt d) (dv_at vs i) (dv_at ys i). intros h vi yi.
  vec_ring.
Qed.

(** What gravity and the pending force add to the velocity of a free
    particle over a step [h]. *)
Definition free_fall (h : float32) (gravity : b3Vec3) (pt : b3Particle) : b3Vec3 :=
  vscale h (vadd (vscale (1 / m_mass pt) (m_force pt)) gravity).

(** X19. Without internal forces and contacts, and with every mass
    positive, the solve succeeds after at most one pass of the conjugate
    gradient loop (in exact arithmetic).  A particle that is not dynamic
    gets a zero velocity increment.  A dynamic particle gets
    [dt * (force / mass + gravity)] when a pass was made, and keeps its
    cached [m_x] when none was: the cached values passed the convergence
    check.  When the cached [m_x] of every dynamic particle is zero, as
    after creation, the increment is [dt * (force / mass + gravity)] in
    both cases. *)
Theorem Solve_free_fall (solver : b3ClothSolver) (dt0 : float32)
    (gravity : b3Vec3) :
  m_forces solver = [] -> m_contacts solver = [] ->
  (forall pt, pt ∈ m_particles solver -> 0 < m_mass pt) ->
  exists solver' iterations,
    Solve solver dt0 gravity = Ok (solver', iterations) /\
    (iterations <= 1)%nat /\
    (forall i pt, m_particles solver !! i = Some pt ->
       exists pt', m_particles solver' !! i = Some pt' /\
         m_velocity pt' = vadd (m_velocity pt) (m_x pt') /\
         (m_type pt <> e_dynamicParticle -> m_x pt' = b3Vec3_zero) /\
         (m_type pt = e_dynamicParticle -> iterations = 1%nat ->
          m_x pt' = free_fall dt0 gravity pt) /\
         (m_type pt = e_dynamicParticle -> iterations = 0%nat ->
          m_x pt' = m_x pt) /\
         (m_type pt = e_dynamicParticle ->
          (forall q, q ∈ m_particles solver ->
             m_type q = e_dynamicParticle -> m_x q = b3Vec3_zero) ->
          m_x pt' = free_fall dt0 gravity pt)).
Proof.
  destruct solver as [particles fs cs]. cbn [m_forces m_contacts m_particles].
  intros -> -> Hmass.
  set (count := length particles).
  set (d0 := gathered (mkClothSolver particles [] []) dt0 gravity).
  set (Sz := Compute_S_z count (InitializeConstraints (mkClothSolver particles [] []))).
  set (A0 := Compute_A particles d0 (sym_zero count)).
  set (b0 := Compute_b d0 (f d0) (v d0) (map m_translation particles)).
  assert (HA : uncoupled count (mass_of particles) A0)
    by (by apply Compute_A_uncoupled).
  assert (HS : free_or_pinned count (is_free particles) Sz.1)
    by apply no_contacts_filter.
  assert (Hz0 : Forall (fun a => a = b3Vec3_zero) Sz.2)
    by apply no_contacts_targets.
  assert (Hlz : length Sz.2 = count)
    by (by destruct (Compute_S_z_lengths count
                       (InitializeConstraints (mkClothSolver particles [] [])))).
  assert (Hm : forall i, (i < count)%nat -> 0 < mass_of particles i).
  { intros i Hi. unfold mass_of.
    destruct (lookup_lt_is_Some_2 particles i Hi) as [pt Hpt]. rewrite Hpt.
    apply Hmass. by eapply list_elem_of_lookup_2. }
  assert (Hb : forall i pt, particles !! i = Some pt ->
                 b0 !! i = Some (vscale dt0 (weight gravity pt))).
  { intros i pt Hpt. unfold b0.
    rewrite (Compute_b_lookup d0 (f d0) (v d0) _ i (weight gravity pt)).
    - done.
    - unfold d0, gathered. cbn [dfdx f m_particles]. by rewrite length_map.
    - unfold d0, gathered. cbn [f m_particles]. by rewrite list_lookup_fmap, Hpt. }
  assert (Hlb : length b0 = count).
  { unfold b0, Compute_b, d0, gathered, count.
    cbn [dfdx f v m_particles dt]. sizes. unfold m_particleCount.
    cbn [M sym_zero m_particles]. lia. }
  assert (Hly : length (map m_x particles) = count) by apply length_map.
  destruct (preconditioner_uncoupled count (mass_of particles) A0 HA Hm)
    as (inv_P & HPre & HlP & HP).
  destruct (Solve_Ax_b_uncoupled count (mass_of particles) (is_free particles)
              A0 b0 Sz.1 inv_P Sz.2 (map m_x particles)
              HA HS Hm Hlb Hly Hlz Hz0 HlP HP HPre)
    as (x_ & its & Hsolve & Hcases).
  pose proof (Solve_Ax_b_uncoupled_fresh count (mass_of particles)
                (is_free particles) A0 b0 Sz.1 inv_P Sz.2 (map m_x particles)
                HA HS Hm Hlb Hly Hlz Hz0 HlP HP HPre) as Hfresh.
  assert (Hgo : Solve (mkClothSolver particles [] []) dt0 gravity
                = Ok (mkClothSolver
                        (imap (fun i => set_state
                                 (dv_at (dv_add (dv_add (x d0)
                                           (dv_scale dt0 (dv_add (v d0) x_)))
                                           (map m_translation particles)) i)
                                 (dv_at (dv_add (v d0) x_) i) (dv_at x_ i))
                           particles) [] [], its)).
  { unfold Solve.
    change (assemble (mkClothSolver particles [] []) dt0 gravity)
      with (mkAssembled (map m_translation particles) (map m_x particles) []
              d0 Sz A0 b0).
    cbn [A b S_z sx0 sy data forces m_particleCount m_particles m_contacts].
    change (m_particleCount (mkClothSolver particles [] [])) with count.
    rewrite Hsolve. reflexivity. }
  eexists _, its. split; [exact Hgo|]. split.
  { destruct Hcases as [(-> & _)|(-> & _)]; lia. }
  intros i pt Hpt. cbn [m_particles].
  assert (Hi : (i < count)%nat) by (by eapply lookup_lt_Some).
  rewrite list_lookup_imap, Hpt. cbn [fmap option_fmap option_map].
  eexists. split; [reflexivity|]. cbn [m_x m_velocity set_state].
  assert (Hfree : is_free particles i = bool_decide (m_type pt = e_dynamicParticle))
    by (unfold is_free; by rewrite Hpt).
  assert (Hyi : dv_at (map m_x particles) i = m_x pt)
    by (unfold dv_at; by rewrite list_lookup_fmap, Hpt).
  assert (Hbi : dv_at b0 i = vscale dt0 (weight gravity pt))
    by (unfold dv_at; by rewrite (Hb i pt Hpt)).
  assert (Hmi : mass_of particles i = m_mass pt)
    by (unfold mass_of; by rewrite Hpt).
  assert (Hexact : m_type pt = e_dynamicParticle ->
                   vscale (1 / mass_of particles i) (dv_at b0 i)
                   = free_fall dt0 gravity pt).
  { intros Hdyn. rewrite Hbi, Hmi. unfold free_fall, weight.
    rewrite decide_True by done.
    assert (Hne : m_mass pt <> 0).
    { symmetry. apply Qclt_not_eq. rewrite <- Hmi. by apply Hm. }
    generalize (m_force pt). intros fo. coords. f_equal; by field. }
  assert (Hxi : exists xi, x_ !! i = Some xi)
    by (destruct Hcases as [(_ & _ & Hx)|(_ & Hx)]; rewrite (Hx i Hi); eauto).
  destruct Hxi as [xi Hxi].
  assert (Hat : dv_at x_ i = xi) by (unfold dv_at; by rewrite Hxi).
  split.
  { unfold dv_at at 1. unfold d0, gathered. cbn [v m_particles].
    rewrite lookup_dv_add, list_lookup_fmap, Hpt, Hxi, Hat. done. }
  rewrite Hat. split; [|split; [|split]].
  - intros Hnd.
    destruct Hcases as [(_ & _ & Hx)|(_ & Hx)]; rewrite (Hx i Hi), Hfree in Hxi;
      rewrite bool_decide_eq_false_2 in Hxi by done; congruence.
  - intros Hdyn ->. destruct Hcases as [(? & _)|(_ & Hx)]; [done|].
    rewrite (Hx i Hi), Hfree, bool_decide_eq_true_2 in Hxi by done.
    rewrite <- (Hexact Hdyn). congruence.
  - intros Hdyn ->. destruct Hcases as [(_ & _ & Hx)|(? & _)]; [|done].
    rewrite (Hx i Hi), Hfree, bool_decide_eq_true_2 in Hxi by done. congruence.
  - intros Hdyn Hzero.
    assert (Hy0 : forall j, (j < count)%nat -> is_free particles j = true ->
                    dv_at (map m_x particles) j = b3Vec3_zero).
    { intros j Hj. unfold is_free, dv_at. rewrite list_lookup_fmap.
      destruct (particles !! j) as [q|] eqn:Hq; [|done]. cbn.
      intros Hq'%bool_decide_eq_true_1. apply Hzero; [|done].
      by eapply list_elem_of_lookup_2. }
    rewrite (Hfresh Hy0 x_ its Hsolve i Hi), Hfree, bool_decide_eq_true_2 in Hxi
      by done.
    rewrite <- (Hexact Hdyn). congruence.
Qed.

End WithForces.

(** ** A small system: a kinematic and a dynamic particle joined by a spring *)

#[global] Instance result_eq_dec {A : Type} `{EqDecision A} : EqDecision (result A).
Proof. solve_decision. Defined.

#[global] Instance b3Particle_eq_dec : EqDecision b3Particle.
Proof. solve_decision. Defined.

#[global] Instance b3BodyContact_eq_dec : EqDecision b3BodyContact.
Proof. solve_decision. Defined.

#[global] Instance b3ClothSolver_eq_dec {F : Type} `{EqDecision F} :
  EqDecision (b3ClothSolver F).
Proof. solve_decision. Defined.

(** A spring of rest length zero between particles [sp_a < sp_b]: the
    force on [sp_a] is [- sp_ks * (x_a - x_b)], and the position Jacobian
    has [- sp_ks * I] on the two diagonal blocks and [sp_ks * I] off the
    diagonal. *)
Record spring : Type := mkSpring { sp_a : nat; sp_b : nat; sp_ks : float32 }.

#[global] Instance spring_eq_dec : EqDecision spring.
Proof. solve_decision. Defined.

Definition spring_Initialize (force : spring) (d : b3ClothSolverData) : spring :=
  force.

Definition spring_Apply (force : spring) (d : b3ClothSolverData)
    : b3ClothSolverData :=
  let dx := vsub (dv_at (x d) (sp_a force)) (dv_at (x d) (sp_b force)) in
  let fa := vscale (- sp_ks force) dx in
  mkSolverData (x d) (v d)
    (alter (fun fi => vsub fi fa) (sp_b force)
       (alter (fun fi => vadd fi fa) (sp_a force) (f d)))
    (update
       (update
          (update (dfdx d) (sp_a force) (sp_a force)
             (fun D => madd D (b3Diagonal (- sp_ks force))))
          (sp_b force) (sp_b force)
          (fun D => madd D (b3Diagonal (- sp_ks force))))
       (sp_a force) (sp_b force) (fun D => madd D (b3Diagonal (sp_ks force))))
    (dfdv d) (dt d) (invdt d).

Lemma spring_keeps_buffers : forces_keep_buffers spring spring_Apply.
Proof.
  intros force d. unfold spring_Apply. cbn [v f dfdx M update].
  by rewrite !length_alter.
Qed.

Abbreviation Solve0 := (Solve spring spring_Initialize spring_Apply).

Abbreviation assemble0 := (assemble spring spring_Initialize spring_Apply).

Definition kinematic0 : b3Particle :=
  mkParticle e_kinematicParticle b3Vec3_zero (mkVec3 1 0 0) b3Vec3_zero 1
    b3Vec3_zero b3Vec3_zero.

Definition dynamic0 : b3Particle :=
  mkParticle e_dynamicParticle (mkVec3 0 (- 1) 0) b3Vec3_zero b3Vec3_zero 1
    b3Vec3_zero b3Vec3_zero.

Definition pair0 : b3ClothSolver spring :=
  mkClothSolver spring [kinematic0; dynamic0] [mkSpring 0 1 1] [].

Definition gravity0 : b3Vec3 := mkVec3 0 (- 1) 0.

(** One kinematic particle moving along x, nothing else. *)
Definition alone0 : b3ClothSolver spring :=
  mkClothSolver spring [kinematic0] [] [].

Example alone0_solved :
  Solve0 alone0 1 gravity0
  = Ok (mkClothSolver spring
          [mkParticle e_kinematicParticle (mkVec3 1 0 0) (mkVec3 1 0 0)
             b3Vec3_zero 1 b3Vec3_zero b3Vec3_zero] [] [], 0%nat).
Proof. apply (bool_decide_unpack _). vm_compute. exact I. Qed.

(** With unit masses, unit stiffness and [dt = 1] the pair converges in
    one pass: the spring pull cancels gravity, and the dynamic particle is
    dragged to half the velocity of the kinematic one. *)
Example pair0_solved :
  Solve0 pair0 1 gravity0
  = Ok (mkClothSolver spring
          [mkParticle e_kinematicParticle (mkVec3 1 0 0) (mkVec3 1 0 0)
             b3Vec3_zero 1 b3Vec3_zero b3Vec3_zero;
           mkParticle e_dynamicParticle (mkVec3 (1 / 2) (- 1) 0)
             (mkVec3 (1 / 2) 0 0) b3Vec3_zero 1 b3Vec3_zero
             (mkVec3 (1 / 2) 0 0)]
          [mkSpring 0 1 1] [], 1%nat).
Proof. apply (bool_decide_unpack _). vm_compute. exact I. Qed.

(** The kinematic particle moves at (1, 0, 0) before and after the solve,
    while its target [z] is zero. *)
Lemma kinematic_velocity_is_not_target :
  ~ zero_dof_velocity_is_target spring spring_Initialize spring_Apply.
Proof.
  intros H.
  assert (Hz : zero_dof spring alone0 0).
  { split.
    - left. exists kinematic0. by split.
    - intros pc Hpc. inversion Hpc. }
  specialize (H alone0 1 gravity0 _ _ 0%nat _ b3Mat33_zero b3Vec3_zero
                eq_refl alone0_solved Hz eq_refl eq_refl eq_refl).
  vm_compute in H. discriminate H.
Qed.

Lemma mpcg_iterates_constrained_witness :
  forces_keep_buffers spring spring_Apply /\
  zero_dof spring pair0 0 /\
  exists pt', m_velocity pt' = m_velocity kinematic0 /\ m_x pt' = b3Vec3_zero.
Proof.
  assert (Hz : zero_dof spring pair0 0).
  { split.
    - left. exists kinematic0. by split.
    - intros pc Hpc. inversion Hpc. }
  split; [exact spring_keeps_buffers|]. split; [exact Hz|].
  destruct (mpcg_iterates_constrained spring spring_Initialize spring_Apply
              pair0 1 gravity0) as (_ & _ & _ & H).
  destruct (H spring_keeps_buffers _ _ 0%nat kinematic0 pair0_solved Hz eq_refl)
    as (_ & _ & pt' & _ & Hx & Hv).
  exists pt'. split; [exact Hv|exact Hx].
Defined.

Lemma assemble_backward_Euler_witness :
  m_particles spring pair0 !! 1%nat = Some dynamic0 /\
  f (gathered spring pair0 1 gravity0) !! 1%nat
  = Some (if decide (m_type dynamic0 = e_dynamicParticle)
          then vadd (m_force dynamic0) (vscale (m_mass dynamic0) gravity0)
          else m_force dynamic0).
Proof.
  split; [reflexivity|].
  destruct (assemble_backward_Euler spring spring_Initialize spring_Apply
              pair0 1 gravity0) as (_ & _ & H & _).
  destruct (H 1%nat dynamic0 eq_refl) as (Hf & _).
  exact Hf.
Defined.

(** A diagonal block with off-diagonal entries: its inverse is not
    diagonal, the preconditioner is. *)
Definition coupled_block : b3Mat33 :=
  mkMat33 (mkVec3 2 1 0) (mkVec3 1 2 0) (mkVec3 0 0 1).

Definition coupled_system : b3SparseSymMat33 :=
  mkSymMat33 1 1 (fun _ _ => coupled_block).

Example coupled_block_inverse :
  mmul coupled_block (cofactor_inverse coupled_block) = b3Mat33_identity.
Proof. apply (bool_decide_unpack _). vm_compute. exact I. Qed.

Example coupled_preconditioner :
  preconditioner 1 coupled_system = Ok [b3Diagonal3 (1 / 2) (1 / 2) 1].
Proof. apply (bool_decide_unpack _). vm_compute. exact I. Qed.

(** A block that is not positive definite and passes the assertions. *)
Example indefinite_block_accepted :
  preconditioner 1 (mkSymMat33 1 1 (fun _ _ => b3Diagonal3 (- 1) (- 1) 1))
  = Ok [b3Diagonal3 (- 1) (- 1) 1].
Proof. apply (bool_decide_unpack _). vm_compute. exact I. Qed.

Lemma preconditioner_is_not_block_inverse : ~ preconditioner_is_block_inverse.
Proof.
  intros H.
  specialize (H 1%nat coupled_system _ 0%nat coupled_preconditioner
                (Nat.lt_0_succ 0)).
  vm_compute in H. discriminate H.
Qed.

Lemma preconditioner_reciprocal_diagonal_witness :
  preconditioner 1 coupled_system = Ok [b3Diagonal3 (1 / 2) (1 / 2) 1] /\
  length [b3Diagonal3 (1 / 2) (1 / 2) 1] = 1%nat.
Proof.
  split; [exact coupled_preconditioner|].
  destruct (preconditioner_reciprocal_diagonal 1 coupled_system) as (H & _).
  destruct (H _ coupled_preconditioner) as (Hl & _).
  exact Hl.
Defined.

(** The system of [pair0]: the solve stops after one pass. *)
Example pair0_iterations :
  (fun xi : b3DenseVec3 * nat => xi.2)
    <$> Solve_Ax_b 2 (A spring (assemble0 pair0 1 gravity0))
          (b spring (assemble0 pair0 1 gravity0))
          (S_z spring (assemble0 pair0 1 gravity0)).1
          (S_z spring (assemble0 pair0 1 gravity0)).2
          (sx0 spring (assemble0 pair0 1 gravity0))
  = Ok 1%nat.
Proof. apply (bool_decide_unpack _). vm_compute. exact I. Qed.



(** ** The same pair with the dynamic particle in contact *)

Definition resting0 : b3BodyContact :=
  mkBodyContact 1 (- 1) (mkVec3 0 1 0) (mkVec3 1 0 0) (mkVec3 0 0 1) 0 0 0
    true false.

Definition touching0 : b3ClothSolver spring :=
  mkClothSolver spring [kinematic0; dynamic0] [mkSpring 0 1 1] [resting0].

Lemma spring_keeps_state : forces_keep_state spring spring_Apply.
Proof.
  intros force d. unfold spring_Apply. cbn [x v f dfdx M update].
  by rewrite !length_alter.
Qed.

Lemma InitializeConstraints_count_witness :
  NoDup (map p1 (m_contacts spring touching0)) /\
  (length (InitializeConstraints spring touching0)
   <= m_particleCount spring touching0)%nat.
Proof.
  assert (Hnd : NoDup (map p1 (m_contacts spring touching0))).
  { apply NoDup_singleton. }
  split; [exact Hnd|].
  destruct (InitializeConstraints_count spring touching0) as (_ & _ & H).
  apply (H Hnd). intros pc Hpc. apply list_elem_of_singleton in Hpc as ->.
  exists dynamic0. by split.
Defined.

Lemma Compute_S_z_blocks_witness :
  m_particles spring touching0 !! 1%nat = Some dynamic0 /\
  (S_z spring (assemble0 touching0 1 gravity0)).1 !! 1%nat
  = Some (contact_block resting0).
Proof.
  split; [reflexivity|].
  destruct (Compute_S_z_blocks spring spring_Initialize spring_Apply touching0 1
              gravity0 1 dynamic0 eq_refl) as (_ & H).
  apply (H [] resting0 []); [reflexivity|reflexivity|].
  intros pc Hpc. inversion Hpc.
Defined.

Lemma mpcg_residual_witness :
  exists st,
    mpcg_iterate 1 (A spring (assemble0 pair0 1 gravity0))
      (S_z spring (assemble0 pair0 1 gravity0)).1
      [b3Diagonal (1 / 2); b3Diagonal (1 / 2)]
      (mpcg_init 2 (A spring (assemble0 pair0 1 gravity0))
         (b spring (assemble0 pair0 1 gravity0))
         (S_z spring (assemble0 pair0 1 gravity0)).1
         [b3Diagonal (1 / 2); b3Diagonal (1 / 2)]
         (S_z spring (assemble0 pair0 1 gravity0)).2
         (sx0 spring (assemble0 pair0 1 gravity0))) = Ok st /\
    st_r st =
      dm_mul (S_z spring (assemble0 pair0 1 gravity0)).1
        (dv_sub (b spring (assemble0 pair0 1 gravity0))
           (b3Mul (A spring (assemble0 pair0 1 gravity0)) (st_x st))).
Proof.
  assert (H : exists st,
    mpcg_iterate 1 (A spring (assemble0 pair0 1 gravity0))
      (S_z spring (assemble0 pair0 1 gravity0)).1
      [b3Diagonal (1 / 2); b3Diagonal (1 / 2)]
      (mpcg_init 2 (A spring (assemble0 pair0 1 gravity0))
         (b spring (assemble0 pair0 1 gravity0))
         (S_z spring (assemble0 pair0 1 gravity0)).1
         [b3Diagonal (1 / 2); b3Diagonal (1 / 2)]
         (S_z spring (assemble0 pair0 1 gravity0)).2
         (sx0 spring (assemble0 pair0 1 gravity0))) = Ok st).
  { eexists. vm_compute. reflexivity. }
  destruct H as [st Hst]. exists st. split; [exact Hst|].
  refine (proj1 (mpcg_residual 2 _ _ _ _ _ _ 1 st _ _ _ _ _ _ Hst));
    vm_compute; reflexivity.
Defined.

Lemma Solve_Ax_b_pinned_witness :
  (forall i, (i < m_particleCount spring alone0)%nat -> zero_dof spring alone0 i) /\
  exists solver' iterations,
    Solve0 alone0 1 gravity0 = Ok (solver', iterations) /\ iterations = 0%nat.
Proof.
  assert (Hz : forall i, (i < m_particleCount spring alone0)%nat ->
                 zero_dof spring alone0 i).
  { intros i Hi. cbn in Hi. assert (i = 0%nat) as -> by lia. split.
    - left. exists kinematic0. by split.
    - intros pc Hpc. inversion Hpc. }
  split; [exact Hz|].
  eexists _, _. split; [exact alone0_solved|].
  destruct (Solve_Ax_b_pinned spring spring_Initialize spring_Apply alone0 1 gravity0)
    as (_ & H).
  exact (H _ _ Hz alone0_solved).
Defined.

Lemma Solve_scatter_witness :
  forces_keep_state spring spring_Apply /\
  exists pt', m_velocity pt' = vadd (m_velocity dynamic0) (m_x pt').
Proof.
  split; [exact spring_keeps_state|].
  destruct (Solve_scatter spring spring_Initialize spring_Apply pair0 _ 1 gravity0 _
              spring_keeps_state pair0_solved) as (_ & _ & H & _).
  destruct (H 1%nat dynamic0 eq_refl) as (pt' & _ & _ & _ & _ & _ & Hv & _).
  by exists pt'.
Defined.


(** A kinematic and a dynamic particle, no force and no contact. *)
Definition falling0 : b3ClothSolver spring :=
  mkClothSolver spring [kinematic0; dynamic0] [] [].

Example falling0_solved :
  Solve0 falling0 (1 / 2) gravity0
  = Ok (mkClothSolver spring
          [mkParticle e_kinematicParticle (mkVec3 (1 / 2) 0 0) (mkVec3 1 0 0)
             b3Vec3_zero 1 b3Vec3_zero b3Vec3_zero;
           mkParticle e_dynamicParticle (mkVec3 0 (- (1 + 1 / 2 * (1 / 2))) 0)
             (mkVec3 0 (- (1 / 2)) 0) b3Vec3_zero 1 b3Vec3_zero
             (mkVec3 0 (- (1 / 2)) 0)]
          [] [], 1%nat).
Proof. apply (bool_decide_unpack _). vm_compute. exact I. Qed.

Lemma Solve_free_fall_witness :
  m_forces spring falling0 = [] /\ m_contacts spring falling0 = [] /\
  (forall pt, pt ∈ m_particles spring falling0 -> 0 < m_mass pt) /\
  exists solver' iterations,
    Solve0 falling0 (1 / 2) gravity0 = Ok (solver', iterations) /\
    (iterations <= 1)%nat.
Proof.
  assert (Hm : forall pt, pt ∈ m_particles spring falling0 -> 0 < m_mass pt).
  { intros pt Hpt. unfold falling0 in Hpt. cbn [m_particles] in Hpt.
    apply elem_of_cons in Hpt as [->|Hpt]; [reflexivity|].
    apply list_elem_of_singleton in Hpt as ->. reflexivity. }
  split; [reflexivity|]. split; [reflexivity|]. split; [exact Hm|].
  destruct (Solve_free_fall spring spring_Initialize spring_Apply falling0
              (1 / 2) gravity0 eq_refl eq_refl Hm)
    as (solver' & its & Hs & Hle & _).
  exists solver', its. split; [exact Hs|exact Hle].
Defined.

End ClothSolver.
